(** * UCTSearch: the search driver of leela-chess (src/UCTSearch.cpp)

    A shallow embedding of [UCTSearch::play_simulation], the three
    do-while search loops ([UCTSearch::think], [UCTSearch::ponder],
    [UCTWorker::operator()]), [UCTSearch::get_best_move], the reporting
    functions ([UCTSearch::get_pv], [UCTSearch::dump_stats],
    [UCTSearch::dump_analysis]) and [UCTSearch::set_playout_limit].

    Conventions of the embedding.
    - The tree is a node store ([list UCTNode]); a [UCTNode*] is an index
      into it and [m_root] is index 0.  Nodes are only ever appended.
    - C++ [float] evaluations are exact rationals ([Q]).  The statements
      below only use constants that binary32 represents exactly
      (-1, 0, 1/2, 1) and compare evaluations with [Qeq].
    - [int] counters are unbounded integers ([Z]).
    - The rules engine (Position.h), the network and the floating point
      formulas of UCTNode.cpp are interfaces (type classes below); so are
      the text of a move (UCI.h) and the type of the playout limit
      (UCTSearch.h).
    - Every call that a descent makes on a collaborator is recorded, in
      program order, in the [calls] field of the search state.
    - What is printed is modelled by the arguments of the [myprintf]
      calls.
    - The threads of a search take turns under a schedule; a turn is one
      iteration of the thread's loop, so descents do not overlap.  What
      overlapping descents do to the virtual-loss counters is stated on
      interleavings of their calls. *)

From Stdlib Require Import ZArith QArith List Bool Lia Sorted.
From stdpp Require Import base option list strings gmap.

Set Default Proof Using "Type".

(** ** Data model *)

Inductive Color := WHITE | BLACK.

Global Instance Color_eq_dec : EqDecision Color.
Proof. solve_decision. Defined.

(** [enum Move : int]; [MOVE_NONE] is the reserved sentinel. *)
Abbreviation Move := Z (only parsing).
Definition MOVE_NONE : Move := 0%Z.

(** [Key] is the 64-bit Zobrist hash of a position. *)
Abbreviation Key := Z (only parsing).

(** [UCTNode*]. *)
Abbreviation ptr := nat (only parsing).

(** The rules engine, as [UCTSearch.cpp] uses it. *)
Class RulesEngine (Position : Type) := {
  side_to_move : Position → Color;
  key : Position → Key;
  is_draw : Position → bool;
  (** [MoveList<LEGAL>(pos)] *)
  legal_moves : Position → list Move;
  (** the bitboard of checking pieces; zero when not in check *)
  checkers : Position → Z;
  do_move : Move → Position → Position;
  undo_move : Move → Position → Position;
  game_ply : Position → Z
}.

(** Modelled from the spec: the result type of a descent, declared in
    UCTSearch.h.  "variant: Invalid | Eval(f32 in [0,1])". *)
Inductive SearchResult :=
| Invalid
| Evaluation (e : Q).

(** Modelled from the spec: [SearchResult::valid] and
    [SearchResult::from_eval] of UCTSearch.h, for that variant. *)
Definition valid (r : SearchResult) : bool :=
  match r with Evaluation _ => true | Invalid => false end.

Definition from_eval (e : Q) : SearchResult := Evaluation e.

(** Modelled from the spec: [SearchResult::from_score] of UCTSearch.h,
    "maps a terminal outcome s in {-1,0,+1} to an evaluation by (s+1)/2". *)
Definition from_score (s : Q) : SearchResult := Evaluation ((s + 1) / 2).

(** Modelled from the spec: the attributes of a tree node (UCTNode.h):
    the move that led to it, its prior, its children in order, the
    expansion flag, the visit count, the sum of the evaluations backed up
    (eval_sum) and the virtual-loss counter. *)
Record UCTNode := mkNode {
  m_move : Move;
  m_score : Q;
  m_children : list ptr;
  m_expanded : bool;
  m_visits : Z;
  m_evals : Q;
  m_virtual_loss : Z
}.

(** The calls [UCTSearch.cpp] makes on its collaborators. *)
Inductive Event :=
| CallSync (h : Key) (n : ptr)
| CallVirtualLoss (n : ptr)
| CallCreateChildren (n : ptr) (success : bool)
| CallEvalState (n : ptr)
| CallDoMove (m : Move)
| CallUndoMove (m : Move)
| CallUpdate (n : ptr) (e : Q)
| CallVirtualLossUndo (n : ptr)
| CallTTUpdate (h : Key) (n : ptr).

(** The shared state of a search: the tree, the transposition table (a
    map from hashes to nodes; its bound on the number of entries is left
    out) and the members of [UCTSearch]. *)
Record Search := mkSearch {
  nodes : list UCTNode;
  tt : gmap Z ptr;
  m_nodes : Z;
  m_playouts : Z;
  m_run : bool;
  m_maxplayouts : Z;
  calls : list Event
}.

Definition m_root : ptr := 0.

(** The network and the floating point formulas of UCTNode.cpp. *)
Class Evaluator (Position : Type) := {
  (** the evaluator behind [create_children]: [None] when it is unavailable,
      otherwise the evaluation and the prior of every move *)
  nn_forward : Position → option (Q * (Move → Q));
  (** the evaluator behind [eval_state] *)
  nn_value : Position → Q;
  (** the quantity [uct_select_child] maximises, for a parent and a child *)
  uct_value : Color → UCTNode → UCTNode → Q;
  (** [UCTNode::get_eval(color)] *)
  get_eval : Color → UCTNode → Q
}.

(** Constants of UCTSearch.h and Parameters.h. *)
Class Parameters := {
  MAX_TREE_SIZE : Z;
  cfg_num_threads : Z;
  cfg_noise : bool;
  cfg_quiet : bool;
  cfg_random_cnt : Z;
  cfg_resignpct : Z;
  cfg_min_resign_moves : Z
}.

(** The random draws of one search (Random.h): the Dirichlet sample mixed
    into the root priors and the number drawn by
    [randomize_first_proportionally]. *)
Class Randomness := {
  dirichlet_sample : nat → Q;
  random_pick : Z
}.

(** ** Operations on the search state *)

(** Field updates, and the record of a call. *)
Definition set_nodes (f : list UCTNode → list UCTNode) (s : Search)
  : Search :=
  {| nodes := f (nodes s); tt := tt s; m_nodes := m_nodes s;
     m_playouts := m_playouts s; m_run := m_run s;
     m_maxplayouts := m_maxplayouts s; calls := calls s |}.

Definition set_tt (f : gmap Z ptr → gmap Z ptr) (s : Search) : Search :=
  {| nodes := nodes s; tt := f (tt s); m_nodes := m_nodes s;
     m_playouts := m_playouts s; m_run := m_run s;
     m_maxplayouts := m_maxplayouts s; calls := calls s |}.

Definition set_m_nodes (n : Z) (s : Search) : Search :=
  {| nodes := nodes s; tt := tt s; m_nodes := n;
     m_playouts := m_playouts s; m_run := m_run s;
     m_maxplayouts := m_maxplayouts s; calls := calls s |}.

Definition set_m_run (b : bool) (s : Search) : Search :=
  {| nodes := nodes s; tt := tt s; m_nodes := m_nodes s;
     m_playouts := m_playouts s; m_run := b;
     m_maxplayouts := m_maxplayouts s; calls := calls s |}.

Definition call (ev : Event) (s : Search) : Search :=
  {| nodes := nodes s; tt := tt s; m_nodes := m_nodes s;
     m_playouts := m_playouts s; m_run := m_run s;
     m_maxplayouts := m_maxplayouts s; calls := calls s ++ [ev] |}.

(** Modelled from the spec: [UCTNode::update], "visits += 1;
    eval_sum += eval". *)
Definition node_update (e : Q) (n : UCTNode) : UCTNode :=
  {| m_move := m_move n; m_score := m_score n; m_children := m_children n;
     m_expanded := m_expanded n; m_visits := m_visits n + 1;
     m_evals := (m_evals n + e)%Q; m_virtual_loss := m_virtual_loss n |}.

(** Modelled from the spec: [UCTNode::virtual_loss], "+= 1" on the counter. *)
Definition node_virtual_loss (n : UCTNode) : UCTNode :=
  {| m_move := m_move n; m_score := m_score n; m_children := m_children n;
     m_expanded := m_expanded n; m_visits := m_visits n;
     m_evals := m_evals n; m_virtual_loss := m_virtual_loss n + 1 |}.

(** Modelled from the spec: [UCTNode::virtual_loss_undo], "-= 1". *)
Definition node_virtual_loss_undo (n : UCTNode) : UCTNode :=
  {| m_move := m_move n; m_score := m_score n; m_children := m_children n;
     m_expanded := m_expanded n; m_visits := m_visits n;
     m_evals := m_evals n; m_virtual_loss := m_virtual_loss n - 1 |}.

(** The statistics a transposition merges: visits and eval_sum. *)
Definition node_copy_stats (from n : UCTNode) : UCTNode :=
  {| m_move := m_move n; m_score := m_score n; m_children := m_children n;
     m_expanded := m_expanded n; m_visits := m_visits from;
     m_evals := m_evals from; m_virtual_loss := m_virtual_loss n |}.

(** Publishing the children of a node, and a node fresh from
    [create_children]. *)
Definition node_publish (kids : list ptr) (n : UCTNode) : UCTNode :=
  {| m_move := m_move n; m_score := m_score n; m_children := kids;
     m_expanded := true; m_visits := m_visits n;
     m_evals := m_evals n; m_virtual_loss := m_virtual_loss n |}.

Definition new_node (m : Move) (prior : Q) : UCTNode :=
  {| m_move := m; m_score := prior; m_children := []; m_expanded := false;
     m_visits := 0; m_evals := 0; m_virtual_loss := 0 |}.

(** The calls [node->update(eval)], [node->virtual_loss()] and
    [node->virtual_loss_undo()]: the operations above on the node the
    pointer designates. *)
Definition update (node : ptr) (e : Q) (s : Search) : Search :=
  call (CallUpdate node e) (set_nodes (alter (node_update e) node) s).

Definition virtual_loss (node : ptr) (s : Search) : Search :=
  call (CallVirtualLoss node) (set_nodes (alter node_virtual_loss node) s).

Definition virtual_loss_undo (node : ptr) (s : Search) : Search :=
  call (CallVirtualLossUndo node)
       (set_nodes (alter node_virtual_loss_undo node) s).

(** Modelled from the spec: [UCTNode::has_children], for "children:
    ordered sequence of child nodes; empty until expansion": the children
    list is not empty. *)
Definition has_children (node : ptr) (s : Search) : bool :=
  match nodes s !! node with
  | Some n => negb (bool_decide (m_children n = []))
  | None => false
  end.

(** Modelled from the spec: the first half of [TTable::sync], "if hash is
    registered to a different node, copy the registered node's visit/eval
    statistics into node". *)
Definition merge_registered (hash : Key) (node : ptr) (s : Search)
  : list UCTNode :=
  match tt s !! hash with
  | Some other =>
      if decide (other = node) then nodes s
      else match nodes s !! other with
           | Some o => alter (node_copy_stats o) node (nodes s)
           | None => nodes s
           end
  | None => nodes s
  end.

(** Modelled from the spec: [TTable::sync], the merge above, "then
    register node as canonical". *)
Definition TT_sync (hash : Key) (node : ptr) (s : Search) : Search :=
  call (CallSync hash node)
       (set_tt <[hash := node]>
               (set_nodes (λ _, merge_registered hash node s) s)).

(** Modelled from the spec: [TTable::update], "re-register". *)
Definition TT_update (hash : Key) (node : ptr) (s : Search) : Search :=
  call (CallTTUpdate hash node) (set_tt <[hash := node]> s).

(** The virtual-loss counters of the store, node by node. *)
Definition losses (s : Search) : list Z := m_virtual_loss <$> nodes s.

Section Descent.
Context {Position : Type} `{!RulesEngine Position} `{!Evaluator Position}
        `{!Parameters} `{!Randomness}.

(** Modelled from the spec: [UCTNode::create_children].  The evaluator is
    asked for [(eval, priors)]; one child per legal move is appended to
    the store with its prior, the children are published, and the global
    node counter grows by the number of children.  It fails, leaving the
    node unexpanded, when the node is already expanded or the evaluator
    has no result.  The result is [Some eval] on success. *)
Definition create_children (node : ptr) (pos : Position) (s : Search)
  : Search * option Q :=
  match nodes s !! node with
  | None => (call (CallCreateChildren node false) s, None)
  | Some n =>
      if m_expanded n then (call (CallCreateChildren node false) s, None)
      else
        match nn_forward pos with
        | None => (call (CallCreateChildren node false) s, None)
        | Some (e, policy) =>
            let kids := map (λ m, new_node m (policy m)) (legal_moves pos) in
            let first := length (nodes s) in
            let store :=
              alter (node_publish (seq first (length kids))) node (nodes s)
              ++ kids in
            (call (CallCreateChildren node true)
               (set_m_nodes (m_nodes s + Z.of_nat (length kids))
                  (set_nodes (λ _, store) s)),
             Some e)
        end
  end.

(** Modelled from the spec: [UCTNode::eval_state], "invokes the evaluator
    without expanding". *)
Definition eval_state (node : ptr) (pos : Position) (s : Search)
  : Search * Q :=
  (call (CallEvalState node) s, nn_value pos).

(** Modelled from the spec: [UCTNode::uct_select_child], "chooses the
    child maximising" the UCT value, "tie-break by insertion order".  A
    child pointer that does not point into the store is a null
    dereference ([None]). *)
Fixpoint select_from (value : UCTNode → Q) (store : list UCTNode)
         (cs : list ptr) (best : option (ptr * Q)) : option ptr :=
  match cs with
  | [] => fst <$> best
  | c :: cs' =>
      match store !! c with
      | None => None
      | Some child =>
          let v := value child in
          let best' :=
            match best with
            | Some (_, bv) => if Qle_bool v bv then best else Some (c, v)
            | None => Some (c, v)
            end in
          select_from value store cs' best'
      end
  end.

Definition uct_select_child (color : Color) (node : ptr) (s : Search)
  : option ptr :=
  parent ← nodes s !! node;
  select_from (uct_value color parent) (nodes s) (m_children parent) None.

(** Modelled from the spec: [UCTNode::get_move], the "move that led from
    parent to this node". *)
Definition get_move (node : ptr) (s : Search) : option Move :=
  m_move <$> nodes s !! node.

(** [UCTSearch::play_simulation], lines 55-99.  The recursion follows
    child pointers, so it is bounded by [fuel]; [None] is an exhausted
    bound or a dereference outside the store. *)
Fixpoint play_simulation (fuel : nat) (s : Search) (currstate : Position)
         (node : ptr) : option (Search * Position * SearchResult) :=
  match fuel with
  | O => None
  | S fuel' =>
      _ ← nodes s !! node;
      let color := side_to_move currstate in
      let hash := key currstate in
      let result := Invalid in
      let s := TT_sync hash node s in
      let s := virtual_loss node s in
      let '(s, result) :=
        if negb (has_children node s) then
          let drawn := is_draw currstate in
          let moves := length (legal_moves currstate) in
          if drawn || (moves =? 0)%nat then
            let score : Q :=
              if drawn || (checkers currstate =? 0)%Z then 0%Q
              else match side_to_move currstate with
                   | WHITE => (-1)%Q
                   | BLACK => 1%Q
                   end in
            (s, from_score score)
          else if (m_nodes s <? MAX_TREE_SIZE)%Z then
            let '(s, success) := create_children node currstate s in
            match success with
            | Some eval => (s, from_eval eval)
            | None => (s, result)
            end
          else
            let '(s, eval) := eval_state node currstate s in
            (s, from_eval eval)
        else (s, result) in
      '(s, currstate, result) ←
        (if has_children node s && negb (valid result) then
           next ← uct_select_child color node s;
           move ← get_move next s;
           let currstate := do_move move currstate in
           let s := call (CallDoMove move) s in
           '(s, currstate, result) ← play_simulation fuel' s currstate next;
           let currstate := undo_move move currstate in
           let s := call (CallUndoMove move) s in
           Some (s, currstate, result)
         else Some (s, currstate, result));
      let s := match result with
               | Evaluation e => update node e s
               | Invalid => s
               end in
      let s := virtual_loss_undo node s in
      let s := TT_update hash node s in
      Some (s, currstate, result)
  end.

(** The three phases of one activation of [play_simulation], named so
    that the lemmas below can speak about them: lines 61-62, lines
    64-80 and lines 92-96. *)
Definition on_entry (currstate : Position) (node : ptr) (s : Search)
  : Search :=
  virtual_loss node (TT_sync (key currstate) node s).

Definition terminal (currstate : Position) : bool :=
  is_draw currstate || (length (legal_moves currstate) =? 0)%nat.

Definition terminal_score (currstate : Position) : Q :=
  if is_draw currstate || (checkers currstate =? 0)%Z then 0%Q
  else match side_to_move currstate with
       | WHITE => (-1)%Q
       | BLACK => 1%Q
       end.

Definition at_leaf (currstate : Position) (node : ptr) (s : Search)
  : Search * SearchResult :=
  if negb (has_children node s) then
    if terminal currstate then (s, from_score (terminal_score currstate))
    else if (m_nodes s <? MAX_TREE_SIZE)%Z then
      let '(s, success) := create_children node currstate s in
      match success with
      | Some eval => (s, from_eval eval)
      | None => (s, Invalid)
      end
    else
      let '(s, eval) := eval_state node currstate s in
      (s, from_eval eval)
  else (s, Invalid).

Definition on_exit (currstate : Position) (node : ptr)
           (result : SearchResult) (s : Search) : Search :=
  let s := match result with
           | Evaluation e => update node e s
           | Invalid => s
           end in
  TT_update (key currstate) node (virtual_loss_undo node s).

Definition descend_into_child (fuel : nat) (s : Search)
           (currstate : Position) (node : ptr)
  : option (Search * Position * SearchResult) :=
  next ← uct_select_child (side_to_move currstate) node s;
  move ← get_move next s;
  '(s, p, r) ← play_simulation fuel (call (CallDoMove move) s)
                               (do_move move currstate) next;
  Some (call (CallUndoMove move) s, undo_move move p, r).

(** The descent as a relation between the state before and after, one
    rule per branch of lines 64-90. *)
Inductive descent
  : Search → Position → ptr → Search → Position → SearchResult → Prop :=
| descent_terminal s pos node :
    is_Some (nodes s !! node) →
    has_children node (on_entry pos node s) = false →
    terminal pos = true →
    descent s pos node
            (on_exit pos node (from_score (terminal_score pos))
                     (on_entry pos node s))
            pos (from_score (terminal_score pos))
| descent_expand s pos node s1 o :
    is_Some (nodes s !! node) →
    has_children node (on_entry pos node s) = false →
    terminal pos = false →
    (m_nodes s < MAX_TREE_SIZE)%Z →
    create_children node pos (on_entry pos node s) = (s1, o) →
    let r := match o with Some e => from_eval e | None => Invalid end in
    descent s pos node (on_exit pos node r s1) pos r
| descent_in_place s pos node :
    is_Some (nodes s !! node) →
    has_children node (on_entry pos node s) = false →
    terminal pos = false →
    (MAX_TREE_SIZE ≤ m_nodes s)%Z →
    descent s pos node
            (on_exit pos node (from_eval (nn_value pos))
                     (call (CallEvalState node) (on_entry pos node s)))
            pos (from_eval (nn_value pos))
| descent_child s pos node next move s2 p2 r2 :
    is_Some (nodes s !! node) →
    has_children node (on_entry pos node s) = true →
    uct_select_child (side_to_move pos) node (on_entry pos node s)
      = Some next →
    get_move next (on_entry pos node s) = Some move →
    descent (call (CallDoMove move) (on_entry pos node s))
            (do_move move pos) next s2 p2 r2 →
    descent s pos node
            (on_exit pos node r2 (call (CallUndoMove move) s2))
            (undo_move move p2) r2.

(** ** The search loops *)

(** The recursion of a descent visits nodes of strictly growing index in
    a well-formed store, so the size of the store bounds its depth. *)
Definition depth_bound (s : Search) : nat := S (length (nodes s)).

(** [Position::duplicate]: an owned clone of the root position. *)
Definition duplicate (p : Position) : Position := p.

(** [UCTSearch::increment_playouts], [is_running] and
    [playout_limit_reached], lines 211-217 and 229-231. *)
Definition increment_playouts (s : Search) : Search :=
  {| nodes := nodes s; tt := tt s; m_nodes := m_nodes s;
     m_playouts := m_playouts s + 1; m_run := m_run s;
     m_maxplayouts := m_maxplayouts s; calls := calls s |}.

Definition is_running (s : Search) : bool := m_run s.

Definition playout_limit_reached (s : Search) : bool :=
  (m_maxplayouts s <=? m_playouts s)%Z.

(** The body the three loops share (lines 221-225, 262-266, 318-322):
    clone the root position, descend from the root, count the descent
    when its result is valid. *)
Definition descend_and_count (rootstate : Position) (s : Search)
  : option (Search * SearchResult) :=
  let currstate := duplicate rootstate in
  '(s, _, result) ← play_simulation (depth_bound s) s currstate m_root;
  let s := if valid result then increment_playouts s else s in
  Some (s, result).

(** The threads of a search: the caller of [think]/[ponder] and the
    [UCTWorker] tasks of the thread group. *)
Inductive Thread :=
| MainThread
| WorkerThread (i : nat).

Global Instance Thread_eq_dec : EqDecision Thread.
Proof. solve_decision. Defined.

Inductive Mode := Think | Ponder.

(** What can happen next: a thread runs one iteration of its do-while
    loop, or the outside world clears [m_run] or makes input pending. *)
Inductive Action :=
| Turn (t : Thread)
| ExternalStop
| InputArrives.

(** A search in progress.  [main_in_loop] and [workers_in_loop] say which
    threads have not left their loop yet; a thread starts inside its
    loop, whose body runs before the condition is looked at.
    [descents] is the history of the descents made, with their thread. *)
Record World := mkWorld {
  search : Search;
  main_in_loop : bool;
  workers_in_loop : list bool;
  input_pending : bool;
  descents : list (Thread * SearchResult)
}.

(** [UCTWorker::operator()], lines 219-227: one iteration and the loop
    condition. *)
Definition worker_iteration (rootstate : Position) (s : Search)
  : option (Search * SearchResult * bool) :=
  '(s, result) ← descend_and_count rootstate s;
  Some (s, result, is_running s && negb (playout_limit_reached s)).

(** [UCTSearch::think], lines 261-280: one iteration and [keeprunning].
    The analysis output of lines 268-276 does not change the state. *)
Definition think_iteration (rootstate : Position) (s : Search)
  : option (Search * SearchResult * bool) :=
  '(s, result) ← descend_and_count rootstate s;
  let keeprunning := is_running s in
  let keeprunning := keeprunning && negb (playout_limit_reached s) in
  Some (s, result, keeprunning).

(** [UCTSearch::ponder], lines 317-323: one iteration and the loop
    condition. *)
Definition ponder_iteration (rootstate : Position) (pending : bool)
           (s : Search) : option (Search * SearchResult * bool) :=
  '(s, result) ← descend_and_count rootstate s;
  Some (s, result, negb pending && is_running s).

(** One action of a schedule.  The turn of a thread inside its loop is
    one iteration: the body, then the condition, which decides whether
    the thread stays in the loop; when the caller leaves its loop it
    clears [m_run].  The turn of a thread that has left is nothing. *)
Definition step (mode : Mode) (rootstate : Position) (a : Action)
           (w : World) : option World :=
  match a with
  | Turn MainThread =>
      if main_in_loop w then
        '(s, result, again) ←
          match mode with
          | Think => think_iteration rootstate (search w)
          | Ponder => ponder_iteration rootstate (input_pending w) (search w)
          end;
        let s := if (again : bool) then s else set_m_run false s in
        Some {| search := s; main_in_loop := again;
                workers_in_loop := workers_in_loop w;
                input_pending := input_pending w;
                descents := descents w ++ [(MainThread, result)] |}
      else Some w
  | Turn (WorkerThread i) =>
      match workers_in_loop w !! i with
      | Some true =>
          '(s, result, again) ← worker_iteration rootstate (search w);
          Some {| search := s; main_in_loop := main_in_loop w;
                  workers_in_loop := <[i := again]> (workers_in_loop w);
                  input_pending := input_pending w;
                  descents := descents w ++ [(WorkerThread i, result)] |}
      | _ => Some w
      end
  | ExternalStop =>
      Some {| search := set_m_run false (search w);
              main_in_loop := main_in_loop w;
              workers_in_loop := workers_in_loop w;
              input_pending := input_pending w;
              descents := descents w |}
  | InputArrives =>
      Some {| search := search w; main_in_loop := main_in_loop w;
              workers_in_loop := workers_in_loop w;
              input_pending := true;
              descents := descents w |}
  end.

(** The actions of a schedule, one after the other. *)
Fixpoint run (mode : Mode) (rootstate : Position) (sched : list Action)
         (w : World) : option World :=
  match sched with
  | [] => Some w
  | a :: sched' => w' ← step mode rootstate a w; run mode rootstate sched' w'
  end.

(** Lines 252-257 and 311-316: [m_run = true], then one task per extra
    cpu is added to the thread group. *)
Definition start_search (s : Search) : World :=
  {| search := set_m_run true s; main_in_loop := true;
     workers_in_loop := replicate (Z.to_nat (cfg_num_threads - 1)) true;
     input_pending := false; descents := [] |}.

(** [tg.wait_all()] has returned: every thread has left its loop. *)
Definition joined (w : World) : bool :=
  negb (main_in_loop w) && forallb negb (workers_in_loop w).

(** ** Root ordering and the best move *)

(** [a < b] on evaluations. *)
Definition Qlt_bool (a b : Q) : bool := negb (Qle_bool b a).

(** Modelled from the spec: the order of [sort_root_children], "key is
    primarily visits descending, secondarily Q(side) descending". *)
Definition before (color : Color) (a b : UCTNode) : bool :=
  (m_visits b <? m_visits a)%Z
  || ((m_visits a =? m_visits b)%Z
      && Qlt_bool (get_eval color b) (get_eval color a)).

(** An insertion sort by that order; children with equal keys keep their
    order. *)
Fixpoint insert_sorted (color : Color) (x : ptr * UCTNode)
         (l : list (ptr * UCTNode)) : list (ptr * UCTNode) :=
  match l with
  | [] => [x]
  | y :: l' =>
      if before color y.2 x.2 then y :: insert_sorted color x l'
      else x :: y :: l'
  end.

Definition sort_nodes (color : Color) (l : list (ptr * UCTNode))
  : list (ptr * UCTNode) :=
  foldr (insert_sorted color) [] l.

(** Replacing the children list, or the prior, of a node. *)
Definition node_set_children (kids : list ptr) (n : UCTNode) : UCTNode :=
  {| m_move := m_move n; m_score := m_score n; m_children := kids;
     m_expanded := m_expanded n; m_visits := m_visits n;
     m_evals := m_evals n; m_virtual_loss := m_virtual_loss n |}.

Definition node_set_score (q : Q) (n : UCTNode) : UCTNode :=
  {| m_move := m_move n; m_score := q; m_children := m_children n;
     m_expanded := m_expanded n; m_visits := m_visits n;
     m_evals := m_evals n; m_virtual_loss := m_virtual_loss n |}.

(** The children of a node with the nodes they point to. *)
Definition children_of (node : ptr) (s : Search)
  : option (list (ptr * UCTNode)) :=
  n ← nodes s !! node;
  mapM (λ c, pair c <$> nodes s !! c) (m_children n).

(** Modelled from the spec: [UCTNode::sort_root_children]. *)
Definition sort_root_children (color : Color) (s : Search) : option Search :=
  kids ← children_of m_root s;
  Some (set_nodes
          (alter (node_set_children (sort_nodes color kids).*1) m_root) s).

(** Modelled from the spec: [UCTNode::randomize_first_proportionally],
    "with probability proportional to each root child's visit count,
    promote one to first place".  [pick] is the number drawn; the child
    whose interval of the accumulated visit counts holds it is chosen. *)
Fixpoint pick_index (pick : Z) (visits : list Z) (accum : Z) (i : nat)
  : nat :=
  match visits with
  | [] => 0
  | v :: vs =>
      if (pick <? accum + v)%Z then i
      else pick_index pick vs (accum + v)%Z (S i)
  end.

(** The element at index [i] moves to the front. *)
Definition promote {A} (i : nat) (l : list A) : list A :=
  match l !! i with
  | Some x => x :: delete i l
  | None => l
  end.

Definition randomize_first_proportionally (s : Search) : option Search :=
  kids ← children_of m_root s;
  let index := pick_index random_pick (m_visits <$> kids.*2) 0 0 in
  Some (set_nodes
          (alter (node_set_children (promote index kids.*1)) m_root) s).

(** Modelled from the spec: [UCTNode::dirichlet_noise], "replaces each
    child prior p with (1-eps)*p + eps*eta". *)
Definition dirichlet_noise (epsilon : Q) (s : Search) : Search :=
  match nodes s !! m_root with
  | Some root =>
      set_nodes
        (λ store,
           foldr (λ ic st,
                    alter (λ n, node_set_score
                                  ((1 - epsilon) * m_score n
                                   + epsilon * dirichlet_sample ic.1)%Q n)
                          ic.2 st)
                 store (imap pair (m_children root))) s
  | None => s
  end.

(** Modelled from the spec: [UCTNode::get_first_child], the head of the
    "ordered sequence of child nodes", a null pointer when there is
    none. *)
Definition get_first_child (node : ptr) (s : Search) : option ptr :=
  n ← nodes s !! node; head (m_children n).

(** Modelled from the spec: [UCTNode::first_visit], "the first root child
    has zero visits". *)
Definition first_visit (n : UCTNode) : bool := (m_visits n =? 0)%Z.

(** Lines 144-154: "make sure best is first", then the optional
    randomization of the early game. *)
Definition best_first (rootstate : Position) (s : Search) : option Search :=
  let color := side_to_move rootstate in
  s ← sort_root_children color s;
  let movenum := game_ply rootstate in
  if (movenum <? cfg_random_cnt)%Z then randomize_first_proportionally s
  else Some s.

(** The resignation test of lines 169-171. *)
Definition should_resign (rootstate : Position) (bestscore : Q)
           (visits : Z) : bool :=
  Qlt_bool bestscore (inject_Z cfg_resignpct / 100)
  && (500 <? visits)%Z
  && (cfg_min_resign_moves <? game_ply rootstate)%Z.

(** [UCTSearch::get_best_move], lines 143-176. *)
Definition get_best_move (rootstate : Position) (s : Search)
  : option (Search * Move) :=
  let color := side_to_move rootstate in
  s ← best_first rootstate s;
  first ← get_first_child m_root s;
  first_node ← nodes s !! first;
  let bestmove := m_move first_node in
  if first_visit first_node then Some (s, bestmove)
  else
    let bestscore := get_eval color first_node in
    root ← nodes s !! m_root;
    let visits := m_visits root in
    if should_resign rootstate bestscore visits
    then Some (s, MOVE_NONE)
    else Some (s, bestmove).

(** [UCTSearch::dump_stats], lines 101-141, as far as it changes the
    tree: it sorts the root children; the rest is output. *)
Definition dump_stats (rootstate : Position) (s : Search) : option Search :=
  if cfg_quiet || negb (has_children m_root s) then Some s
  else sort_root_children (side_to_move rootstate) s.

(** [UCTSearch::think], lines 233-305, under a schedule of the threads.
    [think_search] is the function up to the return of [tg.wait_all()]:
    the two assertions, the expansion of the root, the noise, and the
    loops of all threads.  [None] is a failed assertion or a null
    dereference. *)
Definition think_search (sched : list Action) (rootstate : Position)
           (s : Search) : option World :=
  if negb ((m_playouts s =? 0)%Z && (m_nodes s =? 0)%Z) then None
  else
    let '(s, _) := create_children m_root rootstate s in
    let s := if cfg_noise then dirichlet_noise (1 / 4) s else s in
    run Think rootstate sched (start_search s).

(** The rest of [think]; it is reached when every thread has left its
    loop ([None] also stands for a schedule that ends before that). *)
Definition think (sched : list Action) (rootstate : Position) (s : Search)
  : option (Search * Move) :=
  w ← think_search sched rootstate s;
  if joined w then
    let s := search w in
    if negb (has_children m_root s) then Some (s, MOVE_NONE)
    else
      s ← dump_stats rootstate s;
      get_best_move rootstate s
  else None.

(** [UCTSearch::ponder], lines 307-333, in the same two parts. *)
Definition ponder_search (sched : list Action) (rootstate : Position)
           (s : Search) : option World :=
  if negb ((m_playouts s =? 0)%Z && (m_nodes s =? 0)%Z) then None
  else run Ponder rootstate sched (start_search s).

Definition ponder (sched : list Action) (rootstate : Position) (s : Search)
  : option Search :=
  w ← ponder_search sched rootstate s;
  if joined w then dump_stats rootstate (search w) else None.

(** ** Notions used in the statements *)

(** One iteration of any of the three loops is the shared body followed
    by the loop condition. *)
Definition iteration (mode : Mode) (rootstate : Position) (t : Thread)
           (pending : bool) (s : Search)
  : option (Search * SearchResult * bool) :=
  match t, mode with
  | MainThread, Think => think_iteration rootstate s
  | MainThread, Ponder => ponder_iteration rootstate pending s
  | WorkerThread _, _ => worker_iteration rootstate s
  end.

(** The thread has not left its do-while loop. *)
Definition in_loop (t : Thread) (w : World) : bool :=
  match t with
  | MainThread => main_in_loop w
  | WorkerThread i => bool_decide (workers_in_loop w !! i = Some true)
  end.

(** The thread exists: the caller, or a task of the thread group. *)
Definition spawned (t : Thread) (w : World) : bool :=
  match t with
  | MainThread => true
  | WorkerThread i => bool_decide (i < length (workers_in_loop w))
  end.

(** The number of descents of a history that returned a valid result. *)
Fixpoint count_valid (ds : list (Thread * SearchResult)) : nat :=
  match ds with
  | [] => 0
  | d :: ds' => (if valid d.2 then 1 else 0) + count_valid ds'
  end.

(** No descent is in flight through any node. *)
Definition no_virtual_loss (s : Search) : bool :=
  forallb (λ z, (z =? 0)%Z) (losses s).

End Descent.

(** ** The calls of a descent *)

Definition entry_calls (h : Key) (n : ptr) : list Event :=
  [CallSync h n; CallVirtualLoss n].

Definition exit_calls (h : Key) (n : ptr) (r : SearchResult) : list Event :=
  match r with
  | Evaluation e => [CallUpdate n e]
  | Invalid => []
  end ++ [CallVirtualLossUndo n; CallTTUpdate h n].

(** The calls made by one activation of [play_simulation] on node [n] for
    a position of hash [h] that returns [r], one rule per path through
    the function. *)
Inductive descent_calls : Key → ptr → SearchResult → list Event → Prop :=
| calls_terminal h n e :
    descent_calls h n (Evaluation e)
      (entry_calls h n ++ exit_calls h n (Evaluation e))
| calls_expanded h n e :
    descent_calls h n (Evaluation e)
      (entry_calls h n ++ [CallCreateChildren n true]
       ++ exit_calls h n (Evaluation e))
| calls_failed h n :
    descent_calls h n Invalid
      (entry_calls h n ++ [CallCreateChildren n false]
       ++ exit_calls h n Invalid)
| calls_in_place h n e :
    descent_calls h n (Evaluation e)
      (entry_calls h n ++ [CallEvalState n] ++ exit_calls h n (Evaluation e))
| calls_child h n m h' n' r inner :
    descent_calls h' n' r inner →
    descent_calls h n r
      (entry_calls h n ++ [CallDoMove m] ++ inner ++ [CallUndoMove m]
       ++ exit_calls h n r).

Fixpoint count_calls (f : Event → bool) (tr : list Event) : nat :=
  match tr with
  | [] => 0
  | ev :: tr' => (if f ev then 1 else 0) + count_calls f tr'
  end.

Definition is_virtual_loss (n : ptr) (ev : Event) : bool :=
  match ev with
  | CallVirtualLoss m => bool_decide (m = n)
  | _ => false
  end.

Definition is_virtual_loss_undo (n : ptr) (ev : Event) : bool :=
  match ev with
  | CallVirtualLossUndo m => bool_decide (m = n)
  | _ => false
  end.

Definition is_update (ev : Event) : bool :=
  match ev with
  | CallUpdate _ _ => true
  | _ => false
  end.

Definition is_create_children (ev : Event) : bool :=
  match ev with
  | CallCreateChildren _ _ => true
  | _ => false
  end.

(** The calls of a thread that has completed some descents, one after the
    other.  Like [descent_calls] this does not mention the search state:
    it is what a thread calls whatever other threads do to the tree
    meanwhile. *)
Inductive thread_calls : list Event → Prop :=
| thread_idle : thread_calls []
| thread_descent h n r tr rest :
    descent_calls h n r tr → thread_calls rest →
    thread_calls (tr ++ rest).

(** [interleaving threads merged]: [merged] is an interleaving of the
    calls of the threads, each thread's calls in their own order. *)
Inductive interleaving : list (list Event) → list Event → Prop :=
| interleaving_done threads :
    Forall (λ tr, tr = []) threads → interleaving threads []
| interleaving_next threads i ev rest merged :
    threads !! i = Some (ev :: rest) →
    interleaving (<[i := rest]> threads) merged →
    interleaving threads (ev :: merged).

(** The virtual-loss counter of every node after a sequence of calls:
    [virtual_loss] adds one, [virtual_loss_undo] takes one away, and no
    other call writes the counter.  A node not yet created counts 0. *)
Fixpoint counters_after (tr : list Event) (counter : ptr → Z) : ptr → Z :=
  match tr with
  | [] => counter
  | CallVirtualLoss m :: tr' =>
      counters_after tr'
        (λ n, if decide (n = m) then (counter n + 1)%Z else counter n)
  | CallVirtualLossUndo m :: tr' =>
      counters_after tr'
        (λ n, if decide (n = m) then (counter n - 1)%Z else counter n)
  | _ :: tr' => counters_after tr' counter
  end.

(** The calls of all threads that satisfy [f]. *)
Fixpoint count_in_threads (f : Event → bool) (threads : list (list Event))
  : nat :=
  match threads with
  | [] => 0
  | tr :: threads' => count_calls f tr + count_in_threads f threads'
  end.

(** The structure of the tree: everything of a node but its statistics. *)
Definition shape (s : Search) : list (Move * Q * list ptr * bool) :=
  (λ n, (m_move n, m_score n, m_children n, m_expanded n)) <$> nodes s.

(** The statistics a backup changes. *)
Definition stats (n : UCTNode) : Z * Q := (m_visits n, m_evals n).

(** Every node of [s'] carries statistics that some node of [s] carried:
    statistics were at most copied between nodes, none was updated. *)
Definition stats_from (s s' : Search) : Prop :=
  ∀ i n', nodes s' !! i = Some n' →
          ∃ j n, nodes s !! j = Some n ∧ stats n' = stats n.

(** ** Well-formed stores *)

(** Children point forward and into the store: the links of the node at
    index [i] are above [i] and below the size of the store. *)
Fixpoint links_ok (size i : nat) (links : list (list ptr)) : bool :=
  match links with
  | [] => true
  | kids :: rest =>
      forallb (λ c, (i <? c) && (c <? size)) kids
      && links_ok size (S i) rest
  end.

Definition well_formed (store : list UCTNode) : bool :=
  links_ok (length store) 0 (m_children <$> store).

(** Line 250 reads a stored evaluation for the side to move: as it is for
    White, mirrored for Black. *)
Definition for_side (c : Color) (e : Q) : Q :=
  match c with
  | WHITE => e
  | BLACK => (1 - e)%Q
  end.

(** The moves done and undone by a sequence of calls nest like brackets:
    every [undo_move] takes back the latest move not yet taken back. *)
Fixpoint moves_nest (pending : list Z) (tr : list Event) : bool :=
  match tr with
  | [] => bool_decide (pending = [])
  | CallDoMove m :: tr' => moves_nest (m :: pending) tr'
  | CallUndoMove m :: tr' =>
      match pending with
      | m' :: rest => (m =? m')%Z && moves_nest rest tr'
      | [] => false
      end
  | _ :: tr' => moves_nest pending tr'
  end.

(** ** A small game for the examples *)

(** Positions are the moves played, latest first.  White moves first.
    After move 1 Black is checkmated; after move 2 Black has the single
    reply 3, which checkmates White.  The hash of a position is the number
    of moves played. *)
Definition toy_legal_moves (p : list Z) : list Z :=
  match p with
  | [] => [1; 2]%Z
  | [2%Z] => [3%Z]
  | _ => []
  end.

Definition toy_checkers (p : list Z) : Z :=
  match p with
  | [1%Z] => 1%Z
  | [3%Z; 2%Z] => 1%Z
  | _ => 0%Z
  end.

Definition toy_rules : RulesEngine (list Z) :=
  {| side_to_move p := if Nat.even (length p) then WHITE else BLACK;
     key p := Z.of_nat (length p);
     is_draw p := false;
     legal_moves := toy_legal_moves;
     checkers := toy_checkers;
     do_move m p := m :: p;
     undo_move m p := tail p;
     game_ply p := Z.of_nat (length p) |}.

(** The mean evaluation of a node for a side; an unvisited node counts as
    0 (the "0 if configured" first-play value of the spec). *)
Definition toy_get_eval (c : Color) (n : UCTNode) : Q :=
  if (m_visits n =? 0)%Z then 0%Q
  else for_side c (m_evals n / inject_Z (m_visits n))%Q.

(** A network that values every position 1/4 and prefers move 2. *)
Definition toy_network : Evaluator (list Z) :=
  {| nn_forward p := Some (1 # 4, λ m, if (m =? 2)%Z then 3 # 4 else 1 # 4);
     nn_value p := 1 # 3;
     uct_value c parent child := m_score child;
     get_eval := toy_get_eval |}.

(** The same with the evaluator unavailable. *)
Definition toy_no_network : Evaluator (list Z) :=
  {| nn_forward p := None;
     nn_value p := 1 # 3;
     uct_value c parent child := m_score child;
     get_eval := toy_get_eval |}.

Definition toy_parameters : Parameters :=
  {| MAX_TREE_SIZE := 100; cfg_num_threads := 2; cfg_noise := false;
     cfg_quiet := true; cfg_random_cnt := 0; cfg_resignpct := 10;
     cfg_min_resign_moves := 0 |}.

(** The same with the tree-size bound already reached by an empty tree. *)
Definition toy_full_tree : Parameters :=
  {| MAX_TREE_SIZE := 0; cfg_num_threads := 2; cfg_noise := false;
     cfg_quiet := true; cfg_random_cnt := 0; cfg_resignpct := 10;
     cfg_min_resign_moves := 0 |}.

Definition toy_randomness : Randomness :=
  {| dirichlet_sample i := 0%Q; random_pick := 0%Z |}.

(** A search that has not started: the root alone. *)
Definition toy_fresh : Search :=
  {| nodes := [new_node MOVE_NONE 0];
     tt := ∅; m_nodes := 0; m_playouts := 0; m_run := false;
     m_maxplayouts := 3; calls := [] |}.

(** The root expanded and visited once, its two children unvisited. *)
Definition toy_expanded : Search :=
  {| nodes := [ {| m_move := MOVE_NONE; m_score := 0; m_children := [1; 2];
                   m_expanded := true; m_visits := 1; m_evals := 1 # 4;
                   m_virtual_loss := 0 |};
                new_node 1 (1 # 4);
                new_node 2 (3 # 4) ];
     tt := {[ 0%Z := 0 ]}; m_nodes := 2; m_playouts := 1; m_run := true;
     m_maxplayouts := 3; calls := [] |}.

(** The same tree where the child of move 1 has five visits and the hash
    of the position after one move is registered to it. *)
Definition toy_transposed : Search :=
  {| nodes := [ {| m_move := MOVE_NONE; m_score := 0; m_children := [1; 2];
                   m_expanded := true; m_visits := 6; m_evals := 5;
                   m_virtual_loss := 0 |};
                {| m_move := 1; m_score := 1 # 4; m_children := [];
                   m_expanded := false; m_visits := 5; m_evals := 5;
                   m_virtual_loss := 0 |};
                new_node 2 (3 # 4) ];
     tt := {[ 1%Z := 1 ]}; m_nodes := 2; m_playouts := 6; m_run := true;
     m_maxplayouts := 100; calls := [] |}.

(** A root with six hundred visits whose only child is unvisited. *)
Definition toy_unvisited : Search :=
  {| nodes := [ {| m_move := MOVE_NONE; m_score := 0; m_children := [1];
                   m_expanded := true; m_visits := 600; m_evals := 30;
                   m_virtual_loss := 0 |};
                new_node 7 1 ];
     tt := ∅; m_nodes := 1; m_playouts := 600; m_run := false;
     m_maxplayouts := 600; calls := [] |}.

(** A root with six hundred visits whose only child has them all, with a
    mean evaluation of 1/20. *)
Definition toy_losing_root : UCTNode :=
  {| m_move := MOVE_NONE; m_score := 0; m_children := [1];
     m_expanded := true; m_visits := 600; m_evals := 30;
     m_virtual_loss := 0 |}.

Definition toy_losing_child : UCTNode :=
  {| m_move := 7; m_score := 1; m_children := [];
     m_expanded := false; m_visits := 600; m_evals := 30;
     m_virtual_loss := 0 |}.

Definition toy_losing : Search :=
  {| nodes := [toy_losing_root; toy_losing_child];
     tt := ∅; m_nodes := 1; m_playouts := 600; m_run := false;
     m_maxplayouts := 600; calls := [] |}.

(** A search whose run flag is off and whose budget is spent, with the
    caller and one worker still to enter their loops. *)
Definition toy_stopped : World :=
  {| search := toy_losing; main_in_loop := true; workers_in_loop := [true];
     input_pending := true; descents := [] |}.

(** A schedule of the caller and one worker under which both spend the
    budget of three playouts and leave their loops. *)
Definition toy_schedule : list Action :=
  [Turn MainThread; Turn (WorkerThread 0); Turn MainThread;
   Turn MainThread; Turn (WorkerThread 0)].

(** The calls of two threads that each make one descent into the child
    of move 1, where Black is checkmated, and one way they can interleave
    call by call. *)
Definition toy_thread_calls : list Event :=
  entry_calls 0 0 ++ [CallDoMove 1]
  ++ (entry_calls 1 1 ++ exit_calls 1 1 (Evaluation 1))
  ++ [CallUndoMove 1] ++ exit_calls 0 0 (Evaluation 1).

Definition toy_interleaved_calls : list Event :=
  [CallSync 0 0; CallSync 0 0; CallVirtualLoss 0; CallDoMove 1;
   CallVirtualLoss 0; CallSync 1 1; CallDoMove 1; CallSync 1 1;
   CallVirtualLoss 1; CallVirtualLoss 1; CallUpdate 1 1;
   CallVirtualLossUndo 1; CallUpdate 1 1; CallTTUpdate 1 1;
   CallUndoMove 1; CallVirtualLossUndo 1; CallUpdate 0 1;
   CallTTUpdate 1 1; CallUndoMove 1; CallVirtualLossUndo 0;
   CallUpdate 0 1; CallTTUpdate 0 0; CallVirtualLossUndo 0;
   CallTTUpdate 0 0].

(** ** Reporting: the principal variation and the statistics *)

(** [UCI::move] (UCI.h): the text of a move. *)
Class Protocol := {
  UCI_move : Move → string
}.

(** The type of the member [m_maxplayouts], declared in UCTSearch.h:
    [std::numeric_limits<decltype(m_maxplayouts)>::max()] and the
    conversion of an [int] to that type. *)
Class PlayoutType := {
  maxplayouts_max : Z;
  maxplayouts_of_int : Z → Z
}.

Definition set_m_maxplayouts (n : Z) (s : Search) : Search :=
  {| nodes := nodes s; tt := tt s; m_nodes := m_nodes s;
     m_playouts := m_playouts s; m_run := m_run s;
     m_maxplayouts := n; calls := calls s |}.

(** One row of the summary printed by [dump_stats]: the arguments of the
    two [myprintf] calls of lines 126-137. *)
Record StatsLine := mkStatsLine {
  line_move : string;
  line_visits : Z;
  line_value : Q;
  line_prior : Q;
  line_pv : string
}.

Section Reporting.
Context {Position : Type} `{!RulesEngine Position} `{!Evaluator Position}
        `{!Parameters} `{!Randomness} `{!Protocol} `{!PlayoutType}.

(** [UCTSearch::set_playout_limit], lines 335-342. *)
Definition set_playout_limit (playouts : Z) (s : Search) : Search :=
  if (playouts =? 0)%Z then set_m_maxplayouts maxplayouts_max s
  else set_m_maxplayouts (maxplayouts_of_int playouts) s.

(** The constructor [UCTSearch::UCTSearch], lines 49-53, on the members as
    their initializers leave them. *)
Definition UCTSearch (cfg_max_playouts : Z) (members : Search) : Search :=
  set_playout_limit cfg_max_playouts members.

(** Modelled from the spec: [UCTNode::get_best_root_child], "the best
    root-style child of the current node (visits desc, Q desc)": the
    child that the order of [sort_root_children] puts first.  A node
    without children has none. *)
Definition get_best_root_child (color : Color) (node : ptr) (s : Search)
  : option ptr :=
  kids ← children_of node s;
  fst <$> head (sort_nodes color kids).

(** [UCTSearch::get_pv], lines 178-196.  The recursion follows child
    pointers and is bounded by [fuel] like a descent. *)
Fixpoint get_pv (fuel : nat) (s : Search) (state : Position) (parent : ptr)
  : option (Position * string) :=
  match fuel with
  | O => None
  | S fuel' =>
      _ ← nodes s !! parent;
      if negb (has_children parent s) then Some (state, "")
      else
        best_child ← get_best_root_child (side_to_move state) parent s;
        best_move ← get_move best_child s;
        let res := UCI_move best_move in
        let state := do_move best_move state in
        '(state, next) ← get_pv fuel' s state best_child;
        let res :=
          if negb (bool_decide (next = "")) then res +:+ " " +:+ next
          else res in
        let state := undo_move best_move state in
        Some (state, res)
  end.

(** The loop of [dump_stats], lines 117-140, over the first child of the
    parent and its siblings ([get_sibling] is the next child in order). *)
Fixpoint dump_stats_loop (color : Color) (s : Search) (movecount : Z)
         (state : Position) (siblings : list ptr)
  : option (Position * list StatsLine) :=
  match siblings with
  | [] => Some (state, [])
  | node :: rest =>
      n ← nodes s !! node;
      let movecount := (movecount + 1)%Z in
      if (2 <? movecount)%Z && (m_visits n =? 0)%Z then Some (state, [])
      else
        let tmp := UCI_move (m_move n) in
        let pvstring := tmp in
        let value :=
          if (0 <? m_visits n)%Z then (get_eval color n * 100)%Q else 0%Q in
        let prior := (m_score n * 100)%Q in
        let state := do_move (m_move n) state in
        '(state, pv) ← get_pv (depth_bound s) s state node;
        let pvstring := pvstring +:+ " " +:+ pv in
        let state := undo_move (m_move n) state in
        '(state, lines) ← dump_stats_loop color s movecount state rest;
        Some (state,
              {| line_move := tmp; line_visits := m_visits n;
                 line_value := value; line_prior := prior;
                 line_pv := pvstring |} :: lines)
  end.

(** [UCTSearch::dump_stats], lines 101-141, with what it prints: the tree
    after the sort of the root children, the position as the loop leaves
    it, and the rows. *)
Definition dump_stats_lines (state : Position) (parent : ptr) (s : Search)
  : option (Search * Position * list StatsLine) :=
  _ ← nodes s !! parent;
  if cfg_quiet || negb (has_children parent s) then Some (s, state, [])
  else
    let color := side_to_move state in
    s ← sort_root_children color s;
    bestnode ← get_first_child parent s;
    best ← nodes s !! bestnode;
    if first_visit best then Some (s, state, [])
    else
      p ← nodes s !! parent;
      '(state, lines) ← dump_stats_loop color s 0 state (m_children p);
      Some (s, state, lines).

(** [UCTSearch::dump_analysis], lines 198-209: nothing when quiet,
    otherwise the arguments of the [myprintf]: the playouts, the win rate
    in percent and the principal variation. *)
Definition dump_analysis (rootstate : Position) (playouts : Z) (s : Search)
  : option (Position * option (Z * Q * string)) :=
  if cfg_quiet then Some (rootstate, None)
  else
    let color := side_to_move rootstate in
    '(state, pvstring) ← get_pv (depth_bound s) s rootstate m_root;
    root ← nodes s !! m_root;
    let winrate := (100 * get_eval color root)%Q in
    Some (state, Some (playouts, winrate, pvstring)).

(** [a] is no better than [b] in the order of [sort_root_children]: it has
    no more visits and, with as many visits, no higher evaluation. *)
Definition no_better (color : Color) (a b : UCTNode)
  : Prop :=
  (m_visits a ≤ m_visits b)%Z ∧
  (m_visits a = m_visits b → (get_eval color a <= get_eval color b)%Q).

(** Every child of the root carries a move that is legal in the root
    position, and points into the store. *)
Definition root_moves_legal (rootstate : Position) (s : Search) : Prop :=
  ∀ root c, nodes s !! m_root = Some root → c ∈ m_children root →
            ∃ n, nodes s !! c = Some n ∧ m_move n ∈ legal_moves rootstate.

(** [best_line s state parent line]: [line] is the moves met from
    [parent] by stepping to the best child until a node without children
    is reached, the position following the moves. *)
Inductive best_line (s : Search) : Position → ptr → list Z → Prop :=
| best_line_end state parent :
    is_Some (nodes s !! parent) →
    has_children parent s = false →
    best_line s state parent []
| best_line_step state parent child move rest :
    has_children parent s = true →
    get_best_root_child (side_to_move state) parent s = Some child →
    get_move child s = Some move →
    best_line s (do_move move state) child rest →
    best_line s state parent (move :: rest).

(** [positioned place s]: [place] gives every node a position such that
    the children of a node carry legal moves of the node's position and
    stand for the positions these moves lead to. *)
Definition positioned (place : ptr → Position) (s : Search) : Prop :=
  ∀ i n c nc,
    nodes s !! i = Some n → c ∈ m_children n → nodes s !! c = Some nc →
    m_move nc ∈ legal_moves (place i) ∧
    place c = do_move (m_move nc) (place i).

(** Every [do_move] of a sequence of calls is given a move that is legal
    in the position it is applied to.  [cur] is the position of the
    activation that makes the next call and [below] the positions of the
    activations that wait for it. *)
Fixpoint moves_legal (cur : Position) (below : list Position)
         (tr : list Event) : bool :=
  match tr with
  | [] => true
  | CallDoMove m :: tr' =>
      bool_decide (m ∈ legal_moves cur)
      && moves_legal (do_move m cur) (cur :: below) tr'
  | CallUndoMove m :: tr' =>
      match below with
      | p :: below' => moves_legal p below' tr'
      | [] => false
      end
  | _ :: tr' => moves_legal cur below tr'
  end.

(** The legal play of a search: the store is well formed, its nodes have
    positions with [rootstate] at the root, and the calls made since [s0]
    give [do_move] legal moves only. *)
Definition legal_play (rootstate : Position) (s0 x : Search) : Prop :=
  well_formed (nodes x) = true ∧
  ∃ (pl : nat → Position) tr,
    positioned pl x ∧ pl m_root = rootstate ∧
    calls x = calls s0 ++ tr ∧
    ∀ rest, moves_legal rootstate [] (tr ++ rest)
            = moves_legal rootstate [] rest.

End Reporting.

(** ** Notions used in the further statements *)

(** The number of threads that have not left their loop. *)
Definition threads_in_loop (w : World) : nat :=
  (if main_in_loop w then 1 else 0)
  + sum_list_with (λ b : bool, if b then 1 else 0) (workers_in_loop w).

(** The action clears the run flag from outside. *)
Definition is_external_stop (a : Action) : bool :=
  match a with ExternalStop => true | _ => false end.

(** The action makes input pending. *)
Definition is_input (a : Action) : bool :=
  match a with InputArrives => true | _ => false end.

(** A call on the evaluator: the expansion of a leaf or its evaluation in
    place. *)
Definition is_evaluation (ev : Event) : bool :=
  match ev with
  | CallCreateChildren _ _ | CallEvalState _ => true
  | _ => false
  end.

(** A call of [create_children] that reported no success. *)
Definition is_failed_expansion (ev : Event) : bool :=
  match ev with
  | CallCreateChildren _ false => true
  | _ => false
  end.

(** The move and the prior of every node, in store order. *)
Definition labels (s : Search) : list (Z * Q) :=
  (λ n, (m_move n, m_score n)) <$> nodes s.

(** [grows s s']: the store of [s'] extends that of [s]; the nodes of [s]
    keep their move and their prior, and those that have children keep
    their children. *)
Definition grows (s s' : Search) : Prop :=
  (∃ new, labels s' = labels s ++ new) ∧
  (∀ i n, nodes s !! i = Some n → m_children n ≠ [] →
          m_children <$> nodes s' !! i = Some (m_children n)).

(** [reordered s s']: [s'] is [s] with the children of the root in another
    order; nothing else differs. *)
Definition reordered (s s' : Search) : Prop :=
  ∃ root kids,
    nodes s !! m_root = Some root ∧ kids ≡ₚ m_children root ∧
    s' = set_nodes (alter (node_set_children kids) m_root) s.

(** The statistics of a node are consistent: it has no negative visit
    count, and the sum of the evaluations backed up lies between 0 and
    the visit count. *)
Definition stats_in_range (n : UCTNode) : Prop :=
  (0 ≤ m_visits n)%Z ∧ (0 <= m_evals n)%Q ∧
  (m_evals n <= inject_Z (m_visits n))%Q.

(** The evaluation of a valid result is a probability. *)
Definition result_in_range (r : SearchResult) : Prop :=
  match r with
  | Evaluation e => (0 <= e)%Q ∧ (e <= 1)%Q
  | Invalid => True
  end.

(** ** More of the small game *)

(** The texts of the moves of the small game. *)
Definition toy_protocol : Protocol :=
  {| UCI_move m :=
       if (m =? 1)%Z then "e2e4"
       else if (m =? 2)%Z then "d2d4"
       else if (m =? 3)%Z then "d7d5"
       else "0000" |}.

(** A 32-bit [int] for the playout limit. *)
Definition toy_playout_type : PlayoutType :=
  {| maxplayouts_max := 2147483647; maxplayouts_of_int n := n |}.

(** The parameters of the small game with a single thread, and with the
    output switched on. *)
Definition toy_single : Parameters :=
  {| MAX_TREE_SIZE := 100; cfg_num_threads := 1; cfg_noise := false;
     cfg_quiet := true; cfg_random_cnt := 0; cfg_resignpct := 10;
     cfg_min_resign_moves := 0 |}.

Definition toy_verbose : Parameters :=
  {| MAX_TREE_SIZE := 100; cfg_num_threads := 2; cfg_noise := false;
     cfg_quiet := false; cfg_random_cnt := 0; cfg_resignpct := 10;
     cfg_min_resign_moves := 0 |}.

(** A tree after three playouts: the root has the children of moves 1
    and 2, with one and two visits, and a third child that was never
    visited; the child of move 2 has the child of move 3. *)
Definition toy_deep : Search :=
  {| nodes := [ {| m_move := MOVE_NONE; m_score := 0;
                   m_children := [1; 2; 4];
                   m_expanded := true; m_visits := 3; m_evals := 1;
                   m_virtual_loss := 0 |};
                {| m_move := 1; m_score := 1 # 4; m_children := [];
                   m_expanded := false; m_visits := 1; m_evals := 1;
                   m_virtual_loss := 0 |};
                {| m_move := 2; m_score := 1 # 2; m_children := [3];
                   m_expanded := true; m_visits := 2; m_evals := 0;
                   m_virtual_loss := 0 |};
                {| m_move := 3; m_score := 1; m_children := [];
                   m_expanded := false; m_visits := 1; m_evals := 0;
                   m_virtual_loss := 0 |};
                new_node 4 (1 # 4) ];
     tt := ∅; m_nodes := 4; m_playouts := 3; m_run := false;
     m_maxplayouts := 3; calls := [] |}.

(** The positions of the nodes of [toy_expanded]: the start position at
    the root and the positions after moves 1 and 2 at its children. *)
Definition toy_positions (i : ptr) : list Z :=
  match i with
  | 1 => [1%Z]
  | 2 => [2%Z]
  | _ => []
  end.

(** A schedule of the caller alone, four turns. *)
Definition toy_caller_schedule : list Action :=
  [Turn MainThread; Turn MainThread; Turn MainThread; Turn MainThread].

(** A schedule of [ponder] in which input arrives, the caller takes a
    turn and the worker takes one. *)
Definition toy_ponder_schedule : list Action :=
  [InputArrives; Turn MainThread; Turn (WorkerThread 0)].

(** ** Facts about the calls of a descent *)

Section Calls.

Lemma count_calls_app f tr1 tr2 :
  count_calls f (tr1 ++ tr2) = count_calls f tr1 + count_calls f tr2.
Proof. induction tr1 as [|ev tr1 IH]; simpl; [done|]. rewrite IH. lia. Qed.

Lemma count_calls_zero f tr :
  count_calls f tr = 0 ↔ ∀ ev, ev ∈ tr → f ev = false.
Proof.
  induction tr as [|ev tr IH]; simpl.
  - split; [|done]. intros _ ev Hin. by apply elem_of_nil in Hin.
  - split.
    + intros Hz ev' [Heq|Hin]%elem_of_cons.
      * subst ev'. destruct (f ev); [lia|done].
      * apply IH; [|done]. destruct (f ev); lia.
    + intros Hall. rewrite (Hall ev) by apply list_elem_of_here.
      simpl. apply IH. intros ev' Hin. apply Hall.
      by apply list_elem_of_further.
Qed.

Lemma count_exit_loss_undo h n r m :
  count_calls (is_virtual_loss_undo m) (exit_calls h n r)
  = count_calls (is_virtual_loss m) (entry_calls h n).
Proof. by destruct r. Qed.

Lemma count_entry_loss_undo h n m :
  count_calls (is_virtual_loss_undo m) (entry_calls h n) = 0.
Proof. done. Qed.

Lemma count_exit_loss h n r m :
  count_calls (is_virtual_loss m) (exit_calls h n r) = 0.
Proof. by destruct r. Qed.

(** Every virtual loss of a descent is undone within the descent. *)
Lemma descent_calls_balanced h n r tr m :
  descent_calls h n r tr →
  count_calls (is_virtual_loss m) tr
  = count_calls (is_virtual_loss_undo m) tr.
Proof.
  induction 1 as [h n e|h n e|h n|h n e|h n mv h' n' r inner Hin IH];
    rewrite ?count_calls_app, ?count_exit_loss, ?count_entry_loss_undo,
      ?count_exit_loss_undo; simpl; lia.
Qed.

(** The calls of a descent on [n] open with the entry calls on [n] and
    close with the exit calls on [n]; what lies between is balanced. *)
Lemma descent_calls_bracket h n r tr :
  descent_calls h n r tr →
  ∃ mid, tr = entry_calls h n ++ mid ++ exit_calls h n r ∧
         ∀ m, count_calls (is_virtual_loss m) mid
              = count_calls (is_virtual_loss_undo m) mid.
Proof.
  intros Hd. destruct Hd as [h n e|h n e|h n|h n e|h n mv h' n' r inner Hin].
  - exists []. done.
  - exists [CallCreateChildren n true]. done.
  - exists [CallCreateChildren n false]. done.
  - exists [CallEvalState n]. done.
  - exists ([CallDoMove mv] ++ inner ++ [CallUndoMove mv]).
    split; [by rewrite <- !app_assoc|].
    intros m. rewrite !count_calls_app. simpl.
    rewrite (descent_calls_balanced _ _ _ _ m Hin). lia.
Qed.

(** Every update of a descent passes the evaluation the descent returns. *)
Lemma descent_calls_updates h n r tr node e :
  descent_calls h n r tr → CallUpdate node e ∈ tr → r = Evaluation e.
Proof.
  induction 1 as [h n e'|h n e'|h n|h n e'|h n mv h' n' r inner Hin IH];
    unfold entry_calls, exit_calls; try destruct r;
    rewrite ?elem_of_app, ?elem_of_cons, ?elem_of_nil;
    intuition congruence.
Qed.

(** The node of a descent is updated with it when the result is valid. *)
Lemma descent_calls_update_self h n e tr :
  descent_calls h n (Evaluation e) tr → CallUpdate n e ∈ tr.
Proof.
  inversion 1; subst; unfold entry_calls, exit_calls;
    rewrite ?elem_of_app, ?elem_of_cons; naive_solver.
Qed.

Lemma loss_in_entry h n m : CallVirtualLoss m ∈ entry_calls h n ↔ m = n.
Proof.
  unfold entry_calls. rewrite !elem_of_cons, elem_of_nil.
  intuition congruence.
Qed.

Lemma loss_in_exit h n r m : CallVirtualLoss m ∈ exit_calls h n r ↔ False.
Proof.
  unfold exit_calls. destruct r;
    rewrite ?elem_of_app, !elem_of_cons, elem_of_nil; intuition congruence.
Qed.

Lemma undo_in_exit h n r : CallVirtualLossUndo n ∈ exit_calls h n r.
Proof.
  unfold exit_calls. apply elem_of_app. right. apply list_elem_of_here.
Qed.

Lemma tt_update_in_exit h n r : CallTTUpdate h n ∈ exit_calls h n r.
Proof.
  unfold exit_calls. apply elem_of_app. right.
  apply list_elem_of_further, list_elem_of_here.
Qed.

(** Every node entered is left: its virtual loss is undone and its
    transposition-table entry refreshed. *)
Lemma descent_calls_left h n r tr m :
  descent_calls h n r tr → CallVirtualLoss m ∈ tr →
  CallVirtualLossUndo m ∈ tr ∧ ∃ k, CallTTUpdate k m ∈ tr.
Proof.
  induction 1 as [h n e'|h n e'|h n|h n e'|h n mv h' n' r inner Hin IH];
    intros Hm;
    rewrite ?elem_of_app, loss_in_entry, loss_in_exit,
      ?list_elem_of_singleton in Hm.
  - destruct Hm as [->|[]]. split; [|exists h]; rewrite elem_of_app; right;
      [apply undo_in_exit|apply tt_update_in_exit].
  - destruct Hm as [->|[?|[]]]; [|done].
    split; [|exists h]; rewrite !elem_of_app; right; right;
      [apply undo_in_exit|apply tt_update_in_exit].
  - destruct Hm as [->|[?|[]]]; [|done].
    split; [|exists h]; rewrite !elem_of_app; right; right;
      [apply undo_in_exit|apply tt_update_in_exit].
  - destruct Hm as [->|[?|[]]]; [|done].
    split; [|exists h]; rewrite !elem_of_app; right; right;
      [apply undo_in_exit|apply tt_update_in_exit].
  - destruct Hm as [->|[?|[Hm|[?|[]]]]]; [|done| |done].
    + split; [|exists h]; rewrite !elem_of_app; do 4 right;
        [apply undo_in_exit|apply tt_update_in_exit].
    + destruct (IH Hm) as [Hu [k Hk]].
      split; [|exists k]; rewrite !elem_of_app; right; right; by left.
Qed.

Lemma thread_calls_balanced tr m :
  thread_calls tr →
  count_calls (is_virtual_loss m) tr
  = count_calls (is_virtual_loss_undo m) tr.
Proof.
  induction 1 as [|h n r tr rest Htr _ IH]; [done|].
  rewrite !count_calls_app, IH.
  by rewrite (descent_calls_balanced _ _ _ _ m Htr).
Qed.

Lemma counters_after_count tr counter n :
  counters_after tr counter n
  = (counter n + Z.of_nat (count_calls (is_virtual_loss n) tr)
     - Z.of_nat (count_calls (is_virtual_loss_undo n) tr))%Z.
Proof.
  revert counter. induction tr as [|ev tr IH]; intros counter; simpl.
  - lia.
  - destruct ev; simpl; rewrite IH; try lia.
    + destruct (decide (n = n0)) as [->|Hne].
      * rewrite bool_decide_eq_true_2 by done. lia.
      * rewrite bool_decide_eq_false_2 by congruence. lia.
    + destruct (decide (n = n0)) as [->|Hne].
      * rewrite bool_decide_eq_true_2 by done. lia.
      * rewrite bool_decide_eq_false_2 by congruence. lia.
Qed.

Lemma count_in_threads_empty f threads :
  Forall (λ tr, tr = []) threads → count_in_threads f threads = 0.
Proof. induction 1 as [|tr threads -> _ IH]; simpl; [done|]. by rewrite IH. Qed.

Lemma count_in_threads_next f threads i ev rest :
  threads !! i = Some (ev :: rest) →
  count_in_threads f threads
  = (if f ev then 1 else 0) + count_in_threads f (<[i := rest]> threads).
Proof.
  revert i. induction threads as [|tr threads IH]; intros [|i] Hi;
    simpl in *; try done.
  - simplify_eq. simpl. lia.
  - rewrite (IH i Hi). lia.
Qed.

Lemma interleaving_count f threads merged :
  interleaving threads merged →
  count_calls f merged = count_in_threads f threads.
Proof.
  induction 1 as [threads Hall|threads i ev rest merged Hi _ IH]; simpl.
  - by rewrite count_in_threads_empty.
  - by rewrite (count_in_threads_next f threads i ev rest Hi), IH.
Qed.

Lemma count_in_threads_balanced threads m :
  Forall thread_calls threads →
  count_in_threads (is_virtual_loss m) threads
  = count_in_threads (is_virtual_loss_undo m) threads.
Proof.
  induction 1 as [|tr threads Htr _ IH]; simpl; [done|].
  by rewrite IH, (thread_calls_balanced tr m Htr).
Qed.

End Calls.

(** ** Unfolding the descent *)

Section DescentFacts.
Context {Position : Type} `{!RulesEngine Position} `{!Evaluator Position}
        `{!Parameters} `{!Randomness}.

Lemma play_simulation_unfold fuel s (pos : Position) node :
  play_simulation (S fuel) s pos node =
  (_ ← nodes s !! node;
   let '(s1, r1) := at_leaf pos node (on_entry pos node s) in
   '(s2, p2, r2) ←
     (if has_children node s1 && negb (valid r1)
      then descend_into_child fuel s1 pos node
      else Some (s1, pos, r1));
   Some (on_exit pos node r2 s2, p2, r2)).
Proof.
  unfold descend_into_child, at_leaf, on_entry, on_exit, terminal,
    terminal_score.
  simpl. destruct (nodes s !! node); simpl; [|done].
  repeat (case_match; simpl in *; simplify_eq; try done).
Qed.

(** *** The leaf phase *)

Lemma create_children_spec node (pos : Position) s s1 o :
  create_children node pos s = (s1, o) →
  tt s1 = tt s ∧ m_playouts s1 = m_playouts s ∧ m_run s1 = m_run s ∧
  m_maxplayouts s1 = m_maxplayouts s ∧
  calls s1 = calls s ++ [CallCreateChildren node (bool_decide (is_Some o))] ∧
  match o with
  | None => nodes s1 = nodes s ∧ m_nodes s1 = m_nodes s
  | Some e =>
      ∃ policy n,
        nn_forward pos = Some (e, policy) ∧
        nodes s !! node = Some n ∧ m_expanded n = false ∧
        nodes s1 =
          alter (node_publish (seq (length (nodes s))
                                   (length (legal_moves pos))))
                node (nodes s)
          ++ map (λ m, new_node m (policy m)) (legal_moves pos) ∧
        m_nodes s1 = (m_nodes s + Z.of_nat (length (legal_moves pos)))%Z
  end.
Proof.
  unfold create_children. intros Hc.
  destruct (nodes s !! node) as [n|] eqn:Hn; [|by simplify_eq].
  destruct (m_expanded n) eqn:He; [by simplify_eq|].
  destruct (nn_forward pos) as [[e policy]|] eqn:Hnn; [|by simplify_eq].
  simplify_eq. simpl. repeat split; try done.
  exists policy, n. rewrite length_map. done.
Qed.

Lemma at_leaf_cases (pos : Position) node s s1 r1 :
  at_leaf pos node s = (s1, r1) →
  (has_children node s = true ∧ s1 = s ∧ r1 = Invalid) ∨
  (has_children node s = false ∧ terminal pos = true ∧ s1 = s ∧
   r1 = from_score (terminal_score pos)) ∨
  (has_children node s = false ∧ terminal pos = false ∧
   (m_nodes s < MAX_TREE_SIZE)%Z ∧
   ∃ o, create_children node pos s = (s1, o) ∧
        r1 = match o with Some e => Evaluation e | None => Invalid end) ∨
  (has_children node s = false ∧ terminal pos = false ∧
   (MAX_TREE_SIZE ≤ m_nodes s)%Z ∧
   s1 = call (CallEvalState node) s ∧ r1 = Evaluation (nn_value pos)).
Proof.
  unfold at_leaf. intros Hl.
  destruct (has_children node s); simpl in Hl.
  { left. by simplify_eq. }
  right. destruct (terminal pos).
  { left. by simplify_eq. }
  right. destruct (Z.ltb_spec (m_nodes s) MAX_TREE_SIZE).
  - left. destruct (create_children node pos s) as [s' o] eqn:Hc.
    repeat split; try done. exists o.
    destruct o; by simplify_eq.
  - right. unfold eval_state in Hl. by simplify_eq.
Qed.

(** *** Selection *)

Lemma select_from_spec value store cs best next :
  select_from value store cs best = Some next →
  (next ∈ cs ∧ is_Some (store !! next)) ∨ (∃ bv, best = Some (next, bv)).
Proof.
  revert best. induction cs as [|c cs IH]; intros best Hs; simpl in Hs.
  - right. destruct best as [[b bv]|]; simplify_eq/=. eauto.
  - destruct (store !! c) as [child|] eqn:Hc; [|done].
    apply IH in Hs as [[Hin Hsome]|[bv Hb]].
    + left. split; [by apply list_elem_of_further|done].
    + destruct best as [[b bv']|].
      * destruct (Qle_bool (value child) bv'); [right; eauto|].
        simplify_eq. left. split; [apply list_elem_of_here|eauto].
      * simplify_eq. left. split; [apply list_elem_of_here|eauto].
Qed.

Lemma uct_select_child_spec color node s next :
  uct_select_child color node s = Some next →
  ∃ parent, nodes s !! node = Some parent ∧ next ∈ m_children parent ∧
            is_Some (nodes s !! next).
Proof.
  unfold uct_select_child. intros Hs.
  destruct (nodes s !! node) as [parent|] eqn:Hp; [|done]. simpl in Hs.
  exists parent. split; [done|].
  apply select_from_spec in Hs as [?|[bv ?]]; [done|done].
Qed.

(** *** The calls of a descent follow [descent_calls] *)

Local Arguments on_entry : simpl never.
Local Arguments on_exit : simpl never.
Local Arguments call : simpl never.
Local Arguments play_simulation : simpl never.

Lemma calls_on_entry (pos : Position) node s :
  calls (on_entry pos node s) = calls s ++ entry_calls (key pos) node.
Proof. unfold on_entry, entry_calls. simpl. by rewrite <- app_assoc. Qed.

Lemma calls_on_exit (pos : Position) node r s :
  calls (on_exit pos node r s) = calls s ++ exit_calls (key pos) node r.
Proof.
  unfold on_exit, exit_calls. destruct r; simpl;
    by rewrite <- ?app_assoc.
Qed.

Lemma calls_call ev s : calls (call ev s) = calls s ++ [ev].
Proof. done. Qed.

Lemma play_simulation_calls fuel s (pos : Position) node s' pos' r :
  play_simulation fuel s pos node = Some (s', pos', r) →
  ∃ tr, calls s' = calls s ++ tr ∧ descent_calls (key pos) node r tr.
Proof.
  revert s pos node s' pos' r.
  induction fuel as [|fuel IH]; intros s pos node s' pos' r Hp; [done|].
  rewrite play_simulation_unfold in Hp.
  destruct (nodes s !! node) as [n0|]; [|done]. simpl in Hp.
  destruct (at_leaf pos node (on_entry pos node s)) as [s1 r1] eqn:Hleaf.
  apply at_leaf_cases in Hleaf
    as [(Hc & -> & ->)|[(Hc & Ht & -> & ->)|
        [(Hc & Ht & Hm & o & Hcc & ->)|(Hc & Ht & Hm & -> & ->)]]].
  - rewrite Hc in Hp. simpl in Hp. unfold descend_into_child in Hp.
    destruct (uct_select_child _ _ _) as [next|]; [|done]. simpl in Hp.
    destruct (get_move next _) as [move|]; [|done]. simpl in Hp.
    destruct (play_simulation fuel _ _ next) as [[[s2 p2] r2]|] eqn:Hrec;
      [|done].
    apply IH in Hrec as (inner & Hcalls & Hinner).
    rewrite calls_call, calls_on_entry in Hcalls.
    exists (entry_calls (key pos) node ++ [CallDoMove move] ++ inner
            ++ [CallUndoMove move] ++ exit_calls (key pos) node r2).
    injection Hp as <- <- <-. split.
    + rewrite calls_on_exit, calls_call, Hcalls.
      by rewrite <- !app_assoc.
    + by eapply calls_child.
  - rewrite andb_false_r in Hp. injection Hp as <- <- <-.
    eexists. split; [|apply calls_terminal].
    by rewrite calls_on_exit, calls_on_entry, <- !app_assoc.
  - apply create_children_spec in Hcc as Hspec.
    destruct Hspec as (_ & _ & _ & _ & Hcalls & Ho).
    destruct o as [e|].
    + rewrite andb_false_r in Hp. injection Hp as <- <- <-.
      eexists. split; [|apply calls_expanded].
      rewrite calls_on_exit, Hcalls, calls_on_entry.
      by rewrite <- !app_assoc.
    + destruct Ho as [Hnodes _].
      assert (has_children node s1 = false) as Hc1.
      { unfold has_children in *. by rewrite Hnodes. }
      rewrite Hc1 in Hp. injection Hp as <- <- <-.
      eexists. split; [|apply calls_failed].
      rewrite calls_on_exit, Hcalls, calls_on_entry.
      by rewrite <- !app_assoc.
  - rewrite andb_false_r in Hp. injection Hp as <- <- <-.
    eexists. split; [|apply calls_in_place].
    rewrite calls_on_exit, calls_call, calls_on_entry.
    by rewrite <- !app_assoc.
Qed.

Lemma m_nodes_on_entry (pos : Position) node s :
  m_nodes (on_entry pos node s) = m_nodes s.
Proof. done. Qed.

Lemma play_simulation_descent fuel s (pos : Position) node s' pos' r :
  play_simulation fuel s pos node = Some (s', pos', r) →
  descent s pos node s' pos' r.
Proof.
  revert s pos node s' pos' r.
  induction fuel as [|fuel IH]; intros s pos node s' pos' r Hp; [done|].
  rewrite play_simulation_unfold in Hp.
  destruct (nodes s !! node) as [n0|] eqn:Hn; [|done]. simpl in Hp.
  assert (is_Some (nodes s !! node)) as Hsome by eauto.
  destruct (at_leaf pos node (on_entry pos node s)) as [s1 r1] eqn:Hleaf.
  apply at_leaf_cases in Hleaf
    as [(Hc & -> & ->)|[(Hc & Ht & -> & ->)|
        [(Hc & Ht & Hm & o & Hcc & ->)|(Hc & Ht & Hm & -> & ->)]]].
  - rewrite Hc in Hp. simpl in Hp. unfold descend_into_child in Hp.
    destruct (uct_select_child _ _ _) as [next|] eqn:Hsel; [|done].
    simpl in Hp.
    destruct (get_move next _) as [move|] eqn:Hmv; [|done]. simpl in Hp.
    destruct (play_simulation fuel _ _ next) as [[[s2 p2] r2]|] eqn:Hrec;
      [|done].
    injection Hp as <- <- <-. apply IH in Hrec.
    by eapply descent_child.
  - rewrite andb_false_r in Hp. injection Hp as <- <- <-.
    by apply descent_terminal.
  - rewrite m_nodes_on_entry in Hm.
    assert (has_children node s1 &&
            negb (valid match o with
                        | Some e => Evaluation e
                        | None => Invalid
                        end) = false) as Hcond.
    { destruct o as [e|]; [apply andb_false_r|].
      apply create_children_spec in Hcc as (_ & _ & _ & _ & _ & Hnodes & _).
      unfold has_children in *. rewrite Hnodes, Hc. done. }
    rewrite Hcond in Hp. injection Hp as <- <- <-.
    by eapply (descent_expand s pos node s1 o).
  - rewrite andb_false_r in Hp. injection Hp as <- <- <-.
    by apply descent_in_place.
Qed.

(** *** Virtual losses *)

Lemma losses_merge_registered h node s :
  m_virtual_loss <$> merge_registered h node s = losses s.
Proof.
  unfold merge_registered, losses.
  destruct (tt s !! h) as [other|]; [|done].
  destruct (decide (other = node)); [done|].
  destruct (nodes s !! other) as [o|]; [|done].
  rewrite (list_fmap_alter _ _ id).
  - apply list_alter_id. done.
  - apply Forall_forall. done.
Qed.

Lemma losses_on_entry (pos : Position) node s :
  losses (on_entry pos node s) = alter (λ z, z + 1)%Z node (losses s).
Proof.
  unfold on_entry, virtual_loss, TT_sync, losses. simpl.
  rewrite (list_fmap_alter _ _ (λ z, z + 1)%Z).
  - f_equal. apply losses_merge_registered.
  - apply Forall_forall. done.
Qed.

Lemma losses_on_exit (pos : Position) node r s :
  losses (on_exit pos node r s) = alter (λ z, z - 1)%Z node (losses s).
Proof.
  unfold on_exit, TT_update, virtual_loss_undo, update, losses.
  destruct r as [|e]; simpl.
  - rewrite (list_fmap_alter _ _ (λ z, z - 1)%Z); [done|].
    apply Forall_forall. done.
  - rewrite (list_fmap_alter _ _ (λ z, z - 1)%Z);
      [|apply Forall_forall; done].
    f_equal. rewrite (list_fmap_alter _ _ id); [|apply Forall_forall; done].
    apply list_alter_id. done.
Qed.

Lemma losses_create_children node (pos : Position) s s1 o :
  create_children node pos s = (s1, o) →
  ∃ k, losses s1 = losses s ++ replicate k 0%Z.
Proof.
  intros Hc. apply create_children_spec in Hc as (_ & _ & _ & _ & _ & Ho).
  destruct o as [e|].
  - destruct Ho as (policy & n & _ & _ & _ & Hnodes & _).
    exists (length (legal_moves pos)). unfold losses. rewrite Hnodes.
    rewrite fmap_app. f_equal.
    + rewrite (list_fmap_alter _ _ id); [|apply Forall_forall; done].
      apply list_alter_id. done.
    + clear Hnodes. induction (legal_moves pos) as [|m ms IH]; [done|].
      simpl. f_equal. apply IH.
  - destruct Ho as [Hnodes _]. exists 0. unfold losses.
    by rewrite Hnodes, app_nil_r.
Qed.

Lemma losses_restored (l : list Z) node zeros :
  node < length l →
  alter (λ z, z - 1)%Z node (alter (λ z, z + 1)%Z node l ++ zeros)
  = l ++ zeros.
Proof.
  intros Hlt. rewrite alter_app_l by (by rewrite length_alter).
  f_equal. rewrite list_alter_alter_eq. apply list_alter_id.
  intros z. simpl. lia.
Qed.

Lemma descent_losses s (pos : Position) node s' pos' r :
  descent s pos node s' pos' r →
  ∃ k, losses s' = losses s ++ replicate k 0%Z.
Proof.
  induction 1 as [s pos node Hn Hc Ht|s pos node s1 o Hn Hc Ht Hm Hcc r
                 |s pos node Hn Hc Ht Hm
                 |s pos node next move s2 p2 r2 Hn Hc Hsel Hmv Hrec IH].
  - exists 0. rewrite losses_on_exit, losses_on_entry.
    rewrite <- (app_nil_r (alter _ _ (losses s))).
    apply losses_restored. unfold losses. rewrite length_fmap.
    by apply lookup_lt_is_Some.
  - apply losses_create_children in Hcc as [k Hk]. exists k.
    rewrite losses_on_exit, Hk, losses_on_entry.
    apply losses_restored. unfold losses. rewrite length_fmap.
    by apply lookup_lt_is_Some.
  - exists 0. rewrite losses_on_exit.
    change (losses (call (CallEvalState node) (on_entry pos node s)))
      with (losses (on_entry pos node s)).
    rewrite losses_on_entry.
    rewrite <- (app_nil_r (alter _ _ (losses s))).
    apply losses_restored. unfold losses. rewrite length_fmap.
    by apply lookup_lt_is_Some.
  - destruct IH as [k Hk]. exists k.
    rewrite losses_on_exit.
    change (losses (call (CallUndoMove move) s2)) with (losses s2).
    rewrite Hk.
    change (losses (call (CallDoMove move) (on_entry pos node s)))
      with (losses (on_entry pos node s)).
    rewrite losses_on_entry.
    apply losses_restored. unfold losses. rewrite length_fmap.
    by apply lookup_lt_is_Some.
Qed.

(** *** What a descent leaves alone *)

Lemma descent_frame s (pos : Position) node s' pos' r :
  descent s pos node s' pos' r →
  m_playouts s' = m_playouts s ∧ m_run s' = m_run s ∧
  m_maxplayouts s' = m_maxplayouts s.
Proof.
  induction 1 as [s pos node Hn Hc Ht|s pos node s1 o Hn Hc Ht Hm Hcc r
                 |s pos node Hn Hc Ht Hm
                 |s pos node next move s2 p2 r2 Hn Hc Hsel Hmv Hrec IH].
  - done.
  - apply create_children_spec in Hcc as (_ & Hp & Hr & Hmax & _).
    by destruct r.
  - done.
  - destruct IH as (Hp & Hr & Hmax). by destruct r2.
Qed.

(** Each [do_move] is undone: the position comes back. *)
Lemma descent_position s (pos : Position) node s' pos' r :
  (∀ m p, undo_move m (do_move m p) = p) →
  descent s pos node s' pos' r → pos' = pos.
Proof.
  intros Hundo.
  induction 1 as [| | |s pos node next move s2 p2 r2 Hn Hc Hsel Hmv Hrec IH];
    try done.
  rewrite IH. apply Hundo.
Qed.

Lemma shape_merge_registered h node s :
  (λ n, (m_move n, m_score n, m_children n, m_expanded n))
    <$> merge_registered h node s = shape s.
Proof.
  unfold merge_registered, shape.
  destruct (tt s !! h) as [other|]; [|done].
  destruct (decide (other = node)); [done|].
  destruct (nodes s !! other) as [o|]; [|done].
  rewrite (list_fmap_alter _ _ id); [|apply Forall_forall; done].
  apply list_alter_id. done.
Qed.

Lemma shape_on_entry (pos : Position) node s :
  shape (on_entry pos node s) = shape s.
Proof.
  unfold on_entry, virtual_loss, TT_sync, shape. simpl.
  rewrite (list_fmap_alter _ _ id); [|apply Forall_forall; done].
  rewrite list_alter_id by done. apply shape_merge_registered.
Qed.

Lemma shape_on_exit (pos : Position) node r s :
  shape (on_exit pos node r s) = shape s.
Proof.
  unfold on_exit, TT_update, virtual_loss_undo, update, shape.
  destruct r as [|e]; simpl;
    repeat (rewrite (list_fmap_alter _ _ id); [|apply Forall_forall; done];
            rewrite list_alter_id by done);
    done.
Qed.

Lemma shape_length s : length (shape s) = length (nodes s).
Proof. apply length_fmap. Qed.

Lemma has_children_shape node s :
  has_children node s =
  match shape s !! node with
  | Some (_, _, kids, _) => negb (bool_decide (kids = []))
  | None => false
  end.
Proof.
  unfold has_children, shape. rewrite list_lookup_fmap.
  by destruct (nodes s !! node).
Qed.

Lemma shape_has_children node s1 s2 :
  shape s1 = shape s2 → has_children node s1 = has_children node s2.
Proof. intros Hs. by rewrite !has_children_shape, Hs. Qed.

(** *** No expansion at the tree-size bound *)

Lemma descent_at_bound s (pos : Position) node s' pos' r :
  descent s pos node s' pos' r →
  (MAX_TREE_SIZE ≤ m_nodes s)%Z →
  m_nodes s' = m_nodes s ∧ shape s' = shape s ∧
  ∃ tr, calls s' = calls s ++ tr ∧ count_calls is_create_children tr = 0.
Proof.
  induction 1 as [s pos node Hn Hc Ht|s pos node s1 o Hn Hc Ht Hm Hcc r
                 |s pos node Hn Hc Ht Hm
                 |s pos node next move s2 p2 r2 Hn Hc Hsel Hmv Hrec IH];
    intros Hbound.
  - split; [done|]. split; [by rewrite shape_on_exit, shape_on_entry|].
    eexists. rewrite calls_on_exit, calls_on_entry, <- app_assoc.
    split; [done|]. rewrite count_calls_app. by destruct (terminal_score pos).
  - lia.
  - split; [done|]. split.
    { rewrite shape_on_exit. apply shape_on_entry. }
    eexists. rewrite calls_on_exit, calls_call, calls_on_entry, <- !app_assoc.
    split; [done|]. done.
  - destruct (IH Hbound) as (Hmn & Hshape & tr & Hcalls & Hcount).
    split; [by destruct r2|].
    split.
    { rewrite shape_on_exit. etrans; [apply Hshape|apply shape_on_entry]. }
    eexists. rewrite calls_on_exit, calls_call, Hcalls, calls_call,
      calls_on_entry, <- !app_assoc.
    split; [done|]. rewrite !count_calls_app, Hcount. by destruct r2.
Qed.

(** *** A descent that returns Invalid *)

Lemma lookup_alter_Some {A} (f : A → A) (l : list A) i j y :
  alter f i l !! j = Some y →
  l !! j = Some y ∨ (i = j ∧ ∃ x, l !! j = Some x ∧ y = f x).
Proof.
  rewrite list_lookup_alter. case_decide as Hij; [|by left].
  subst j. destruct (l !! i) as [x|]; [|done].
  intros [= <-]. right. eauto.
Qed.

Lemma stats_from_trans s1 s2 s3 :
  stats_from s1 s2 → stats_from s2 s3 → stats_from s1 s3.
Proof.
  intros H12 H23 i n3 Hn3.
  destruct (H23 i n3 Hn3) as (j & n2 & Hn2 & Heq).
  destruct (H12 j n2 Hn2) as (k & n1 & Hn1 & Heq').
  exists k, n1. split; [done|]. congruence.
Qed.

Lemma stats_from_on_entry (pos : Position) node s :
  stats_from s (on_entry pos node s).
Proof.
  intros i n' Hn'. unfold on_entry, virtual_loss, TT_sync in Hn'.
  simpl in Hn'.
  assert (∃ n1, merge_registered (key pos) node s !! i = Some n1
                ∧ stats n' = stats n1) as (n1 & Hn1 & Heq).
  { apply lookup_alter_Some in Hn' as [?|(_ & x & Hx & ->)]; eauto. }
  rewrite Heq. clear Hn' Heq. unfold merge_registered in Hn1.
  destruct (tt s !! key pos) as [other|]; [|eauto].
  destruct (decide (other = node)); [eauto|].
  destruct (nodes s !! other) as [o|] eqn:Ho; [|eauto].
  apply lookup_alter_Some in Hn1 as [?|(_ & x & Hx & ->)]; eauto.
Qed.

Lemma stats_from_on_exit_invalid (pos : Position) node s :
  stats_from s (on_exit pos node Invalid s).
Proof.
  intros i n' Hn'. unfold on_exit, TT_update, virtual_loss_undo in Hn'.
  simpl in Hn'.
  apply lookup_alter_Some in Hn' as [?|(_ & x & Hx & ->)]; eauto.
Qed.

Lemma tt_on_exit (pos : Position) node r s :
  tt (on_exit pos node r s) !! key pos = Some node.
Proof.
  unfold on_exit, TT_update. simpl. apply lookup_insert_eq.
Qed.

Lemma descent_invalid s (pos : Position) node s' pos' :
  descent s pos node s' pos' Invalid →
  shape s' = shape s ∧ m_nodes s' = m_nodes s ∧ stats_from s s'.
Proof.
  intros Hd. remember Invalid as r eqn:Hr.
  induction Hd as [s pos node Hn Hc Ht|s pos node s1 o Hn Hc Ht Hm Hcc r
                  |s pos node Hn Hc Ht Hm
                  |s pos node next move s2 p2 r2 Hn Hc Hsel Hmv Hrec IH];
    try done.
  - destruct o as [e|]; [done|]. subst r.
    apply create_children_spec in Hcc as (_ & _ & _ & _ & _ & Hnodes & Hmn).
    split.
    { rewrite shape_on_exit. unfold shape. rewrite Hnodes.
      apply shape_on_entry. }
    split; [done|].
    eapply stats_from_trans; [apply stats_from_on_entry|].
    eapply stats_from_trans; [|apply stats_from_on_exit_invalid].
    intros i n' Hn'. rewrite Hnodes in Hn'. eauto.
  - subst r2. destruct (IH eq_refl) as (Hshape & Hmn & Hstats).
    split.
    { rewrite shape_on_exit. etrans; [apply Hshape|apply shape_on_entry]. }
    split; [done|].
    eapply stats_from_trans; [apply stats_from_on_entry|].
    eapply stats_from_trans; [|apply stats_from_on_exit_invalid].
    exact Hstats.
Qed.

(** *** Well-formed stores and termination *)

Lemma links_ok_spec size k (links : list (list nat)) :
  links_ok size k links = true ↔
  ∀ i kids c, links !! i = Some kids → c ∈ kids → k + i < c < size.
Proof.
  revert k. induction links as [|kids rest IH]; intros k; simpl.
  - split; [|done]. intros _ i kids' c Hl. done.
  - rewrite andb_true_iff, forallb_forall, IH. split.
    + intros [Hhd Htl] [|i] kids' c Hl Hc; simpl in Hl.
      * simplify_eq. apply list_elem_of_In, Hhd in Hc.
        apply andb_true_iff in Hc as [?%Nat.ltb_lt ?%Nat.ltb_lt]. lia.
      * specialize (Htl i kids' c Hl Hc). lia.
    + intros Hall. split.
      * intros c Hc%list_elem_of_In.
        specialize (Hall 0 kids c eq_refl Hc).
        apply andb_true_iff. split; apply Nat.ltb_lt; lia.
      * intros i kids' c Hl Hc.
        specialize (Hall (S i) kids' c Hl Hc). lia.
Qed.

Lemma well_formed_spec (store : list UCTNode) :
  well_formed store = true ↔
  ∀ i n c, store !! i = Some n → c ∈ m_children n → i < c < length store.
Proof.
  unfold well_formed. rewrite links_ok_spec. split.
  - intros Hall i n c Hn Hc.
    apply (Hall i (m_children n) c); [|done].
    by rewrite list_lookup_fmap, Hn.
  - intros Hall i kids c Hl Hc. rewrite list_lookup_fmap in Hl.
    destruct (store !! i) as [n|] eqn:Hn; [|done].
    simpl in Hl. simplify_eq. by eapply Hall.
Qed.

Lemma well_formed_shape s1 s2 :
  shape s1 = shape s2 → well_formed (nodes s1) = well_formed (nodes s2).
Proof.
  intros Hs. unfold well_formed.
  assert (∀ s, m_children <$> nodes s = (λ x, x.1.2) <$> shape s) as Hk.
  { intros s. unfold shape. rewrite <- list_fmap_compose. done. }
  rewrite <- (shape_length s1), <- (shape_length s2), !Hk, Hs. done.
Qed.

Lemma create_children_well_formed node (pos : Position) s s1 o :
  create_children node pos s = (s1, o) →
  well_formed (nodes s) = true → well_formed (nodes s1) = true.
Proof.
  intros Hc Hwf. apply create_children_spec in Hc as (_ & _ & _ & _ & _ & Ho).
  destruct o as [e|]; [|destruct Ho as [-> _]; done].
  destruct Ho as (policy & n & _ & Hn & _ & Hnodes & _).
  rewrite well_formed_spec in Hwf. apply well_formed_spec.
  rewrite Hnodes. intros i n' c Hl Hc.
  rewrite length_app, length_alter, length_map.
  apply lookup_app_Some in Hl as [Hl|[Hge Hl]].
  - apply lookup_alter_Some in Hl as [Hl|(-> & x & Hx & ->)].
    + specialize (Hwf i n' c Hl Hc). lia.
    + simpl in Hc. apply elem_of_seq in Hc.
      apply lookup_lt_Some in Hx. lia.
  - rewrite list_lookup_fmap in Hl.
    destruct (legal_moves pos !! _); simplify_eq/=.
    by apply elem_of_nil in Hc.
Qed.

Lemma descent_well_formed s (pos : Position) node s' pos' r :
  descent s pos node s' pos' r →
  well_formed (nodes s) = true → well_formed (nodes s') = true.
Proof.
  induction 1 as [s pos node Hn Hc Ht|s pos node s1 o Hn Hc Ht Hm Hcc r
                 |s pos node Hn Hc Ht Hm
                 |s pos node next move s2 p2 r2 Hn Hc Hsel Hmv Hrec IH];
    intros Hwf.
  - rewrite (well_formed_shape _ s); [done|].
    by rewrite shape_on_exit, shape_on_entry.
  - rewrite (well_formed_shape _ s1) by apply shape_on_exit.
    eapply create_children_well_formed; [done|].
    by rewrite (well_formed_shape _ s) by apply shape_on_entry.
  - rewrite (well_formed_shape _ s); [done|].
    rewrite shape_on_exit. apply shape_on_entry.
  - rewrite (well_formed_shape _ s2) by (by rewrite shape_on_exit).
    apply IH.
    change (nodes (call _ ?x)) with (nodes x).
    rewrite (well_formed_shape _ s); [done|]. apply shape_on_entry.
Qed.

Lemma select_from_total value (store : list UCTNode) cs best :
  (∀ c, c ∈ cs → is_Some (store !! c)) →
  cs ≠ [] ∨ is_Some best →
  is_Some (select_from value store cs best).
Proof.
  revert best. induction cs as [|c cs IH]; intros best Hall Hne; simpl.
  - destruct Hne as [?|[b ->]]; [done|]. by eexists.
  - destruct (Hall c) as [child Hc]; [apply list_elem_of_here|].
    rewrite Hc. apply IH.
    + intros c' Hc'. apply Hall. by apply list_elem_of_further.
    + right. destruct best as [[b bv]|]; [|by eexists].
      destruct (Qle_bool _ _); by eexists.
Qed.

Lemma uct_select_child_total color node s :
  well_formed (nodes s) = true → has_children node s = true →
  ∃ next, uct_select_child color node s = Some next ∧
          node < next < length (nodes s).
Proof.
  intros Hwf Hc. rewrite well_formed_spec in Hwf.
  unfold has_children in Hc. unfold uct_select_child.
  destruct (nodes s !! node) as [parent|] eqn:Hp; [|done]. simpl.
  destruct (select_from_total (uct_value color parent) (nodes s)
              (m_children parent) None) as [next Hnext].
  - intros c Hin. apply lookup_lt_is_Some.
    specialize (Hwf node parent c Hp Hin). lia.
  - left. intros Heq. rewrite Heq in Hc. done.
  - exists next. split; [done|].
    apply select_from_spec in Hnext as [[Hin _]|[bv ?]]; [|done].
    by apply (Hwf node parent).
Qed.

(** In a well-formed store the descent returns: the fuel only has to
    cover the nodes above the starting one. *)
Lemma play_simulation_total fuel s (pos : Position) node :
  well_formed (nodes s) = true →
  node < length (nodes s) →
  length (nodes s) - node ≤ fuel →
  is_Some (play_simulation fuel s pos node).
Proof.
  revert s pos node.
  induction fuel as [|fuel IH]; intros s pos node Hwf Hlt Hfuel; [lia|].
  rewrite play_simulation_unfold.
  destruct (lookup_lt_is_Some_2 _ _ Hlt) as [n0 Hn0]. rewrite Hn0. simpl.
  destruct (at_leaf pos node (on_entry pos node s)) as [s1 r1] eqn:Hleaf.
  apply at_leaf_cases in Hleaf
    as [(Hc & -> & ->)|[(Hc & Ht & -> & ->)|
        [(Hc & Ht & Hm & o & Hcc & ->)|(Hc & Ht & Hm & -> & ->)]]].
  - rewrite Hc. simpl. unfold descend_into_child.
    assert (shape (on_entry pos node s) = shape s) as Hshape
      by apply shape_on_entry.
    assert (length (nodes (on_entry pos node s)) = length (nodes s)) as Hlen
      by (by rewrite <- !shape_length, Hshape).
    destruct (uct_select_child_total (side_to_move pos) node
                (on_entry pos node s)) as (next & -> & Hnext);
      [by rewrite (well_formed_shape _ s)|done|].
    simpl. unfold get_move.
    destruct (lookup_lt_is_Some_2 (nodes (on_entry pos node s)) next)
      as [nn Hnn]; [lia|].
    rewrite Hnn. simpl.
    destruct (IH (call (CallDoMove (m_move nn)) (on_entry pos node s))
                 (do_move (m_move nn) pos) next) as [[[s2 p2] r2] Hrec].
    + by rewrite (well_formed_shape _ s).
    + change (nodes (call _ ?x)) with (nodes x). lia.
    + change (nodes (call _ ?x)) with (nodes x). lia.
    + rewrite Hrec. simpl. by eexists.
  - rewrite andb_false_r. simpl. by eexists.
  - assert (has_children node s1 &&
            negb (valid match o with
                        | Some e => Evaluation e
                        | None => Invalid
                        end) = false) as ->.
    { destruct o as [e|]; [apply andb_false_r|].
      apply create_children_spec in Hcc as (_ & _ & _ & _ & _ & Hnodes & _).
      unfold has_children in *. rewrite Hnodes, Hc. done. }
    simpl. by eexists.
  - rewrite andb_false_r. simpl. by eexists.
Qed.

(** *** A descent only touches its node and nodes above it *)

Lemma lookup_merge_registered_ne h node s i :
  i ≠ node → merge_registered h node s !! i = nodes s !! i.
Proof.
  intros Hne. unfold merge_registered.
  destruct (tt s !! h) as [other|]; [|done].
  destruct (decide (other = node)); [done|].
  destruct (nodes s !! other) as [o|]; [|done].
  by rewrite list_lookup_alter_ne.
Qed.

Lemma lookup_on_entry_ne (pos : Position) node s i :
  i ≠ node → nodes (on_entry pos node s) !! i = nodes s !! i.
Proof.
  intros Hne. unfold on_entry, virtual_loss, TT_sync. simpl.
  rewrite list_lookup_alter_ne by done.
  by apply lookup_merge_registered_ne.
Qed.

Lemma lookup_on_exit_ne (pos : Position) node r s i :
  i ≠ node → nodes (on_exit pos node r s) !! i = nodes s !! i.
Proof.
  intros Hne. unfold on_exit, TT_update, virtual_loss_undo, update.
  destruct r; simpl; by rewrite !list_lookup_alter_ne.
Qed.

Lemma lookup_on_exit_valid (pos : Position) node e s :
  nodes (on_exit pos node (Evaluation e) s) !! node
  = (λ n, node_virtual_loss_undo (node_update e n)) <$> nodes s !! node.
Proof.
  unfold on_exit, TT_update, virtual_loss_undo, update. simpl.
  rewrite !list_lookup_alter_eq. by destruct (nodes s !! node).
Qed.

Lemma descent_below s (pos : Position) node s' pos' r :
  descent s pos node s' pos' r →
  well_formed (nodes s) = true →
  ∀ i, i < node → nodes s' !! i = nodes s !! i.
Proof.
  induction 1 as [s pos node Hn Hc Ht|s pos node s1 o Hn Hc Ht Hm Hcc r
                 |s pos node Hn Hc Ht Hm
                 |s pos node next move s2 p2 r2 Hn Hc Hsel Hmv Hrec IH];
    intros Hwf i Hi.
  - rewrite lookup_on_exit_ne, lookup_on_entry_ne by lia. done.
  - rewrite lookup_on_exit_ne by lia.
    apply create_children_spec in Hcc as (_ & _ & _ & _ & _ & Ho).
    destruct o as [e|].
    + destruct Ho as (policy & n & _ & Hn' & _ & -> & _).
      apply lookup_lt_Some in Hn'.
      rewrite lookup_app_l by (rewrite length_alter; lia).
      rewrite list_lookup_alter_ne by lia.
      apply lookup_on_entry_ne. lia.
    + destruct Ho as [-> _]. apply lookup_on_entry_ne. lia.
  - rewrite lookup_on_exit_ne by lia.
    change (nodes (call _ ?x)) with (nodes x).
    apply lookup_on_entry_ne. lia.
  - assert (well_formed (nodes (on_entry pos node s)) = true) as Hwf1.
    { by rewrite (well_formed_shape _ s) by apply shape_on_entry. }
    apply uct_select_child_spec in Hsel as (parent & Hp & Hin & _).
    rewrite well_formed_spec in Hwf1.
    specialize (Hwf1 node parent next Hp Hin).
    rewrite lookup_on_exit_ne by lia.
    change (nodes (call _ ?x)) with (nodes x).
    rewrite IH; [|by rewrite (well_formed_shape _ s) by apply shape_on_entry
                 |lia].
    change (nodes (call _ ?x)) with (nodes x).
    apply lookup_on_entry_ne. lia.
Qed.

(** The node of a descent with a valid result ends with one more visit
    and the returned evaluation added to what it had after the entry. *)
Lemma descent_updates_node s (pos : Position) node s' pos' e :
  descent s pos node s' pos' (Evaluation e) →
  well_formed (nodes s) = true →
  ∃ n0 n1,
    nodes (on_entry pos node s) !! node = Some n0 ∧
    nodes s' !! node = Some n1 ∧
    m_visits n1 = (m_visits n0 + 1)%Z ∧
    m_evals n1 = (m_evals n0 + e)%Q.
Proof.
  intros Hd Hwf.
  assert (is_Some (nodes (on_entry pos node s) !! node)) as [n0 Hn0].
  { apply lookup_lt_is_Some. rewrite <- shape_length, shape_on_entry.
    rewrite shape_length. apply lookup_lt_is_Some.
    by destruct Hd. }
  exists n0.
  enough (∃ n1, nodes s' !! node = Some n1 ∧
                m_visits n1 = (m_visits n0 + 1)%Z ∧
                m_evals n1 = (m_evals n0 + e)%Q) as (n1 & ? & ? & ?)
    by (exists n1; done).
  remember (Evaluation e) as r eqn:Hr.
  destruct Hd as [s pos node Hn Hc Ht|s pos node s1 o Hn Hc Ht Hm Hcc r
                 |s pos node Hn Hc Ht Hm
                 |s pos node next move s2 p2 r2 Hn Hc Hsel Hmv Hrec].
  - rewrite Hr, lookup_on_exit_valid, Hn0. eexists. done.
  - destruct o as [e'|]; [|done]. subst r. injection Hr as ->.
    rewrite lookup_on_exit_valid.
    apply create_children_spec in Hcc as (_ & _ & _ & _ & _ & Ho).
    destruct Ho as (policy & n & _ & Hn' & _ & -> & _).
    apply lookup_lt_Some in Hn' as Hlt.
    rewrite lookup_app_l by (by rewrite length_alter).
    rewrite list_lookup_alter_eq, Hn'. simpl.
    rewrite Hn' in Hn0. injection Hn0 as <-. eexists. done.
  - rewrite Hr, lookup_on_exit_valid.
    change (nodes (call _ ?x)) with (nodes x). rewrite Hn0.
    eexists. done.
  - subst r2. rewrite lookup_on_exit_valid.
    change (nodes (call _ ?x)) with (nodes x).
    assert (well_formed (nodes (on_entry pos node s)) = true) as Hwf1.
    { by rewrite (well_formed_shape _ s) by apply shape_on_entry. }
    apply uct_select_child_spec in Hsel as (parent & Hp & Hin & _).
    pose proof Hwf1 as Hwf2. rewrite well_formed_spec in Hwf2.
    specialize (Hwf2 node parent next Hp Hin).
    rewrite (descent_below _ _ _ _ _ _ Hrec) by (done || lia).
    change (nodes (call _ ?x)) with (nodes x). rewrite Hn0.
    eexists. done.
Qed.

End DescentFacts.

(** ** Facts about the search loops *)

Section SearchFacts.
Context {Position : Type} `{!RulesEngine Position} `{!Evaluator Position}
        `{!Parameters} `{!Randomness}.

Lemma descend_and_count_spec (rootstate : Position) s s' r :
  descend_and_count rootstate s = Some (s', r) →
  ∃ s1 p1,
    play_simulation (depth_bound s) s rootstate m_root = Some (s1, p1, r) ∧
    s' = if valid r then increment_playouts s1 else s1.
Proof.
  unfold descend_and_count, duplicate. intros Hd.
  destruct (play_simulation _ _ _ _) as [[[s1 p1] r1]|]; [|done].
  simpl in Hd. injection Hd as <- <-. eauto.
Qed.

Lemma descend_and_count_facts (rootstate : Position) s s' r :
  descend_and_count rootstate s = Some (s', r) →
  m_playouts s' = (m_playouts s + if valid r then 1 else 0)%Z ∧
  m_run s' = m_run s ∧ m_maxplayouts s' = m_maxplayouts s ∧
  (∃ k, losses s' = losses s ++ replicate k 0%Z) ∧
  (well_formed (nodes s) = true → well_formed (nodes s') = true).
Proof.
  intros (s1 & p1 & Hp & ->)%descend_and_count_spec.
  apply play_simulation_descent in Hp.
  destruct (descent_frame _ _ _ _ _ _ Hp) as (Hpl & Hr & Hmax).
  destruct (descent_losses _ _ _ _ _ _ Hp) as [k Hk].
  pose proof (descent_well_formed _ _ _ _ _ _ Hp) as Hwf.
  assert (∀ x, losses (increment_playouts x) = losses x) as Hl by done.
  destruct (valid r); simpl; rewrite ?Hl, ?Hpl.
  - split; [lia|]. repeat split; eauto.
  - split; [lia|]. repeat split; eauto.
Qed.

Lemma descend_and_count_total (rootstate : Position) s :
  well_formed (nodes s) = true → 0 < length (nodes s) →
  is_Some (descend_and_count rootstate s).
Proof.
  intros Hwf Hroot. unfold descend_and_count, duplicate.
  destruct (play_simulation_total (depth_bound s) s rootstate m_root)
    as [[[s1 p1] r] ->]; [done|done|unfold depth_bound, m_root; lia|].
  simpl. by eexists.
Qed.

Lemma iteration_spec mode (rootstate : Position) t pending s s' r again :
  iteration mode rootstate t pending s = Some (s', r, again) →
  descend_and_count rootstate s = Some (s', r) ∧
  (m_run s' = false → again = false) ∧
  (mode = Think ∨ t ≠ MainThread →
   (m_maxplayouts s' ≤ m_playouts s')%Z → again = false).
Proof.
  unfold iteration, think_iteration, ponder_iteration, worker_iteration,
    is_running, playout_limit_reached.
  intros Hi.
  destruct (descend_and_count rootstate s) as [[s1 r1]|]; simpl in Hi;
    [|by destruct t, mode].
  assert (s1 = s' ∧ r1 = r ∧
          (m_run s1 = false → again = false) ∧
          (mode = Think ∨ t ≠ MainThread →
           (m_maxplayouts s1 ≤ m_playouts s1)%Z → again = false))
    as (-> & -> & Hagain & Hlimit).
  { destruct t, mode; injection Hi as <- <- <-; repeat split; try done;
      try (intros ->; try done; apply andb_false_r);
      try (intros _ Hle; apply Z.leb_le in Hle; rewrite Hle;
           apply andb_false_r).
    intros [?|?]; done. }
  done.
Qed.

Lemma count_valid_app ds1 ds2 :
  count_valid (ds1 ++ ds2) = count_valid ds1 + count_valid ds2.
Proof.
  induction ds1 as [|d ds1 IH]; simpl; [done|]. rewrite IH. lia.
Qed.

(** What a step of the schedule does, case by case. *)
Lemma step_cases mode (rootstate : Position) a w w' :
  step mode rootstate a w = Some w' →
  (descents w' = descents w ∧ losses (search w') = losses (search w) ∧
   nodes (search w') = nodes (search w) ∧
   m_playouts (search w') = m_playouts (search w) ∧
   main_in_loop w' = main_in_loop w ∧
   workers_in_loop w' = workers_in_loop w) ∨
  (∃ t s' r again,
      a = Turn t ∧ in_loop t w = true ∧
      iteration mode rootstate t (input_pending w) (search w)
        = Some (s', r, again) ∧
      descents w' = descents w ++ [(t, r)] ∧
      nodes (search w') = nodes s' ∧
      m_playouts (search w') = m_playouts s' ∧
      in_loop t w' = again ∧
      length (workers_in_loop w') = length (workers_in_loop w) ∧
      (∀ t', t' ≠ t → in_loop t' w' = in_loop t' w)).
Proof.
  intros Hs. destruct a as [[|i]| |]; simpl in Hs.
  - destruct (main_in_loop w) eqn:Hmain; [|left; by simplify_eq].
    right.
    destruct (match mode with
              | Think => think_iteration rootstate (search w)
              | Ponder => ponder_iteration rootstate (input_pending w)
                                           (search w)
              end) as [[[s' r] again]|] eqn:Hit; [|done].
    simpl in Hs. injection Hs as <-.
    exists MainThread, s', r, again. simpl.
    repeat split; try done; try by destruct again.
    intros [|j] Hne; done.
  - destruct (workers_in_loop w !! i) as [[|]|] eqn:Hw;
      [|left; by simplify_eq..].
    right.
    destruct (worker_iteration rootstate (search w))
      as [[[s' r] again]|] eqn:Hit; [|done].
    simpl in Hs. injection Hs as <-.
    exists (WorkerThread i), s', r, again. simpl.
    repeat split; try done.
    + by apply bool_decide_eq_true.
    + rewrite list_lookup_insert_eq by (by eapply lookup_lt_Some).
      by destruct again.
    + apply length_insert.
    + intros [|j] Hne; [done|]. simpl.
      rewrite list_lookup_insert_ne by congruence. done.
  - left. by simplify_eq.
  - left. by simplify_eq.
Qed.

(** The facts a step preserves or advances, in one place. *)
Lemma step_facts mode (rootstate : Position) a w w' :
  step mode rootstate a w = Some w' →
  (∃ new, descents w' = descents w ++ new ∧
          m_playouts (search w')
          = (m_playouts (search w) + Z.of_nat (count_valid new))%Z ∧
          (∀ t r, (t, r) ∈ new → a = Turn t ∧ in_loop t w = true)) ∧
  (∃ k, losses (search w') = losses (search w) ++ replicate k 0%Z) ∧
  (well_formed (nodes (search w)) = true →
   well_formed (nodes (search w')) = true) ∧
  length (nodes (search w)) ≤ length (nodes (search w')) ∧
  length (workers_in_loop w') = length (workers_in_loop w) ∧
  (∀ t, in_loop t w = false → in_loop t w' = false) ∧
  (∀ t, in_loop t w = true → in_loop t w' = false →
        ∃ r, (t, r) ∈ descents w').
Proof.
  intros Hs. apply step_cases in Hs
    as [(Hd & Hl & Hn & Hp & Hm & Hw)
       |(t & s' & r & again & -> & Hin & Hit & Hd & Hn & Hp & Hagain
         & Hlen & Hother)].
  - split.
    { exists []. rewrite app_nil_r, Hp. simpl.
      split; [done|]. split; [lia|].
      intros t r Hin. by apply elem_of_nil in Hin. }
    split; [exists 0; by rewrite Hl, app_nil_r|].
    rewrite Hn, Hw. repeat split; try done.
    + intros [|i]; simpl; by rewrite ?Hm, ?Hw.
    + intros [|i]; simpl; rewrite ?Hm, ?Hw; congruence.
  - apply iteration_spec in Hit as (Hdc & _ & _).
    apply descend_and_count_facts in Hdc
      as (Hpl & _ & _ & [k Hk] & Hwf).
    split.
    { exists [(t, r)]. split; [done|]. split.
      - rewrite Hp, Hpl. simpl. destruct (valid r); lia.
      - intros t' r' [= -> ->]%list_elem_of_singleton. done. }
    split.
    { exists k. unfold losses in *. by rewrite Hn. }
    split; [by rewrite Hn|].
    split.
    { rewrite Hn. unfold losses in Hk.
      rewrite <- (length_fmap m_virtual_loss (nodes s')), Hk.
      rewrite length_app, length_fmap. lia. }
    split; [done|].
    split.
    + intros t' Ht'. destruct (decide (t' = t)) as [->|Hne]; [congruence|].
      by rewrite Hother.
    + intros t' Ht' Hleft. exists r. rewrite Hd.
      destruct (decide (t' = t)) as [->|Hne].
      * apply elem_of_app. right. apply list_elem_of_here.
      * rewrite Hother in Hleft by done. congruence.
Qed.

Lemma step_total mode (rootstate : Position) a w :
  well_formed (nodes (search w)) = true →
  0 < length (nodes (search w)) →
  is_Some (step mode rootstate a w).
Proof.
  intros Hwf Hroot.
  destruct (descend_and_count_total rootstate (search w) Hwf Hroot)
    as [[s' r] Hdc].
  destruct a as [[|i]| |]; simpl; try by eexists.
  - destruct (main_in_loop w); [|by eexists].
    destruct mode; unfold think_iteration, ponder_iteration;
      rewrite Hdc; simpl; by eexists.
  - destruct (workers_in_loop w !! i) as [[|]|]; try by eexists.
    unfold worker_iteration. rewrite Hdc. simpl. by eexists.
Qed.

Lemma run_facts mode (rootstate : Position) sched w w' :
  run mode rootstate sched w = Some w' →
  (∃ new, descents w' = descents w ++ new ∧
          m_playouts (search w')
          = (m_playouts (search w) + Z.of_nat (count_valid new))%Z) ∧
  (∃ k, losses (search w') = losses (search w) ++ replicate k 0%Z) ∧
  (well_formed (nodes (search w)) = true →
   well_formed (nodes (search w')) = true) ∧
  length (nodes (search w)) ≤ length (nodes (search w')) ∧
  length (workers_in_loop w') = length (workers_in_loop w) ∧
  ((∀ t, spawned t w = true → in_loop t w = false →
         ∃ r, (t, r) ∈ descents w) →
   (∀ t, spawned t w' = true → in_loop t w' = false →
         ∃ r, (t, r) ∈ descents w')).
Proof.
  revert w. induction sched as [|a sched IH]; intros w Hr; simpl in Hr.
  - simplify_eq. split.
    { exists []. rewrite app_nil_r. split; [done|simpl; lia]. }
    split; [exists 0; by rewrite app_nil_r|]. done.
  - destruct (step mode rootstate a w) as [w1|] eqn:Hs; [|done].
    simpl in Hr.
    apply step_facts in Hs
      as ((new1 & Hd1 & Hp1 & _) & [k1 Hk1] & Hwf1 & Hlen1 & Hw1
          & Hstay & Hleave).
    apply IH in Hr
      as ((new2 & Hd2 & Hp2) & [k2 Hk2] & Hwf2 & Hlen2 & Hw2 & Hinv).
    split.
    { exists (new1 ++ new2). rewrite Hd2, Hd1, <- app_assoc.
      split; [done|]. rewrite Hp2, Hp1, count_valid_app. lia. }
    split.
    { exists (k1 + k2). by rewrite Hk2, Hk1, replicate_add, app_assoc. }
    split; [auto|]. split; [lia|]. split; [congruence|].
    intros Hw. apply Hinv. intros t Hsp Hout.
    assert (spawned t w = true) as Hsp0.
    { destruct t; [done|]. simpl in *. by rewrite <- Hw1. }
    destruct (in_loop t w) eqn:Hin.
    + by apply Hleave.
    + destruct (Hw t Hsp0 Hin) as [r Hr'].
      exists r. rewrite Hd1. apply elem_of_app. by left.
Qed.

Lemma run_total mode (rootstate : Position) sched w :
  well_formed (nodes (search w)) = true →
  0 < length (nodes (search w)) →
  is_Some (run mode rootstate sched w).
Proof.
  revert w. induction sched as [|a sched IH]; intros w Hwf Hroot; simpl.
  - by eexists.
  - destruct (step_total mode rootstate a w Hwf Hroot) as [w1 Hs].
    rewrite Hs. simpl.
    apply step_facts in Hs as (_ & _ & Hwf1 & Hlen1 & _).
    apply IH; [auto|lia].
Qed.

(** A store without virtual losses stays so when nodes are appended with
    a zero counter. *)
Lemma no_virtual_loss_extend s s' k :
  losses s' = losses s ++ replicate k 0%Z →
  no_virtual_loss s = true → no_virtual_loss s' = true.
Proof.
  unfold no_virtual_loss. intros -> Hs.
  rewrite forallb_app, Hs. simpl.
  induction k as [|k IH]; [done|]. simpl. done.
Qed.

Lemma losses_dirichlet_noise eps s :
  losses (dirichlet_noise eps s) = losses s.
Proof.
  unfold dirichlet_noise, losses.
  destruct (nodes s !! m_root) as [root|]; [|done]. simpl.
  induction (imap pair (m_children root)) as [|ic l IH]; [done|]. simpl.
  rewrite (list_fmap_alter _ _ id); [|apply Forall_forall; done].
  rewrite list_alter_id by done. apply IH.
Qed.

Lemma well_formed_children (l1 l2 : list UCTNode) :
  m_children <$> l1 = m_children <$> l2 → well_formed l1 = well_formed l2.
Proof.
  intros Hk. unfold well_formed.
  rewrite <- (length_fmap m_children l1), <- (length_fmap m_children l2).
  by rewrite Hk.
Qed.

Lemma children_dirichlet_noise eps s :
  m_children <$> nodes (dirichlet_noise eps s) = m_children <$> nodes s.
Proof.
  unfold dirichlet_noise.
  destruct (nodes s !! m_root) as [root|]; [|done]. simpl.
  induction (imap pair (m_children root)) as [|ic l IH]; [done|]. simpl.
  rewrite (list_fmap_alter _ _ id); [|apply Forall_forall; done].
  rewrite list_alter_id by done. apply IH.
Qed.

(** The searches return a world for every schedule: no descent runs out
    of fuel or leaves the store. *)
Lemma think_search_total sched (rootstate : Position) s :
  well_formed (nodes s) = true → 0 < length (nodes s) →
  m_playouts s = 0%Z → m_nodes s = 0%Z →
  is_Some (think_search sched rootstate s).
Proof.
  intros Hwf Hroot Hp Hn. unfold think_search. rewrite Hp, Hn. simpl.
  destruct (create_children m_root rootstate s) as [s1 o] eqn:Hc.
  pose proof (create_children_well_formed _ _ _ _ _ Hc Hwf) as Hwf1.
  assert (0 < length (nodes s1)) as Hroot1.
  { apply losses_create_children in Hc as [k Hk].
    unfold losses in Hk.
    rewrite <- (length_fmap m_virtual_loss (nodes s1)), Hk.
    rewrite length_app, length_fmap. lia. }
  apply run_total; simpl.
  - destruct cfg_noise; [|done].
    by rewrite (well_formed_children _ (nodes s1))
      by apply children_dirichlet_noise.
  - destruct cfg_noise; [|done].
    rewrite <- (length_fmap m_children), children_dirichlet_noise.
    by rewrite length_fmap.
Qed.

Lemma ponder_search_total sched (rootstate : Position) s :
  well_formed (nodes s) = true → 0 < length (nodes s) →
  m_playouts s = 0%Z → m_nodes s = 0%Z →
  is_Some (ponder_search sched rootstate s).
Proof.
  intros Hwf Hroot Hp Hn. unfold ponder_search. rewrite Hp, Hn. simpl.
  by apply run_total.
Qed.

Lemma iteration_total mode (rootstate : Position) t pending s :
  well_formed (nodes s) = true → 0 < length (nodes s) →
  ∃ s' r again, iteration mode rootstate t pending s = Some (s', r, again).
Proof.
  intros Hwf Hroot.
  destruct (descend_and_count_total rootstate s Hwf Hroot) as [[s' r] Hdc].
  unfold iteration, think_iteration, ponder_iteration, worker_iteration.
  rewrite Hdc. destruct t, mode; simpl; eauto.
Qed.

Lemma step_turn mode (rootstate : Position) t w s' r again :
  in_loop t w = true →
  iteration mode rootstate t (input_pending w) (search w)
    = Some (s', r, again) →
  ∃ w', step mode rootstate (Turn t) w = Some w' ∧
        descents w' = descents w ++ [(t, r)] ∧
        in_loop t w' = again.
Proof.
  intros Hin Hit. destruct t as [|i]; simpl in *.
  - rewrite Hin.
    assert (match mode with
            | Think => think_iteration rootstate (search w)
            | Ponder => ponder_iteration rootstate (input_pending w)
                                         (search w)
            end = Some (s', r, again)) as -> by (by destruct mode).
    simpl. eexists. split; [done|]. done.
  - apply bool_decide_eq_true in Hin. rewrite Hin.
    assert (worker_iteration rootstate (search w) = Some (s', r, again))
      as -> by (by destruct mode).
    simpl. eexists. split; [done|]. split; [done|]. simpl.
    rewrite list_lookup_insert_eq by (by eapply lookup_lt_Some).
    by destruct again.
Qed.

End SearchFacts.

(** ** The claims *)

Section Claims.
Context {Position : Type} `{!RulesEngine Position} `{!Evaluator Position}
        `{!Parameters} `{!Randomness}.

Lemma at_leaf_terminal (pos : Position) node s :
  has_children node s = false → terminal pos = true →
  at_leaf pos node s = (s, from_score (terminal_score pos)).
Proof. unfold at_leaf. by intros -> ->. Qed.

Lemma has_children_on_entry (pos : Position) node s :
  has_children node (on_entry pos node s) = has_children node s.
Proof. apply shape_has_children, shape_on_entry. Qed.

(** C1 (as amended).  A descent that reaches a node without children
    whose position is terminal returns the result made from the terminal
    score: evaluation 1/2 for a draw or a stalemate; for a checkmate the
    evaluation is 0 when White is to move and 1 when Black is to move.  The
    evaluation is an evaluation for White: read for the side to move, as
    line 250 reads evaluations, the checkmate is 0 for either color. *)
Theorem terminal_leaf_result fuel s (pos : Position) node :
  is_Some (nodes s !! node) →
  has_children node s = false →
  terminal pos = true →
  ∃ s' e,
    play_simulation (S fuel) s pos node = Some (s', pos, Evaluation e) ∧
    Evaluation e = from_score (terminal_score pos) ∧
    (if is_draw pos || (checkers pos =? 0)%Z then e == 1 # 2
     else match side_to_move pos with
          | WHITE => e == 0
          | BLACK => e == 1
          end)%Q ∧
    (is_draw pos || (checkers pos =? 0)%Z = false →
     for_side (side_to_move pos) e == 0)%Q.
Proof.
  intros [n0 Hn0] Hc Ht.
  rewrite play_simulation_unfold, Hn0. simpl.
  rewrite at_leaf_terminal by (by rewrite ?has_children_on_entry).
  rewrite andb_false_r. simpl.
  eexists _, _. split; [reflexivity|]. split; [reflexivity|].
  unfold terminal_score.
  destruct (is_draw pos || (checkers pos =? 0)%Z); [done|].
  destruct (side_to_move pos); done.
Qed.

(** C2 (as amended).  In every descent that produced a valid result the
    node is updated with the very evaluation the descent returns, which in
    a recursive step is the evaluation the call on the child returned: all
    the updates of a descent, at every level of the backup, pass the same
    evaluation, and no level passes its complement to 1.  In a well-formed
    tree the node ends with one more visit and with that evaluation added
    to the eval_sum it had after the entry. *)
Theorem backup_passes_evaluation_unchanged
        fuel s (pos : Position) node s' pos' e :
  play_simulation fuel s pos node = Some (s', pos', Evaluation e) →
  (∃ tr, calls s' = calls s ++ tr ∧
         CallUpdate node e ∈ tr ∧
         ∀ n e', CallUpdate n e' ∈ tr → e' = e) ∧
  (well_formed (nodes s) = true →
   ∃ n0 n1,
     nodes (on_entry pos node s) !! node = Some n0 ∧
     nodes s' !! node = Some n1 ∧
     m_visits n1 = (m_visits n0 + 1)%Z ∧
     m_evals n1 = (m_evals n0 + e)%Q).
Proof.
  intros Hp. split.
  - apply play_simulation_calls in Hp as (tr & Hcalls & Htr).
    exists tr. split; [done|]. split.
    + by eapply descent_calls_update_self.
    + intros n e' Hin.
      apply (descent_calls_updates _ _ _ _ _ _ Htr) in Hin. congruence.
  - intros Hwf. eapply descent_updates_node; [|done].
    eapply play_simulation_descent, Hp.
Qed.

Lemma think_search_start sched (rootstate : Position) s w :
  think_search sched rootstate s = Some w →
  ∃ s0, run Think rootstate sched (start_search s0) = Some w ∧
        m_playouts s0 = 0%Z ∧
        ∃ k, losses s0 = losses s ++ replicate k 0%Z.
Proof.
  unfold think_search. intros Ht.
  destruct (m_playouts s =? 0)%Z eqn:Hp; [|done].
  destruct (m_nodes s =? 0)%Z; [|done]. simpl in Ht.
  apply Z.eqb_eq in Hp.
  destruct (create_children m_root rootstate s) as [s1 o] eqn:Hc.
  apply losses_create_children in Hc as Hl. destruct Hl as [k Hk].
  apply create_children_spec in Hc as (_ & Hp1 & _).
  eexists. split; [exact Ht|]. split.
  - destruct cfg_noise; [|congruence].
    unfold dirichlet_noise. destruct (nodes s1 !! m_root); simpl; congruence.
  - exists k. destruct cfg_noise; [|done]. by rewrite losses_dirichlet_noise.
Qed.

Lemma ponder_search_start sched (rootstate : Position) s w :
  ponder_search sched rootstate s = Some w →
  run Ponder rootstate sched (start_search s) = Some w ∧ m_playouts s = 0%Z.
Proof.
  unfold ponder_search. intros Ht.
  destruct (m_playouts s =? 0)%Z eqn:Hp; [|done].
  destruct (m_nodes s =? 0)%Z; [|done]. simpl in Ht.
  by apply Z.eqb_eq in Hp.
Qed.

Lemma interleaved_descents_balanced threads merged counter n :
  Forall thread_calls threads →
  interleaving threads merged →
  counters_after merged counter n = counter n.
Proof.
  intros Hthreads Hmerged. rewrite counters_after_count.
  rewrite !(interleaving_count _ _ _ Hmerged).
  rewrite (count_in_threads_balanced threads n Hthreads). lia.
Qed.



Lemma at_leaf_in_place (pos : Position) node s :
  has_children node s = false → terminal pos = false →
  (MAX_TREE_SIZE ≤ m_nodes s)%Z →
  at_leaf pos node s
  = (call (CallEvalState node) s, Evaluation (nn_value pos)).
Proof.
  unfold at_leaf, eval_state. intros -> -> Hm. simpl.
  by destruct (Z.ltb_spec (m_nodes s) MAX_TREE_SIZE); [lia|].
Qed.

(** C5.  A descent that reaches a node without children whose position is
    not terminal, while the node counter is at or above MAX_TREE_SIZE,
    makes exactly the calls sync, virtual_loss, eval_state, update,
    virtual_loss_undo and TT update: it evaluates in place, returns that
    evaluation as a valid result, and changes neither the structure of the
    tree nor the node counter.  More generally no descent started at or
    above the bound calls [create_children], so a call of
    [create_children] implies that the counter was below the bound. *)
Theorem no_expansion_at_the_bound :
  (∀ fuel s (pos : Position) node,
      is_Some (nodes s !! node) →
      has_children node s = false →
      terminal pos = false →
      (MAX_TREE_SIZE ≤ m_nodes s)%Z →
      ∃ s',
        play_simulation (S fuel) s pos node
        = Some (s', pos, Evaluation (nn_value pos)) ∧
        calls s' = calls s ++ [CallSync (key pos) node;
                               CallVirtualLoss node;
                               CallEvalState node;
                               CallUpdate node (nn_value pos);
                               CallVirtualLossUndo node;
                               CallTTUpdate (key pos) node] ∧
        shape s' = shape s ∧ m_nodes s' = m_nodes s) ∧
  (∀ fuel s (pos : Position) node s' pos' r tr,
      play_simulation fuel s pos node = Some (s', pos', r) →
      calls s' = calls s ++ tr →
      ((MAX_TREE_SIZE ≤ m_nodes s)%Z →
       count_calls is_create_children tr = 0 ∧
       shape s' = shape s ∧ m_nodes s' = m_nodes s) ∧
      (∀ n ok, CallCreateChildren n ok ∈ tr →
               (m_nodes s < MAX_TREE_SIZE)%Z)).
Proof.
  split.
  - intros fuel s pos node [n0 Hn0] Hc Ht Hm.
    rewrite play_simulation_unfold, Hn0. simpl.
    rewrite at_leaf_in_place by (by rewrite ?has_children_on_entry).
    rewrite andb_false_r. simpl. eexists. split; [reflexivity|].
    split; [|split].
    + rewrite calls_on_exit, calls_call, calls_on_entry.
      by rewrite <- !app_assoc.
    + rewrite shape_on_exit. apply shape_on_entry.
    + done.
  - intros fuel s pos node s' pos' r tr Hp Hcalls.
    apply play_simulation_descent in Hp.
    assert ((MAX_TREE_SIZE ≤ m_nodes s)%Z →
            count_calls is_create_children tr = 0 ∧
            shape s' = shape s ∧ m_nodes s' = m_nodes s) as Hbound.
    { intros Hm.
      destruct (descent_at_bound _ _ _ _ _ _ Hp Hm)
        as (Hmn & Hshape & tr' & Hcalls' & Hcount).
      rewrite Hcalls in Hcalls'. apply app_inv_head in Hcalls' as ->.
      done. }
    split; [done|].
    intros n ok Hin.
    destruct (Z.lt_ge_cases (m_nodes s) MAX_TREE_SIZE) as [?|Hge]; [done|].
    destruct (Hbound Hge) as [Hcount _].
    rewrite count_calls_zero in Hcount. by apply Hcount in Hin.
Qed.

Lemma moves_nest_descent h n r tr pending rest :
  descent_calls h n r tr →
  moves_nest pending (tr ++ rest) = moves_nest pending rest.
Proof.
  intros Hd. revert pending rest.
  induction Hd as [h n e|h n e|h n|h n e|h n mv h' n' r inner Hin IH];
    intros pending rest; try done.
  unfold entry_calls. simpl. rewrite <- app_assoc, IH. simpl.
  rewrite Z.eqb_refl. simpl. by destruct r.
Qed.

(** C8.  When the rules engine undoes what it does, a descent returns the
    position it was given: its hash and its side to move are the same
    before and after.  Every [do_move] of the descent is taken back by an
    [undo_move] of the same move, in nested order. *)
Theorem descent_restores_position fuel s (pos : Position) node s' pos' r :
  (∀ m p, undo_move m (do_move m p) = p) →
  play_simulation fuel s pos node = Some (s', pos', r) →
  pos' = pos ∧ key pos' = key pos ∧
  side_to_move pos' = side_to_move pos ∧
  ∃ tr, calls s' = calls s ++ tr ∧ moves_nest [] tr = true.
Proof.
  intros Hundo Hp.
  assert (pos' = pos) as ->.
  { eapply descent_position; [done|].
    eapply play_simulation_descent, Hp. }
  repeat split.
  apply play_simulation_calls in Hp as (tr & Hcalls & Htr).
  exists tr. split; [done|].
  rewrite <- (app_nil_r tr). by rewrite (moves_nest_descent _ _ _ _ _ _ Htr).
Qed.

Lemma descent_tt s (pos : Position) node s' pos' r :
  descent s pos node s' pos' r → tt s' !! key pos = Some node.
Proof. destruct 1; apply tt_on_exit. Qed.



Lemma Qlt_bool_iff a b : Qlt_bool a b = true ↔ (a < b)%Q.
Proof.
  unfold Qlt_bool. rewrite negb_true_iff. split.
  - intros Hle. apply Qnot_le_lt. intros Hba.
    apply Qle_bool_iff in Hba. congruence.
  - intros Hlt. destruct (Qle_bool b a) eqn:Hle; [|done].
    apply Qle_bool_iff in Hle. by apply Qlt_not_le in Hlt.
Qed.

Lemma should_resign_iff (rootstate : Position) bestscore visits :
  should_resign rootstate bestscore visits = true ↔
  (bestscore < inject_Z cfg_resignpct / 100)%Q ∧ (500 < visits)%Z ∧
  (cfg_min_resign_moves < game_ply rootstate)%Z.
Proof.
  unfold should_resign.
  rewrite !andb_true_iff, Qlt_bool_iff, !Z.ltb_lt. tauto.
Qed.


(** C7.  If the first root child, after sorting and the optional
    randomization, has no visits, [get_best_move] returns the move of that
    very child. *)
Theorem unvisited_best_move_is_returned
        (rootstate : Position) s s1 first first_node :
  best_first rootstate s = Some s1 →
  get_first_child m_root s1 = Some first →
  nodes s1 !! first = Some first_node →
  m_visits first_node = 0%Z →
  get_best_move rootstate s = Some (s1, m_move first_node).
Proof.
  intros Hbest Hfirst Hnode Hvisits.
  unfold get_best_move. rewrite Hbest. simpl. rewrite Hfirst. simpl.
  rewrite Hnode. simpl. unfold first_visit. by rewrite Hvisits.
Qed.

End Claims.

(** ** The claims on the small game *)

Section ToyClaims.
#[local] Existing Instance toy_rules.
#[local] Existing Instance toy_network.
#[local] Existing Instance toy_parameters.
#[local] Existing Instance toy_randomness.

Lemma terminal_leaf_result_witness :
  is_Some (nodes toy_fresh !! 0) ∧
  has_children 0 toy_fresh = false ∧
  terminal [3; 2]%Z = true ∧
  ∃ s' e,
    play_simulation 1 toy_fresh [3; 2]%Z 0
    = Some (s', [3; 2]%Z, Evaluation e) ∧
    (e == 0)%Q ∧ (for_side WHITE e == 0)%Q.
Proof.
  assert (is_Some (nodes toy_fresh !! 0)) as H1 by (by eexists).
  assert (has_children 0 toy_fresh = false) as H2 by reflexivity.
  assert (terminal [3; 2]%Z = true) as H3 by reflexivity.
  split; [exact H1|]. split; [exact H2|]. split; [exact H3|].
  destruct (terminal_leaf_result 0 toy_fresh [3; 2]%Z 0 H1 H2 H3)
    as (s' & e & Hp & _ & He & Hm).
  exists s', e. split; [exact Hp|]. split; [exact He|].
  apply Hm. reflexivity.
Defined.

(** C1 as stated fails: with Black to move and checkmated, the descent
    returns evaluation 1, not 0. *)
Lemma checkmate_of_black_scores_one :
  terminal [1%Z] = true ∧ is_draw [1%Z] = false ∧
  checkers [1%Z] ≠ 0%Z ∧ side_to_move [1%Z] = BLACK ∧
  ∃ s' e,
    play_simulation 1 toy_fresh [1%Z] 0 = Some (s', [1%Z], Evaluation e) ∧
    (e == 1)%Q ∧ ¬ (e == 0)%Q.
Proof.
  repeat split; try done.
  eexists _, _. split; [vm_compute; reflexivity|]. split; done.
Qed.

Lemma backup_passes_evaluation_unchanged_witness :
  ∃ s',
    play_simulation 3 toy_expanded [] 0 = Some (s', [], Evaluation (1 # 4)) ∧
    well_formed (nodes toy_expanded) = true ∧
    (∃ tr, calls s' = calls toy_expanded ++ tr ∧
           CallUpdate 0 (1 # 4) ∈ tr ∧
           ∀ n e', CallUpdate n e' ∈ tr → e' = 1 # 4) ∧
    (∃ n0 n1,
        nodes (on_entry [] 0 toy_expanded) !! 0 = Some n0 ∧
        nodes s' !! 0 = Some n1 ∧
        m_visits n1 = (m_visits n0 + 1)%Z ∧
        m_evals n1 = (m_evals n0 + (1 # 4))%Q).
Proof.
  eexists. split; [vm_compute; reflexivity|].
  split; [reflexivity|].
  edestruct (backup_passes_evaluation_unchanged 3 toy_expanded [] 0)
    as [Hcalls Hnode]; [vm_compute; reflexivity|].
  split; [exact Hcalls|]. apply Hnode. reflexivity.
Defined.

(** C2 as stated fails: the descent through the root into the child of
    move 2 expands that child, whose call returns evaluation 1/4; the
    child is updated with 1/4 and the root, one level up, is updated with
    the same 1/4 and not with 1 - 1/4: its eval_sum goes from 1/4 to
    1/4 + 1/4. *)
Lemma root_is_updated_with_child_evaluation :
  ∃ s',
    play_simulation 3 toy_expanded [] 0 = Some (s', [], Evaluation (1 # 4)) ∧
    calls s' = [CallSync 0 0; CallVirtualLoss 0; CallDoMove 2;
                CallSync 1 2; CallVirtualLoss 2; CallCreateChildren 2 true;
                CallUpdate 2 (1 # 4); CallVirtualLossUndo 2;
                CallTTUpdate 1 2; CallUndoMove 2;
                CallUpdate 0 (1 # 4); CallVirtualLossUndo 0;
                CallTTUpdate 0 0] ∧
    m_evals <$> nodes toy_expanded !! 0 = Some (1 # 4) ∧
    m_evals <$> nodes s' !! 0 = Some ((1 # 4) + (1 # 4))%Q ∧
    (CallUpdate 0 (1 - (1 # 4)) ∉ calls s') ∧
    ¬ (1 # 4 == 1 - (1 # 4))%Q.
Proof.
  eexists. split; [vm_compute; reflexivity|].
  split; [reflexivity|]. split; [reflexivity|]. split; [reflexivity|].
  split; [|done].
  simpl. rewrite !not_elem_of_cons. repeat split; try done.
  apply not_elem_of_nil.
Qed.

Lemma toy_thread_calls_complete : thread_calls toy_thread_calls.
Proof.
  rewrite <- (app_nil_r toy_thread_calls).
  eapply (thread_descent 0%Z 0 (Evaluation 1)); [|constructor].
  apply (calls_child 0%Z 0 1%Z 1%Z 1). apply calls_terminal.
Defined.

Lemma toy_interleaved_calls_interleaving :
  interleaving [toy_thread_calls; toy_thread_calls] toy_interleaved_calls.
Proof.
  unfold toy_interleaved_calls.
  eapply (interleaving_next _ 0); [reflexivity|]. simpl.
  eapply (interleaving_next _ 1); [reflexivity|]. simpl.
  eapply (interleaving_next _ 0); [reflexivity|]. simpl.
  eapply (interleaving_next _ 0); [reflexivity|]. simpl.
  eapply (interleaving_next _ 1); [reflexivity|]. simpl.
  eapply (interleaving_next _ 0); [reflexivity|]. simpl.
  eapply (interleaving_next _ 1); [reflexivity|]. simpl.
  eapply (interleaving_next _ 1); [reflexivity|]. simpl.
  eapply (interleaving_next _ 0); [reflexivity|]. simpl.
  eapply (interleaving_next _ 1); [reflexivity|]. simpl.
  eapply (interleaving_next _ 0); [reflexivity|]. simpl.
  eapply (interleaving_next _ 0); [reflexivity|]. simpl.
  eapply (interleaving_next _ 1); [reflexivity|]. simpl.
  eapply (interleaving_next _ 0); [reflexivity|]. simpl.
  eapply (interleaving_next _ 0); [reflexivity|]. simpl.
  eapply (interleaving_next _ 1); [reflexivity|]. simpl.
  eapply (interleaving_next _ 0); [reflexivity|]. simpl.
  eapply (interleaving_next _ 1); [reflexivity|]. simpl.
  eapply (interleaving_next _ 1); [reflexivity|]. simpl.
  eapply (interleaving_next _ 0); [reflexivity|]. simpl.
  eapply (interleaving_next _ 1); [reflexivity|]. simpl.
  eapply (interleaving_next _ 0); [reflexivity|]. simpl.
  eapply (interleaving_next _ 1); [reflexivity|]. simpl.
  eapply (interleaving_next _ 1); [reflexivity|]. simpl.
  apply interleaving_done. repeat constructor.
Defined.



Lemma descent_restores_position_witness :
  (∀ m p, undo_move m (do_move m p) = p) ∧
  ∃ s',
    play_simulation 3 toy_expanded [] 0 = Some (s', [], Evaluation (1 # 4)) ∧
    ∃ tr, calls s' = calls toy_expanded ++ tr ∧ moves_nest [] tr = true.
Proof.
  assert (∀ (m : Z) (p : list Z), undo_move m (do_move m p) = p) as Hundo
    by reflexivity.
  split; [exact Hundo|].
  eexists. split; [vm_compute; reflexivity|].
  eapply (descent_restores_position 3 toy_expanded [] 0 _ [] _ Hundo).
  vm_compute. reflexivity.
Defined.




Lemma unvisited_best_move_is_returned_witness :
  best_first [3; 2]%Z toy_unvisited = Some toy_unvisited ∧
  get_first_child m_root toy_unvisited = Some 1 ∧
  nodes toy_unvisited !! 1 = Some (new_node 7 1) ∧
  m_visits (new_node 7 1) = 0%Z ∧
  get_best_move [3; 2]%Z toy_unvisited
  = Some (toy_unvisited, m_move (new_node 7 1)).
Proof.
  assert (best_first [3; 2]%Z toy_unvisited = Some toy_unvisited) as H1
    by (vm_compute; reflexivity).
  assert (get_first_child m_root toy_unvisited = Some 1) as H2
    by reflexivity.
  assert (nodes toy_unvisited !! 1 = Some (new_node 7 1)) as H3
    by reflexivity.
  assert (m_visits (new_node 7 1) = 0%Z) as H4 by reflexivity.
  split; [exact H1|]. split; [exact H2|]. split; [exact H3|].
  split; [exact H4|].
  exact (unvisited_best_move_is_returned [3; 2]%Z toy_unvisited toy_unvisited
           1 (new_node 7 1) H1 H2 H3 H4).
Defined.

End ToyClaims.

Section ToyClaimsAtTheBound.
#[local] Existing Instance toy_rules.
#[local] Existing Instance toy_network.
#[local] Existing Instance toy_full_tree.
#[local] Existing Instance toy_randomness.

Lemma no_expansion_at_the_bound_witness :
  (is_Some (nodes toy_fresh !! 0) ∧
   has_children 0 toy_fresh = false ∧
   terminal ([] : list Z) = false ∧
   (MAX_TREE_SIZE ≤ m_nodes toy_fresh)%Z ∧
   ∃ s',
     play_simulation 1 toy_fresh [] 0 = Some (s', [], Evaluation (1 # 3)) ∧
     calls s' = [CallSync 0 0; CallVirtualLoss 0; CallEvalState 0;
                 CallUpdate 0 (1 # 3); CallVirtualLossUndo 0;
                 CallTTUpdate 0 0] ∧
     shape s' = shape toy_fresh ∧ m_nodes s' = m_nodes toy_fresh) ∧
  (∃ s' tr,
      play_simulation 3 toy_expanded [] 0
      = Some (s', [], Evaluation (1 # 3)) ∧
      calls s' = calls toy_expanded ++ tr ∧
      (MAX_TREE_SIZE ≤ m_nodes toy_expanded)%Z ∧
      count_calls is_create_children tr = 0 ∧
      shape s' = shape toy_expanded ∧ m_nodes s' = m_nodes toy_expanded).
Proof.
  destruct (no_expansion_at_the_bound (Position := list Z))
    as (Hleaf & Hany).
  split.
  - assert (is_Some (nodes toy_fresh !! 0)) as H1 by (by eexists).
    assert (has_children 0 toy_fresh = false) as H2 by reflexivity.
    assert (terminal ([] : list Z) = false) as H3 by reflexivity.
    assert (MAX_TREE_SIZE ≤ m_nodes toy_fresh)%Z as H4 by (simpl; lia).
    split; [exact H1|]. split; [exact H2|]. split; [exact H3|].
    split; [exact H4|].
    exact (Hleaf 0 toy_fresh [] 0 H1 H2 H3 H4).
  - eexists _, _. split; [vm_compute; reflexivity|].
    split; [simpl; reflexivity|].
    assert (MAX_TREE_SIZE ≤ m_nodes toy_expanded)%Z as H4 by (simpl; lia).
    split; [exact H4|].
    eapply (Hany 3 toy_expanded [] 0); [vm_compute; reflexivity|reflexivity|].
    exact H4.
Defined.

End ToyClaimsAtTheBound.

Section ToyClaimsWithoutNetwork.
#[local] Existing Instance toy_rules.
#[local] Existing Instance toy_no_network.
#[local] Existing Instance toy_parameters.
#[local] Existing Instance toy_randomness.



End ToyClaimsWithoutNetwork.

(** ** Further properties of the search *)

Section LoopFacts.
Context {Position : Type} `{!RulesEngine Position} `{!Evaluator Position}
        `{!Parameters} `{!Randomness}.

Lemma sum_in_loop_insert (l : list bool) i (b : bool) :
  l !! i = Some true →
  sum_list_with (λ b : bool, if b then 1 else 0) (<[i := b]> l)
  + (if b then 0 else 1)
  = sum_list_with (λ b : bool, if b then 1 else 0) l.
Proof.
  revert i. induction l as [|x l IH]; intros [|i] Hi; simpl in *; try done.
  - injection Hi as ->. destruct b; lia.
  - specialize (IH i Hi). lia.
Qed.

Lemma sum_in_loop_replicate n :
  sum_list_with (λ b : bool, if b then 1 else 0) (replicate n true) = n.
Proof. induction n as [|n IH]; simpl; [done|]. by rewrite IH. Qed.

Lemma threads_in_loop_le w :
  threads_in_loop w ≤ S (length (workers_in_loop w)).
Proof.
  unfold threads_in_loop.
  assert (sum_list_with (λ b : bool, if b then 1 else 0) (workers_in_loop w)
          ≤ length (workers_in_loop w)) as Hle.
  { induction (workers_in_loop w) as [|[|] l IH]; simpl; lia. }
  destruct (main_in_loop w); lia.
Qed.

(** The loop condition of every loop, as a function of the state after
    the body. *)
Lemma iteration_again mode (rootstate : Position) t pending s s' r again :
  iteration mode rootstate t pending s = Some (s', r, again) →
  again = match t, mode with
          | MainThread, Ponder => negb pending && m_run s'
          | _, _ => m_run s' && negb (m_maxplayouts s' <=? m_playouts s')%Z
          end.
Proof.
  unfold iteration, think_iteration, ponder_iteration, worker_iteration,
    is_running, playout_limit_reached.
  intros Hi.
  destruct (descend_and_count rootstate s) as [[s1 r1]|]; simpl in Hi;
    [|by destruct t, mode].
  destruct t, mode; by injection Hi as <- <- <-.
Qed.

(** What a step does to the members of the search and to the loops. *)
Lemma step_loop mode (rootstate : Position) a w w' :
  step mode rootstate a w = Some w' →
  (main_in_loop w' = main_in_loop w ∧
   workers_in_loop w' = workers_in_loop w ∧
   nodes (search w') = nodes (search w) ∧
   m_nodes (search w') = m_nodes (search w) ∧
   m_playouts (search w') = m_playouts (search w) ∧
   m_maxplayouts (search w') = m_maxplayouts (search w) ∧
   m_run (search w')
   = (if is_external_stop a then false else m_run (search w)) ∧
   input_pending w' = (if is_input a then true else input_pending w) ∧
   (∀ t, in_loop t w' = in_loop t w) ∧
   (∀ t, a = Turn t → in_loop t w = false)) ∨
  (∃ t s' r again,
      a = Turn t ∧ in_loop t w = true ∧
      iteration mode rootstate t (input_pending w) (search w)
        = Some (s', r, again) ∧
      nodes (search w') = nodes s' ∧
      m_nodes (search w') = m_nodes s' ∧
      m_playouts (search w') = m_playouts s' ∧
      m_maxplayouts (search w') = m_maxplayouts s' ∧
      m_run (search w')
      = match t with
        | MainThread => again && m_run s'
        | WorkerThread _ => m_run s'
        end ∧
      input_pending w' = input_pending w ∧
      main_in_loop w'
      = match t with
        | MainThread => again
        | WorkerThread _ => main_in_loop w
        end ∧
      length (workers_in_loop w') = length (workers_in_loop w) ∧
      threads_in_loop w' + (if again then 0 else 1) = threads_in_loop w ∧
      in_loop t w' = again ∧
      (∀ t', t' ≠ t → in_loop t' w' = in_loop t' w)).
Proof.
  intros Hs. destruct a as [[|i]| |]; simpl in Hs.
  - destruct (main_in_loop w) eqn:Hmain.
    2:{ left. simplify_eq. repeat split; try done. by intros t [= <-]. }
    right.
    destruct (match mode with
              | Think => think_iteration rootstate (search w)
              | Ponder => ponder_iteration rootstate (input_pending w)
                                           (search w)
              end) as [[[s' r] again]|] eqn:Hit; [|done].
    simpl in Hs. injection Hs as <-.
    exists MainThread, s', r, again. unfold threads_in_loop. simpl.
    rewrite Hmain.
    repeat split; try done; try by destruct again.
    + destruct again; simpl; lia.
    + intros [|j] Hne; done.
  - destruct (workers_in_loop w !! i) as [[|]|] eqn:Hw.
    2,3: left; simplify_eq; repeat split; try done;
         intros t [= <-]; simpl; rewrite Hw; by apply bool_decide_eq_false.
    right.
    destruct (worker_iteration rootstate (search w))
      as [[[s' r] again]|] eqn:Hit; [|done].
    simpl in Hs. injection Hs as <-.
    exists (WorkerThread i), s', r, again. unfold threads_in_loop. simpl.
    repeat split; try done.
    + by apply bool_decide_eq_true.
    + apply length_insert.
    + rewrite <- (sum_in_loop_insert _ i again Hw). lia.
    + rewrite list_lookup_insert_eq by (by eapply lookup_lt_Some).
      by destruct again.
    + intros [|j] Hne; [done|]. simpl.
      rewrite list_lookup_insert_ne by congruence. done.
  - left. by simplify_eq.
  - left. by simplify_eq.
Qed.

(** A property of the world kept by every step of a schedule whose
    actions satisfy [allowed] is kept by the schedule. *)
Lemma run_invariant (allowed : Action → bool) (P : World → Prop)
      mode (rootstate : Position) sched w w' :
  (∀ a w1 w2, allowed a = true → P w1 →
              step mode rootstate a w1 = Some w2 → P w2) →
  forallb allowed sched = true →
  P w → run mode rootstate sched w = Some w' → P w'.
Proof.
  intros Hstep. revert w.
  induction sched as [|a sched IH]; intros w Hall Hw Hr; simpl in *.
  - by simplify_eq.
  - apply andb_true_iff in Hall as [Ha Hall].
    destruct (step mode rootstate a w) as [w1|] eqn:Hs; [|done].
    simpl in Hr. eapply IH; [done| |done]. by eapply Hstep.
Qed.

Lemma forallb_true {A} (l : list A) : forallb (λ _, true) l = true.
Proof. by induction l. Qed.

Lemma think_search_run sched (rootstate : Position) s w :
  think_search sched rootstate s = Some w →
  m_playouts s = 0%Z ∧ m_nodes s = 0%Z ∧
  ∃ s1 o,
    create_children m_root rootstate s = (s1, o) ∧
    run Think rootstate sched
        (start_search (if cfg_noise then dirichlet_noise (1 / 4) s1 else s1))
    = Some w.
Proof.
  unfold think_search. intros Ht.
  destruct (m_playouts s =? 0)%Z eqn:Hp; [|done].
  destruct (m_nodes s =? 0)%Z eqn:Hn; [|done]. simpl in Ht.
  apply Z.eqb_eq in Hp, Hn.
  destruct (create_children m_root rootstate s) as [s1 o] eqn:Hc.
  eauto 10.
Qed.

Lemma members_dirichlet_noise eps s :
  m_playouts (dirichlet_noise eps s) = m_playouts s ∧
  m_maxplayouts (dirichlet_noise eps s) = m_maxplayouts s ∧
  m_nodes (dirichlet_noise eps s) = m_nodes s ∧
  m_run (dirichlet_noise eps s) = m_run s ∧
  tt (dirichlet_noise eps s) = tt s.
Proof.
  unfold dirichlet_noise. by destruct (nodes s !! m_root).
Qed.

(** The members of the search when the loops of [think] start. *)
Lemma think_search_members sched (rootstate : Position) s w :
  think_search sched rootstate s = Some w →
  ∃ s0, run Think rootstate sched (start_search s0) = Some w ∧
        m_playouts s0 = 0%Z ∧ m_maxplayouts s0 = m_maxplayouts s.
Proof.
  intros (Hp & Hn & s1 & o & Hc & Hrun)%think_search_run.
  eexists. split; [exact Hrun|].
  apply create_children_spec in Hc as (_ & Hp1 & _ & Hm1 & _).
  destruct cfg_noise.
  - destruct (members_dirichlet_noise (1 / 4) s1) as (-> & -> & _).
    split; congruence.
  - split; congruence.
Qed.

Lemma iteration_members mode (rootstate : Position) t pending s s' r again :
  iteration mode rootstate t pending s = Some (s', r, again) →
  (m_playouts s ≤ m_playouts s' ≤ m_playouts s + 1)%Z ∧
  m_run s' = m_run s ∧ m_maxplayouts s' = m_maxplayouts s.
Proof.
  intros Hit. apply iteration_spec in Hit as (Hdc & _).
  apply descend_and_count_facts in Hdc as (Hp & Hr & Hm & _).
  split; [destruct (valid r); lia|done].
Qed.


(** No thread sets the run flag again: once false it stays false. *)
Lemma step_run_flag_off mode (rootstate : Position) a w w' :
  step mode rootstate a w = Some w' →
  m_run (search w) = false → m_run (search w') = false.
Proof.
  intros Hs Hoff.
  apply step_loop in Hs
    as [(_ & _ & _ & _ & _ & _ & Hr & _)
       |(t & s' & r & again & -> & _ & Hit & _ & _ & _ & _ & Hr & _)].
  - rewrite Hr, Hoff. by destruct (is_external_stop a).
  - apply iteration_members in Hit as (_ & Hrs & _).
    rewrite Hr, Hrs, Hoff. destruct t; [apply andb_false_r|done].
Qed.

(** When the caller has left its loop the run flag is false. *)
Lemma run_caller_left mode (rootstate : Position) sched s w :
  run mode rootstate sched (start_search s) = Some w →
  main_in_loop w = false → m_run (search w) = false.
Proof.
  intros Hrun.
  eapply (run_invariant (λ _, true)
            (λ w, main_in_loop w = false → m_run (search w) = false));
    [|apply forallb_true| |exact Hrun]; [|done].
  intros a w1 w2 _ Hinv Hs Hleft.
  pose proof (step_run_flag_off _ _ _ _ _ Hs) as Hoff.
  apply step_loop in Hs
    as [(Hmain & _)
       |(t & s' & r & again & -> & _ & Hit & _ & _ & _ & _ & Hr & _ & Hmain
         & _)].
  - apply Hoff, Hinv. congruence.
  - destruct t.
    + rewrite Hr. rewrite Hmain in Hleft. by rewrite Hleft.
    + apply Hoff, Hinv. congruence.
Qed.

Lemma run_cons mode (rootstate : Position) a sched w :
  run mode rootstate (a :: sched) w
  = step mode rootstate a w ≫= run mode rootstate sched.
Proof. done. Qed.

(** With the run flag off, the workers leave their loops one turn each. *)
Lemma run_workers_leave mode (rootstate : Position) k j w w' :
  m_run (search w) = false →
  run mode rootstate (Turn ∘ WorkerThread <$> seq j k) w = Some w' →
  (∀ i, i < j → in_loop (WorkerThread i) w = false) →
  (∀ i, i < j + k → in_loop (WorkerThread i) w' = false) ∧
  main_in_loop w' = main_in_loop w ∧
  length (workers_in_loop w') = length (workers_in_loop w).
Proof.
  revert j w. induction k as [|k IH]; intros j w Hoff Hrun Hleft.
  - simpl in *. simplify_eq. split; [|done]. intros i Hi. apply Hleft. lia.
  - change (seq j (S k)) with (j :: seq (S j) k) in Hrun.
    rewrite fmap_cons, run_cons in Hrun.
    change ((Turn ∘ WorkerThread) j) with (Turn (WorkerThread j)) in Hrun.
    destruct (step mode rootstate (Turn (WorkerThread j)) w) as [w1|] eqn:Hs;
      [|done].
    change (run mode rootstate (Turn ∘ WorkerThread <$> seq (S j) k) w1
            = Some w') in Hrun.
    pose proof (step_run_flag_off _ _ _ _ _ Hs Hoff) as Hoff1.
    assert ((∀ i, i < S j → in_loop (WorkerThread i) w1 = false) ∧
            main_in_loop w1 = main_in_loop w ∧
            length (workers_in_loop w1) = length (workers_in_loop w))
      as (Hleft1 & Hmain1 & Hlen1).
    { apply step_loop in Hs
        as [(Hmain & Hw & _ & _ & _ & _ & _ & _ & Hin & Hidle)
           |(t & s' & r & again & [= <-] & Hin & Hit & _ & _ & _ & _ & _ & _
             & Hmain & Hlen & _ & Hagain & Hother)].
      - split; [|by rewrite Hmain, Hw].
        intros i Hi. rewrite Hin.
        destruct (decide (i = j)) as [->|Hne]; [by apply Hidle|].
        apply Hleft. lia.
      - split; [|done].
        intros i Hi. destruct (decide (i = j)) as [->|Hne].
        + rewrite Hagain.
          pose proof (iteration_again _ _ _ _ _ _ _ _ Hit) as Ha.
          apply iteration_members in Hit as (_ & Hrs & _).
          rewrite Ha, Hrs, Hoff. done.
        + rewrite Hother by congruence. apply Hleft. lia. }
    destruct (IH (S j) w1 Hoff1 Hrun Hleft1) as (Hall & Hmain & Hlen).
    split; [|split; congruence].
    intros i Hi. apply Hall. lia.
Qed.


Lemma joined_spec w :
  joined w = true ↔
  main_in_loop w = false ∧
  ∀ i, i < length (workers_in_loop w) → in_loop (WorkerThread i) w = false.
Proof.
  unfold joined. rewrite andb_true_iff, negb_true_iff. simpl.
  assert (forallb negb (workers_in_loop w) = true ↔
          ∀ i, i < length (workers_in_loop w) →
               bool_decide (workers_in_loop w !! i = Some true) = false)
    as ->; [|done].
  induction (workers_in_loop w) as [|b l IH]; simpl.
  - split; [intros _ i Hi; lia|done].
  - rewrite andb_true_iff, IH. split.
    + intros [Hb Hl] [|i] Hi; simpl.
      * apply bool_decide_eq_false. destruct b; [done|]. by intros [=].
      * apply Hl. lia.
    + intros Hall. split.
      * specialize (Hall 0 ltac:(lia)). simpl in Hall.
        apply bool_decide_eq_false in Hall. destruct b; [|done].
        by destruct Hall.
      * intros i Hi. apply (Hall (S i)). lia.
Qed.

(** Every action of a schedule adds at most one descent, so at most one
    playout. *)
Lemma run_length mode (rootstate : Position) sched w w' :
  run mode rootstate sched w = Some w' →
  length (descents w') ≤ length (descents w) + length sched ∧
  (m_playouts (search w')
   ≤ m_playouts (search w) + Z.of_nat (length sched))%Z.
Proof.
  revert w. induction sched as [|a sched IH]; intros w Hr.
  - simpl in *. simplify_eq. lia.
  - rewrite run_cons in Hr.
    destruct (step mode rootstate a w) as [w1|] eqn:Hs; [|done].
    apply IH in Hr as [Hd Hp].
    pose proof Hs as Hs'.
    apply step_cases in Hs
      as [(Hd1 & _)|(t & s' & r & again & _ & _ & _ & Hd1 & _)];
      apply step_loop in Hs'
        as [(_ & _ & _ & _ & Hp1 & _)
           |(t' & s'' & r' & again' & _ & _ & Hit & _ & _ & Hp1 & _)];
      try apply iteration_members in Hit as (Hpl & _);
      rewrite Hd1 in Hd; rewrite ?length_app in Hd; simpl in *; lia.
Qed.

(** Unless it is stopped from outside, no thread of [think] leaves its
    loop before the playout budget is met. *)
Lemma run_budget_met (rootstate : Position) sched s0 w :
  forallb (λ a, negb (is_external_stop a)) sched = true →
  run Think rootstate sched (start_search s0) = Some w →
  (m_maxplayouts s0 ≤ m_playouts (search w))%Z ∨
  (∀ t, spawned t w = true → in_loop t w = true).
Proof.
  intros Hsched Hrun.
  pose (P := λ w : World,
    m_maxplayouts (search w) = m_maxplayouts s0 ∧
    ((m_maxplayouts s0 ≤ m_playouts (search w))%Z ∨
     (m_run (search w) = true ∧
      ∀ t, spawned t w = true → in_loop t w = true))).
  assert (P w) as (_ & [?|[_ ?]]); [|by left|by right].
  eapply (run_invariant _ P); [|exact Hsched| |exact Hrun].
  - intros a w1 w2 Ha (Hm & Hb) Hs. unfold P.
    apply step_loop in Hs
      as [(_ & Hw & _ & _ & Hp & Hmax & Hr & _ & Hin & _)
         |(t & s' & r & again & -> & Hint & Hit & _ & _ & Hp & Hmax & Hr & _
           & _ & Hlen & _ & Hagain & Hother)].
    + rewrite Hmax, Hp. split; [done|].
      destruct Hb as [?|[Hrun1 Hall]]; [by left|right].
      apply negb_true_iff in Ha. rewrite Hr, Ha. split; [done|].
      intros t Hsp. rewrite Hin. apply Hall.
      destruct t; [done|]. simpl in *. by rewrite <- Hw.
    + pose proof (iteration_again _ _ _ _ _ _ _ _ Hit) as Hcond.
      apply iteration_members in Hit as (Hpl & Hrs & Hmx).
      rewrite Hmax, Hmx, Hp. split; [done|].
      destruct Hb as [?|[Hrun1 Hall]]; [left; lia|].
      assert (again = negb (m_maxplayouts s' <=? m_playouts s')%Z) as Ha'.
      { rewrite Hrs, Hrun1 in Hcond. by destruct t. }
      destruct again.
      * right. split.
        { rewrite Hr, Hrs, Hrun1. by destruct t. }
        intros t' Hsp.
        destruct (decide (t' = t)) as [->|Hne]; [done|].
        rewrite Hother by done. apply Hall.
        destruct t'; [done|]. simpl in *. by rewrite <- Hlen.
      * left. symmetry in Ha'. apply negb_false_iff, Z.leb_le in Ha'. lia.
  - split; [done|]. right. split; [done|].
    intros [|i] Hsp; [done|]. simpl in *.
    apply bool_decide_eq_true in Hsp. apply bool_decide_eq_true.
    rewrite length_replicate in Hsp. by apply lookup_replicate_2.
Qed.

(** Unless input arrives or it is stopped from outside, the caller of
    [ponder] stays in its loop. *)
Lemma run_ponder_goes_on (rootstate : Position) sched s0 w :
  forallb (λ a, negb (is_external_stop a) && negb (is_input a)) sched
  = true →
  run Ponder rootstate sched (start_search s0) = Some w →
  main_in_loop w = true ∧ m_run (search w) = true ∧ input_pending w = false.
Proof.
  intros Hsched Hrun.
  eapply (run_invariant _
            (λ w, main_in_loop w = true ∧ m_run (search w) = true ∧
                  input_pending w = false));
    [|exact Hsched| |exact Hrun]; [|done].
  intros a w1 w2 Ha (Hmain & Hr1 & Hin1) Hs.
  apply andb_true_iff in Ha as [Hstop Hinput].
  apply negb_true_iff in Hstop, Hinput.
  apply step_loop in Hs
    as [(Hm & _ & _ & _ & _ & _ & Hr & Hp & _)
       |(t & s' & r & again & -> & Hint & Hit & _ & _ & _ & _ & Hr & Hp
         & Hm & _)].
  - rewrite Hm, Hr, Hp, Hstop, Hinput. done.
  - pose proof (iteration_again _ _ _ _ _ _ _ _ Hit) as Hcond.
    apply iteration_members in Hit as (_ & Hrs & _).
    rewrite Hm, Hr, Hp, Hrs, Hr1. destruct t; [|done].
    rewrite Hin1, Hrs, Hr1 in Hcond.
    simpl in Hcond. subst again.
    by rewrite Hcond.
Qed.


(** The playout counter of [think] stays within the budget up to one
    playout per thread that has left its loop. *)
Lemma run_overshoot (rootstate : Position) sched s0 w :
  run Think rootstate sched (start_search s0) = Some w →
  m_playouts s0 = 0%Z →
  length (workers_in_loop w) = Z.to_nat (cfg_num_threads - 1) ∧
  (m_playouts (search w) + Z.of_nat (threads_in_loop w)
   ≤ Z.max (m_maxplayouts s0) 1 + Z.of_nat (length (workers_in_loop w)))%Z.
Proof.
  intros Hrun Hp0.
  pose (P := λ w : World,
    m_maxplayouts (search w) = m_maxplayouts s0 ∧
    length (workers_in_loop w) = Z.to_nat (cfg_num_threads - 1) ∧
    (m_playouts (search w) + Z.of_nat (threads_in_loop w)
     ≤ Z.max (m_maxplayouts s0) 1 + Z.of_nat (length (workers_in_loop w)))%Z).
  assert (P w) as (_ & Hlen & Hbound); [|done].
  eapply (run_invariant (λ _, true) P); [|apply forallb_true| |exact Hrun].
  - intros a w1 w2 _ (Hm & Hl & Hb) Hs.
    apply step_loop in Hs
      as [(Hmain & Hw & _ & _ & Hp & Hmax & _)
         |(t & s' & r & again & -> & Hin & Hit & _ & _ & Hp & Hmax & _ & _
           & _ & Hl' & Hk & _)].
    + unfold P, threads_in_loop in *. rewrite Hmain, Hw, Hp, Hmax. done.
    + pose proof (iteration_again _ _ _ _ _ _ _ _ Hit) as Hagain.
      apply iteration_members in Hit as (Hpl & _ & Hmx).
      unfold P. rewrite Hmax, Hmx, Hp, Hl'. split; [done|]. split; [done|].
      assert (again = m_run s'
                      && negb (m_maxplayouts s' <=? m_playouts s')%Z)
        as Hcond by (by destruct t).
      destruct again.
      * symmetry in Hcond. apply andb_true_iff in Hcond as [_ Hlim].
        apply negb_true_iff, Z.leb_gt in Hlim.
        pose proof (threads_in_loop_le w2) as Hle. rewrite Hl' in Hle.
        lia.
      * lia.
  - unfold P, threads_in_loop. simpl.
    rewrite sum_in_loop_replicate, length_replicate. split; [done|].
    split; [done|]. lia.
Qed.

End LoopFacts.

Section LoopProperties.
Context {Position : Type} `{!RulesEngine Position} `{!Evaluator Position}
        `{!Parameters} `{!Randomness} `{!PlayoutType}.

(** X1.  [think] overshoots its playout budget by at most one playout per
    worker: under every schedule of its threads the playout counter never
    exceeds the larger of the limit and 1, plus the number of workers
    (cfg_num_threads - 1).  With no worker the counter never passes a
    positive limit. *)
Theorem think_overshoots_by_at_most_the_workers
        sched (rootstate : Position) s :
  well_formed (nodes s) = true → 0 < length (nodes s) →
  m_playouts s = 0%Z → m_nodes s = 0%Z →
  ∃ w, think_search sched rootstate s = Some w ∧
       (m_playouts (search w)
        ≤ Z.max (m_maxplayouts s) 1 + Z.max (cfg_num_threads - 1) 0)%Z.
Proof.
  intros Hwf Hroot Hp Hn.
  destruct (think_search_total sched rootstate s Hwf Hroot Hp Hn) as [w Hw].
  exists w. split; [done|].
  apply think_search_members in Hw as (s0 & Hrun & Hp0 & Hm0).
  apply run_overshoot in Hrun as [Hlen Hbound]; [|done].
  rewrite Hm0, Hlen in Hbound. lia.
Qed.


(** X3.  Once the caller of [think] or [ponder] has left its loop the run
    flag is false, no thread sets it again, and every worker leaves its
    loop at the end of the iteration it is in: after one more turn of
    each worker all threads have left, so [tg.wait_all()] waits for at
    most one more descent per worker. *)
Theorem workers_leave_after_the_caller
        mode sched (rootstate : Position) s w :
  well_formed (nodes s) = true → 0 < length (nodes s) →
  run mode rootstate sched (start_search s) = Some w →
  main_in_loop w = false →
  m_run (search w) = false ∧
  (∀ a w', step mode rootstate a w = Some w' → m_run (search w') = false) ∧
  ∃ w', run mode rootstate
            (Turn ∘ WorkerThread <$> seq 0 (length (workers_in_loop w))) w
        = Some w' ∧
        joined w' = true ∧
        length (descents w')
        ≤ length (descents w) + length (workers_in_loop w).
Proof.
  intros Hwf Hroot Hrun Hmain.
  pose proof (run_caller_left _ _ _ _ _ Hrun Hmain) as Hoff.
  split; [done|]. split.
  { intros a w' Hs. by eapply step_run_flag_off. }
  apply run_facts in Hrun as (_ & _ & Hwf' & Hlen' & _).
  destruct (run_total mode rootstate
              (Turn ∘ WorkerThread <$> seq 0 (length (workers_in_loop w))) w)
    as [w' Hw']; [by apply Hwf'|simpl in *; lia|].
  exists w'. split; [done|].
  pose proof (run_length _ _ _ _ _ Hw') as [Hd _].
  rewrite length_fmap, length_seq in Hd. split; [|done].
  apply run_workers_leave in Hw' as (Hall & Hm & Hl); [|done|intros; lia].
  apply joined_spec. split; [congruence|].
  intros i Hi. apply Hall. lia.
Qed.

(** X4.  The loop of the caller of [ponder] does not look at the playout
    budget: one of its iterations leaves the loop exactly when input is
    pending or the run flag is false.  So under a schedule in which no
    input arrives and nobody clears the run flag the caller is still in
    its loop and [ponder] has not returned, whatever the playout limit. *)
Theorem ponder_ignores_the_budget :
  (∀ (rootstate : Position) w w',
      main_in_loop w = true →
      step Ponder rootstate (Turn MainThread) w = Some w' →
      main_in_loop w' = negb (input_pending w) && m_run (search w)) ∧
  (∀ sched (rootstate : Position) s,
      well_formed (nodes s) = true → 0 < length (nodes s) →
      m_playouts s = 0%Z → m_nodes s = 0%Z →
      forallb (λ a, negb (is_external_stop a) && negb (is_input a)) sched
      = true →
      ∃ w, ponder_search sched rootstate s = Some w ∧
           main_in_loop w = true ∧ m_run (search w) = true ∧
           ponder sched rootstate s = None).
Proof.
  split.
  - intros rootstate w w' Hmain Hs.
    apply step_loop in Hs
      as [(_ & _ & _ & _ & _ & _ & _ & _ & _ & Hidle)
         |(t & s' & r & again & [= <-] & _ & Hit & _ & _ & _ & _ & _ & _
           & Hm & _)].
    + specialize (Hidle MainThread eq_refl). simpl in Hidle. congruence.
    + pose proof (iteration_again _ _ _ _ _ _ _ _ Hit) as Hcond.
      apply iteration_members in Hit as (_ & Hrs & _).
      by rewrite Hm, Hcond, Hrs.
  - intros sched rootstate s Hwf Hroot Hp Hn Hsched.
    destruct (ponder_search_total sched rootstate s Hwf Hroot Hp Hn)
      as [w Hw].
    exists w. split; [done|].
    pose proof Hw as Hw'.
    apply ponder_search_start in Hw' as [Hrun _].
    apply run_ponder_goes_on in Hrun as (Hmain & Hr & _); [|done].
    split; [done|]. split; [done|].
    unfold ponder. rewrite Hw. simpl. unfold joined. by rewrite Hmain.
Qed.

(** X5.  A playout limit of 0 means no budget: [set_playout_limit(0)]
    makes the limit the largest value of the member's type, so a search
    constructed with cfg_max_playouts = 0 has, under a schedule of
    [think] shorter than that value and without an external stop, every
    thread still in its loop.  With a limit [n >= 1] that the type holds
    and a single thread, [think] never counts more than [n] playouts and
    has counted exactly [n] when it has joined. *)
Theorem playout_limit_zero_is_no_limit sched (rootstate : Position) s :
  well_formed (nodes s) = true → 0 < length (nodes s) →
  m_playouts s = 0%Z → m_nodes s = 0%Z →
  forallb (λ a, negb (is_external_stop a)) sched = true →
  ((Z.of_nat (length sched) < maxplayouts_max)%Z →
   ∃ w, think_search sched rootstate (UCTSearch 0 s) = Some w ∧
        (∀ t, spawned t w = true → in_loop t w = true) ∧
        joined w = false) ∧
  (∀ n, (1 ≤ n)%Z → maxplayouts_of_int n = n → (cfg_num_threads ≤ 1)%Z →
        ∃ w, think_search sched rootstate (set_playout_limit n s) = Some w ∧
             (m_playouts (search w) ≤ n)%Z ∧
             (joined w = true → m_playouts (search w) = n)).
Proof.
  intros Hwf Hroot Hp Hn Hsched.
  assert (∀ n,
    ∃ w s0, think_search sched rootstate (set_playout_limit n s) = Some w ∧
            run Think rootstate sched (start_search s0) = Some w ∧
            m_playouts s0 = 0%Z ∧
            m_maxplayouts s0
            = if (n =? 0)%Z then maxplayouts_max else maxplayouts_of_int n)
    as Hstart.
  { intros n.
    destruct (think_search_total sched rootstate (set_playout_limit n s))
      as [w Hw]; try (unfold set_playout_limit; by destruct (n =? 0)%Z).
    exists w.
    pose proof Hw as (s0 & Hrun & Hp0 & Hm0)%think_search_members.
    exists s0. repeat split; try done.
    rewrite Hm0. unfold set_playout_limit. by destruct (n =? 0)%Z. }
  split.
  - intros Hshort. destruct (Hstart 0%Z) as (w & s0 & Hw & Hrun & Hp0 & Hm0).
    exists w. split; [done|].
    pose proof (run_length _ _ _ _ _ Hrun) as [_ Hle]. simpl in Hle.
    apply run_budget_met in Hrun as [Hmet|Hall]; [| |done].
    { simpl in Hm0. lia. }
    split; [done|].
    destruct (joined w) eqn:Hj; [|done].
    apply joined_spec in Hj as [Hmain _].
    specialize (Hall MainThread eq_refl). simpl in Hall. congruence.
  - intros n Hn1 Hrep Hone.
    destruct (Hstart n) as (w & s0 & Hw & Hrun & Hp0 & Hm0).
    destruct (Z.eqb_spec n 0) as [?|_]; [lia|]. rewrite Hrep in Hm0.
    exists w. split; [done|].
    pose proof (run_overshoot _ _ _ _ Hrun Hp0) as [Hlen Hbound].
    rewrite Hm0, Hlen in Hbound.
    split; [lia|].
    intros [Hmain _]%joined_spec.
    apply run_budget_met in Hrun as [Hmet|Hall]; [| |done].
    + lia.
    + specialize (Hall MainThread eq_refl). simpl in Hall. congruence.
Qed.

End LoopProperties.

Section TreeFacts.
Context {Position : Type} `{!RulesEngine Position} `{!Evaluator Position}
        `{!Parameters} `{!Randomness}.

Local Arguments on_entry : simpl never.
Local Arguments on_exit : simpl never.
Local Arguments call : simpl never.
Local Arguments play_simulation : simpl never.

Lemma nodes_call ev s : nodes (call ev s) = nodes s.
Proof. done. Qed.

Lemma m_nodes_call ev s : m_nodes (call ev s) = m_nodes s.
Proof. done. Qed.

Lemma shape_call ev s : shape (call ev s) = shape s.
Proof. done. Qed.

Lemma descent_calls_evaluations h n r tr :
  descent_calls h n r tr →
  count_calls is_evaluation tr ≤ 1 ∧
  count_calls is_failed_expansion tr = (if valid r then 0 else 1).
Proof.
  induction 1 as [h n e|h n e|h n|h n e|h n mv h' n' r inner Hin [IH1 IH2]];
    try (split; [simpl; lia|done]).
  unfold entry_calls. rewrite !count_calls_app.
  assert (∀ f, (∀ m e, f (CallUpdate m e) = false) →
               (∀ m, f (CallVirtualLossUndo m) = false) →
               (∀ k m, f (CallTTUpdate k m) = false) →
               count_calls f (exit_calls h n r) = 0) as Hexit.
  { intros f H1 H2 H3. destruct r; simpl; by rewrite ?H1, ?H2, ?H3. }
  rewrite !Hexit by done. simpl. lia.
Qed.

Lemma length_on_entry (pos : Position) node s :
  length (nodes (on_entry pos node s)) = length (nodes s).
Proof. by rewrite <- !shape_length, shape_on_entry. Qed.

Lemma length_on_exit (pos : Position) node r s :
  length (nodes (on_exit pos node r s)) = length (nodes s).
Proof. by rewrite <- !shape_length, shape_on_exit. Qed.

Lemma m_nodes_on_exit (pos : Position) node r s :
  m_nodes (on_exit pos node r s) = m_nodes s.
Proof. by destruct r. Qed.

(** What a descent does to the node counter and to the size of the
    store. *)
Lemma descent_m_nodes s (pos : Position) node s' pos' r B :
  (∀ p : Position, length (legal_moves p) ≤ B) →
  descent s pos node s' pos' r →
  (m_nodes s ≤ m_nodes s')%Z ∧
  (m_nodes s' ≤ Z.max (m_nodes s) (MAX_TREE_SIZE - 1 + Z.of_nat B))%Z ∧
  Z.of_nat (length (nodes s'))
  = (Z.of_nat (length (nodes s)) + (m_nodes s' - m_nodes s))%Z.
Proof.
  intros HB.
  induction 1 as [s pos node Hn Hc Ht
                 |s pos node s1 o Hn Hc Ht Hm Hcc r
                 |s pos node Hn Hc Ht Hm
                 |s pos node next move s2 p2 r2 Hn Hc Hsel Hmv Hd IH].
  - rewrite m_nodes_on_exit, length_on_exit, length_on_entry.
    rewrite m_nodes_on_entry. lia.
  - rewrite m_nodes_on_exit, length_on_exit.
    apply create_children_spec in Hcc as (_ & _ & _ & _ & _ & Ho).
    rewrite m_nodes_on_entry in Ho. destruct o as [e|].
    + destruct Ho as (policy & n & _ & _ & _ & Hnodes & Hmn).
      rewrite Hnodes, Hmn, length_app, length_alter, length_map.
      rewrite length_on_entry. specialize (HB pos). lia.
    + destruct Ho as [-> ->]. rewrite length_on_entry. lia.
  - rewrite m_nodes_on_exit, length_on_exit, nodes_call, m_nodes_call.
    rewrite length_on_entry, m_nodes_on_entry. lia.
  - rewrite m_nodes_on_exit, length_on_exit, nodes_call, m_nodes_call.
    rewrite nodes_call, m_nodes_call, length_on_entry, m_nodes_on_entry
      in IH.
    done.
Qed.

Lemma labels_shape s1 s2 : shape s1 = shape s2 → labels s1 = labels s2.
Proof.
  intros Hs. unfold labels.
  assert (∀ s, (λ n, (m_move n, m_score n)) <$> nodes s
               = (λ x, (x.1.1.1, x.1.1.2)) <$> shape s) as Hl.
  { intros s. unfold shape. rewrite <- list_fmap_compose. done. }
  by rewrite !Hl, Hs.
Qed.

Lemma children_shape s1 s2 :
  shape s1 = shape s2 → m_children <$> nodes s1 = m_children <$> nodes s2.
Proof.
  intros Hs.
  assert (∀ s, m_children <$> nodes s = (λ x, x.1.2) <$> shape s) as Hl.
  { intros s. unfold shape. rewrite <- list_fmap_compose. done. }
  by rewrite !Hl, Hs.
Qed.

Lemma grows_shape s1 s2 :
  shape s1 = shape s2 →
  grows s1 s2.
Proof.
  intros Hs. split.
  - exists []. by rewrite app_nil_r, (labels_shape _ _ Hs).
  - intros i n Hi _. rewrite <- list_lookup_fmap.
    rewrite <- (children_shape _ _ Hs), list_lookup_fmap, Hi. done.
Qed.

Lemma grows_trans s1 s2 s3 : grows s1 s2 → grows s2 s3 → grows s1 s3.
Proof.
  intros [[new1 H1] K1] [[new2 H2] K2]. split.
  - exists (new1 ++ new2). by rewrite H2, H1, app_assoc.
  - intros i n Hi Hne. specialize (K1 i n Hi Hne).
    destruct (nodes s2 !! i) as [n2|] eqn:Hn2; [|done].
    injection K1 as Hk. rewrite <- Hk. apply K2; [done|]. by rewrite Hk.
Qed.

Lemma create_children_grows node (pos : Position) s s1 o :
  create_children node pos s = (s1, o) →
  has_children node s = false →
  grows s s1.
Proof.
  intros Hcc Hc.
  apply create_children_spec in Hcc as (_ & _ & _ & _ & _ & Ho).
  destruct o as [e|].
  - destruct Ho as (policy & n0 & _ & Hn0 & _ & Hnodes & _). split.
    + eexists. unfold labels. rewrite Hnodes, fmap_app.
      rewrite (list_fmap_alter _ _ id); [|apply Forall_forall; done].
      by rewrite list_alter_id.
    + intros i n Hi Hne. rewrite Hnodes.
      assert (i ≠ node) as Hin.
      { intros ->. unfold has_children in Hc. rewrite Hi in Hc.
        apply negb_false_iff, bool_decide_eq_true in Hc. done. }
      rewrite lookup_app_l
        by (rewrite length_alter; by eapply lookup_lt_Some).
      rewrite list_lookup_alter_ne by done. by rewrite Hi.
  - destruct Ho as [Hnodes _]. split.
    + exists []. unfold labels. by rewrite Hnodes, app_nil_r.
    + intros i n Hi _. by rewrite Hnodes, Hi.
Qed.

Lemma descent_grows s (pos : Position) node s' pos' r :
  descent s pos node s' pos' r → grows s s'.
Proof.
  induction 1 as [s pos node Hn Hc Ht
                 |s pos node s1 o Hn Hc Ht Hm Hcc r
                 |s pos node Hn Hc Ht Hm
                 |s pos node next move s2 p2 r2 Hn Hc Hsel Hmv Hd IH].
  - apply grows_shape. by rewrite shape_on_exit, shape_on_entry.
  - eapply grows_trans; [apply grows_shape, eq_sym, shape_on_entry|].
    eapply grows_trans; [by eapply create_children_grows|].
    apply grows_shape, eq_sym, shape_on_exit.
  - apply grows_shape.
    by rewrite shape_on_exit, shape_call, shape_on_entry.
  - eapply grows_trans.
    { apply (grows_shape s (call (CallDoMove move) (on_entry pos node s))).
      by rewrite shape_call, shape_on_entry. }
    eapply grows_trans; [apply IH|].
    apply grows_shape. by rewrite shape_on_exit, shape_call.
Qed.

End TreeFacts.

Section TreeProperties.
Context {Position : Type} `{!RulesEngine Position} `{!Evaluator Position}
        `{!Parameters} `{!Randomness}.

Local Arguments on_entry : simpl never.
Local Arguments on_exit : simpl never.
Local Arguments call : simpl never.
Local Arguments play_simulation : simpl never.

(** A step of a schedule leaves the tree alone or makes one descent from
    the root. *)
Lemma step_descent mode (rootstate : Position) a w w' :
  step mode rootstate a w = Some w' →
  (nodes (search w') = nodes (search w) ∧
   m_nodes (search w') = m_nodes (search w)) ∨
  (∃ s1 p1 r,
      descent (search w) rootstate m_root s1 p1 r ∧
      nodes (search w') = nodes s1 ∧ m_nodes (search w') = m_nodes s1).
Proof.
  intros Hs.
  apply step_loop in Hs
    as [(_ & _ & Hn & Hm & _)
       |(t & s' & r & again & _ & _ & Hit & Hn & Hm & _)]; [by left|right].
  apply iteration_spec in Hit as (Hdc & _).
  apply descend_and_count_spec in Hdc as (s1 & p1 & Hp & ->).
  apply play_simulation_descent in Hp.
  exists s1, p1, r. split; [done|]. rewrite Hn, Hm. by destruct (valid r).
Qed.

Lemma grows_nodes s1 s2 s2' :
  nodes s2' = nodes s2 → grows s1 s2 → grows s1 s2'.
Proof. unfold grows, labels. by intros ->. Qed.

Lemma grows_refl s : grows s s.
Proof. by apply grows_shape. Qed.

Lemma run_grows mode (rootstate : Position) sched w w' :
  run mode rootstate sched w = Some w' → grows (search w) (search w').
Proof.
  intros Hrun.
  eapply (run_invariant (λ _, true) (λ x, grows (search w) (search x)));
    [|apply forallb_true|apply grows_refl|exact Hrun].
  intros a w1 w2 _ Hg Hs.
  apply step_descent in Hs as [[Hn _]|(s1 & p1 & r & Hd & Hn & _)].
  - eapply grows_nodes; [|exact Hg]. done.
  - eapply grows_nodes; [exact Hn|].
    eapply grows_trans; [exact Hg|]. by eapply descent_grows.
Qed.



(** X8.  A search only ever grows the tree: after a descent, and after
    any schedule of the threads of [think] or [ponder], the store extends
    the one before, every node that existed keeps its move and its prior,
    and a node that had children keeps exactly these children, in their
    order: no node is expanded twice. *)
Theorem search_only_grows_the_tree :
  (∀ fuel s (pos : Position) node s' pos' r,
      play_simulation fuel s pos node = Some (s', pos', r) → grows s s') ∧
  (∀ mode (rootstate : Position) sched w w',
      run mode rootstate sched w = Some w' → grows (search w) (search w')).
Proof.
  split.
  - intros fuel s pos node s' pos' r Hp.
    eapply descent_grows, play_simulation_descent, Hp.
  - apply run_grows.
Qed.

End TreeProperties.

Section BestMoveFacts.
Context {Position : Type} `{!RulesEngine Position} `{!Evaluator Position}
        `{!Parameters} `{!Randomness}.

Lemma insert_sorted_perm color x l : insert_sorted color x l ≡ₚ x :: l.
Proof.
  induction l as [|y l IH]; simpl; [done|].
  destruct (before color y.2 x.2); [|done].
  rewrite IH. apply Permutation_swap.
Qed.

Lemma sort_nodes_perm color l : sort_nodes color l ≡ₚ l.
Proof.
  unfold sort_nodes. induction l as [|x l IH]; simpl; [done|].
  by rewrite insert_sorted_perm, IH.
Qed.

Lemma promote_perm {A} i (l : list A) : promote i l ≡ₚ l.
Proof.
  unfold promote. destruct (l !! i) as [x|] eqn:Hi; [|done].
  symmetry. by apply delete_Permutation.
Qed.

Lemma children_of_spec node s kids :
  children_of node s = Some kids →
  ∃ n, nodes s !! node = Some n ∧ kids.*1 = m_children n ∧
       ∀ c k, (c, k) ∈ kids → nodes s !! c = Some k.
Proof.
  unfold children_of. intros Hk.
  destruct (nodes s !! node) as [n|]; [|done]. simpl in Hk.
  exists n. split; [done|].
  apply mapM_Some in Hk.
  induction Hk as [|c [c' k] cs ks Hc _ [IH1 IH2]].
  - split; [done|]. intros c k Hin. by apply elem_of_nil in Hin.
  - destruct (nodes s !! c) as [n'|] eqn:Hn; [|done].
    simpl in Hc. injection Hc as <- <-.
    split; [by rewrite fmap_cons, IH1|].
    intros c0 k0 [[= -> ->]|Hin]%elem_of_cons; [done|]. by apply IH2.
Qed.

Lemma children_of_total node s n :
  nodes s !! node = Some n →
  (∀ c, c ∈ m_children n → is_Some (nodes s !! c)) →
  is_Some (children_of node s).
Proof.
  unfold children_of. intros -> Hall. simpl.
  induction (m_children n) as [|c cs IH]; [by eexists|].
  destruct (Hall c) as [k Hk]; [by left|].
  destruct IH as [ks Hks]; [intros c' Hc'; apply Hall; by right|].
  exists ((c, k) :: ks).
  apply mapM_Some. constructor; [by rewrite Hk|]. by apply mapM_Some.
Qed.

Lemma reordered_lookup s s' c n' :
  reordered s s' → nodes s' !! c = Some n' →
  ∃ n, nodes s !! c = Some n ∧ m_move n' = m_move n ∧
       m_visits n' = m_visits n ∧ m_evals n' = m_evals n ∧
       m_score n' = m_score n ∧
       m_children n' ≡ₚ m_children n ∧ (c ≠ m_root → n' = n).
Proof.
  intros (root & kids & Hroot & Hperm & ->) Hc. simpl in Hc.
  destruct (decide (c = m_root)) as [->|Hne].
  - rewrite list_lookup_alter_eq, Hroot in Hc. injection Hc as <-.
    exists root. by repeat split.
  - rewrite list_lookup_alter_ne in Hc by done. exists n'. by repeat split.
Qed.

Lemma reordered_root s s' root :
  reordered s s' → nodes s !! m_root = Some root →
  ∃ root', nodes s' !! m_root = Some root' ∧
           m_children root' ≡ₚ m_children root.
Proof.
  intros (root0 & kids & Hroot & Hperm & ->) Hr. simpl.
  rewrite list_lookup_alter_eq, Hr. simpl. eexists. split; [done|].
  simpl. congruence.
Qed.

Lemma reordered_lookup_back s s' c n :
  reordered s s' → nodes s !! c = Some n →
  ∃ n', nodes s' !! c = Some n' ∧ m_move n' = m_move n ∧
        m_visits n' = m_visits n ∧ m_evals n' = m_evals n.
Proof.
  intros (root & kids & Hroot & Hperm & ->) Hc. simpl.
  destruct (decide (c = m_root)) as [->|Hne].
  - rewrite list_lookup_alter_eq, Hc. simpl. by eexists.
  - rewrite list_lookup_alter_ne by done. by eexists.
Qed.

Lemma reordered_trans s1 s2 s3 :
  reordered s1 s2 → reordered s2 s3 → reordered s1 s3.
Proof.
  intros (root & kids & Hroot & Hperm & ->) (root2 & kids2 & Hroot2 & Hperm2
                                            & ->).
  simpl in Hroot2. rewrite list_lookup_alter_eq, Hroot in Hroot2.
  injection Hroot2 as <-. simpl in Hperm2.
  exists root, kids2. split; [done|]. split; [by rewrite Hperm2|].
  unfold set_nodes. simpl. f_equal.
  rewrite list_alter_alter_eq. by apply list_alter_ext.
Qed.

Lemma sort_root_children_reordered color s s' :
  sort_root_children color s = Some s' → reordered s s'.
Proof.
  unfold sort_root_children. intros Hs.
  destruct (children_of m_root s) as [kids|] eqn:Hk; [|done].
  simpl in Hs. injection Hs as <-.
  apply children_of_spec in Hk as (root & Hroot & Hkids & _).
  exists root, (sort_nodes color kids).*1. split; [done|]. split; [|done].
  by rewrite sort_nodes_perm, Hkids.
Qed.

Lemma randomize_reordered s s' :
  randomize_first_proportionally s = Some s' → reordered s s'.
Proof.
  unfold randomize_first_proportionally. intros Hs.
  destruct (children_of m_root s) as [kids|] eqn:Hk; [|done].
  simpl in Hs. injection Hs as <-.
  apply children_of_spec in Hk as (root & Hroot & Hkids & _).
  eexists root, _. split; [done|]. split; [|done].
  by rewrite promote_perm, Hkids.
Qed.

Lemma best_first_spec (rootstate : Position) s s' :
  best_first rootstate s = Some s' →
  ∃ s1, sort_root_children (side_to_move rootstate) s = Some s1 ∧
        if (game_ply rootstate <? cfg_random_cnt)%Z
        then randomize_first_proportionally s1 = Some s'
        else s' = s1.
Proof.
  unfold best_first. intros Hb.
  destruct (sort_root_children _ s) as [s1|]; [|done]. simpl in Hb.
  exists s1. split; [done|].
  destruct (game_ply rootstate <? cfg_random_cnt)%Z; [done|congruence].
Qed.

Lemma best_first_reordered (rootstate : Position) s s' :
  best_first rootstate s = Some s' → reordered s s'.
Proof.
  intros (s1 & Hsort & Hrand)%best_first_spec.
  apply sort_root_children_reordered in Hsort.
  destruct (game_ply rootstate <? cfg_random_cnt)%Z; [|by subst].
  eapply reordered_trans; [done|]. by apply randomize_reordered.
Qed.

Lemma get_best_move_spec (rootstate : Position) s s' m :
  get_best_move rootstate s = Some (s', m) →
  best_first rootstate s = Some s' ∧
  ∃ first fn,
    get_first_child m_root s' = Some first ∧
    nodes s' !! first = Some fn ∧
    (m = m_move fn ∨ m = MOVE_NONE).
Proof.
  unfold get_best_move. intros Hg.
  destruct (best_first rootstate s) as [s1|]; [|done]. simpl in Hg.
  destruct (get_first_child m_root s1) as [first|] eqn:Hf; [|done].
  simpl in Hg.
  destruct (nodes s1 !! first) as [fn|] eqn:Hn; [|done]. simpl in Hg.
  destruct (first_visit fn).
  { injection Hg as <- <-. split; [done|]. eauto 10. }
  destruct (nodes s1 !! m_root) as [root|]; [|done]. simpl in Hg.
  destruct (should_resign _ _ _); injection Hg as <- <-;
    (split; [done|]); eauto 10.
Qed.

Lemma get_first_child_elem s first :
  get_first_child m_root s = Some first →
  ∃ root, nodes s !! m_root = Some root ∧ first ∈ m_children root ∧
          head (m_children root) = Some first.
Proof.
  unfold get_first_child. intros Hf.
  destruct (nodes s !! m_root) as [root|]; [|done]. simpl in Hf.
  exists root. split; [done|]. split; [|done].
  destruct (m_children root); [done|]. injection Hf as ->. by left.
Qed.


Lemma before_false color a b :
  before color a b = false ↔ no_better color a b.
Proof.
  unfold before, no_better.
  rewrite orb_false_iff, andb_false_iff, Z.ltb_ge, Z.eqb_neq.
  assert (Qlt_bool (get_eval color b) (get_eval color a) = false ↔
          (get_eval color a <= get_eval color b)%Q) as ->.
  { unfold Qlt_bool. rewrite negb_false_iff. apply Qle_bool_iff. }
  split.
  - intros [Hle [Hne|Hq]]; by split.
  - intros [Hle Hq]. split; [done|].
    destruct (decide (m_visits a = m_visits b)) as [Heq|Hne]; auto.
Qed.

Lemma before_true color a b :
  before color a b = true → no_better color b a.
Proof.
  unfold before, no_better.
  rewrite orb_true_iff, andb_true_iff, Z.ltb_lt, Z.eqb_eq, Qlt_bool_iff.
  intros [Hlt|[Heq Hq]].
  - split; [lia|]. intros Heq. lia.
  - split; [lia|]. intros _. by apply Qlt_le_weak.
Qed.

Lemma no_better_refl color a : no_better color a a.
Proof. split; [lia|]. intros _. apply Qle_refl. Qed.

Lemma no_better_trans color a b c :
  no_better color a b → no_better color b c → no_better color a c.
Proof.
  intros [H1 Q1] [H2 Q2]. split; [lia|].
  intros Heq. eapply Qle_trans; [apply Q1|apply Q2]; lia.
Qed.

(** [sort_nodes] sorts: every node is no better than those before it. *)
Lemma insert_sorted_sorted color x l :
  StronglySorted (λ a b, no_better color b.2 a.2) l →
  StronglySorted (λ a b, no_better color b.2 a.2) (insert_sorted color x l).
Proof.
  induction 1 as [|y l Hl IH Hy]; simpl; [by repeat constructor|].
  destruct (before color y.2 x.2) eqn:Hb.
  - constructor; [done|].
    rewrite insert_sorted_perm. constructor; [|done].
    by apply before_true.
  - apply before_false in Hb.
    constructor; [by constructor|]. constructor; [done|].
    eapply Forall_impl; [exact Hy|]. simpl.
    intros z Hz. by eapply no_better_trans.
Qed.

Lemma sort_nodes_sorted color l :
  StronglySorted (λ a b, no_better color b.2 a.2) (sort_nodes color l).
Proof.
  unfold sort_nodes. induction l as [|x l IH]; simpl; [constructor|].
  by apply insert_sorted_sorted.
Qed.

Lemma sort_nodes_head color l x :
  head (sort_nodes color l) = Some x →
  x ∈ l ∧ ∀ y, y ∈ l → no_better color y.2 x.2.
Proof.
  intros Hh.
  pose proof (sort_nodes_sorted color l) as Hs.
  pose proof (sort_nodes_perm color l) as Hp.
  destruct (sort_nodes color l) as [|x' rest]; [done|].
  injection Hh as ->.
  apply StronglySorted_inv in Hs as [_ Hall].
  split; [rewrite <- Hp; by left|].
  intros y Hy. rewrite <- Hp in Hy.
  apply elem_of_cons in Hy as [->|Hy]; [apply no_better_refl|].
  by eapply (proj1 (Forall_forall _ _) Hall).
Qed.

End BestMoveFacts.

Section BestMoveProperties.
Context {Position : Type} `{!RulesEngine Position} `{!Evaluator Position}
        `{!Parameters} `{!Randomness}.

(** X9.  [get_best_move] changes nothing in the search but the order of
    the children of the root, and the move it returns is MOVE_NONE or the
    move of a child the root had. *)
Theorem get_best_move_only_reorders (rootstate : Position) s s' m :
  get_best_move rootstate s = Some (s', m) →
  reordered s s' ∧
  (m = MOVE_NONE ∨
   ∃ root c n, nodes s !! m_root = Some root ∧ c ∈ m_children root ∧
               nodes s !! c = Some n ∧ m = m_move n).
Proof.
  intros (Hbest & first & fn & Hfirst & Hfn & Hm)%get_best_move_spec.
  apply best_first_reordered in Hbest as Hre. split; [done|].
  destruct Hm as [-> | ->]; [right|by left].
  apply get_first_child_elem in Hfirst as (root' & Hroot' & Hin & _).
  destruct (reordered_lookup _ _ _ _ Hre Hroot')
    as (root & Hroot & _ & _ & _ & _ & Hperm & _).
  destruct (reordered_lookup _ _ _ _ Hre Hfn)
    as (n & Hn & Hmove & _).
  exists root, first, n. rewrite <- Hperm. done.
Qed.

(** X10.  Without the randomization of the early game (the game ply is
    not below cfg_random_cnt), the child whose move [get_best_move]
    returns, unless it resigns, is a best child of the root: no child of
    the root has more visits, and none with as many visits has a higher
    evaluation for the side to move. *)
Theorem best_move_is_most_visited (rootstate : Position) s s' m :
  well_formed (nodes s) = true →
  (cfg_random_cnt ≤ game_ply rootstate)%Z →
  get_best_move rootstate s = Some (s', m) →
  ∃ first fn,
    get_first_child m_root s' = Some first ∧
    nodes s !! first = Some fn ∧
    (m = m_move fn ∨ m = MOVE_NONE) ∧
    ∀ root c n, nodes s !! m_root = Some root → c ∈ m_children root →
                nodes s !! c = Some n →
                no_better (side_to_move rootstate) n fn.
Proof.
  intros Hwf Hply (Hbest & first & fn & Hfirst & Hfn & Hm)%get_best_move_spec.
  apply best_first_spec in Hbest as (s1 & Hsort & Hrand).
  destruct (Z.ltb_spec (game_ply rootstate) cfg_random_cnt); [lia|].
  subst s1.
  pose proof (sort_root_children_reordered _ _ _ Hsort) as Hre.
  unfold sort_root_children in Hsort.
  destruct (children_of m_root s) as [kids|] eqn:Hk; [|done].
  simpl in Hsort. injection Hsort as <-.
  apply children_of_spec in Hk as (root & Hroot & Hkids & Hlook).
  unfold get_first_child in Hfirst. simpl in Hfirst.
  rewrite list_lookup_alter_eq, Hroot in Hfirst. simpl in Hfirst.
  destruct (sort_nodes (side_to_move rootstate) kids) as [|[c0 k0] rest]
    eqn:Hsorted; [done|].
  simpl in Hfirst. injection Hfirst as <-.
  destruct (sort_nodes_head (side_to_move rootstate) kids (c0, k0))
    as [Hin Hbest]; [by rewrite Hsorted|].
  assert (c0 ≠ m_root) as Hne.
  { assert (c0 ∈ m_children root) as Hc0.
    { rewrite <- Hkids. apply list_elem_of_fmap. by exists (c0, k0). }
    apply (proj1 (well_formed_spec _) Hwf m_root root c0 Hroot) in Hc0.
    unfold m_root. lia. }
  simpl in Hfn. rewrite list_lookup_alter_ne in Hfn by done.
  pose proof (Hlook _ _ Hin) as Hk0. rewrite Hk0 in Hfn.
  injection Hfn as <-.
  exists c0, k0. split.
  { unfold get_first_child. simpl.
    by rewrite list_lookup_alter_eq, Hroot. }
  split; [done|]. split; [done|].
  intros root0 c n Hroot0 Hc Hn.
  rewrite Hroot in Hroot0. injection Hroot0 as <-.
  rewrite <- Hkids in Hc.
  apply list_elem_of_fmap in Hc as ([c' k] & -> & Hck).
  pose proof (Hlook _ _ Hck) as Hk'. simpl in Hn.
  rewrite Hk' in Hn. injection Hn as <-.
  exact (Hbest _ Hck).
Qed.

End BestMoveProperties.

Section LegalMoveFacts.
Context {Position : Type} `{!RulesEngine Position} `{!Evaluator Position}
        `{!Parameters} `{!Randomness}.

Local Arguments on_entry : simpl never.
Local Arguments on_exit : simpl never.
Local Arguments call : simpl never.
Local Arguments play_simulation : simpl never.

Lemma root_moves_legal_transfer (p : Position) s s' :
  (∀ root', nodes s' !! m_root = Some root' →
            ∃ root, nodes s !! m_root = Some root ∧
                    ∀ c, c ∈ m_children root' → c ∈ m_children root) →
  (∀ c n, nodes s !! c = Some n →
          ∃ n', nodes s' !! c = Some n' ∧ m_move n' = m_move n) →
  root_moves_legal p s → root_moves_legal p s'.
Proof.
  intros Hroot Hnodes Hs root' c Hr' Hc.
  destruct (Hroot root' Hr') as (root & Hr & Hsub).
  destruct (Hs root c Hr (Hsub c Hc)) as (n & Hn & Hlegal).
  destruct (Hnodes c n Hn) as (n' & Hn' & Hmove).
  exists n'. split; [done|]. by rewrite Hmove.
Qed.

Lemma root_moves_legal_childless (p : Position) s :
  has_children m_root s = false → root_moves_legal p s.
Proof.
  unfold has_children. intros Hc root c Hroot Hin. rewrite Hroot in Hc.
  apply negb_false_iff, bool_decide_eq_true in Hc. rewrite Hc in Hin.
  by apply elem_of_nil in Hin.
Qed.

Lemma root_moves_legal_nodes (p : Position) s s' :
  nodes s' = nodes s → root_moves_legal p s → root_moves_legal p s'.
Proof. unfold root_moves_legal. by intros ->. Qed.

Lemma shape_lookup s1 s2 i n2 :
  shape s1 = shape s2 → nodes s2 !! i = Some n2 →
  ∃ n1, nodes s1 !! i = Some n1 ∧ m_move n1 = m_move n2 ∧
        m_children n1 = m_children n2.
Proof.
  intros Hs Hi.
  assert (shape s1 !! i = shape s2 !! i) as Hl by (by rewrite Hs).
  unfold shape in Hl. rewrite !list_lookup_fmap, Hi in Hl.
  destruct (nodes s1 !! i) as [n1|]; [|done].
  simpl in Hl. injection Hl as H1 H2 H3 H4. by exists n1.
Qed.

Lemma root_moves_legal_shape (p : Position) s s' :
  shape s = shape s' → root_moves_legal p s → root_moves_legal p s'.
Proof.
  intros Hs. apply root_moves_legal_transfer.
  - intros root' Hr'.
    destruct (shape_lookup _ _ _ _ Hs Hr') as (root & Hr & _ & Hk).
    exists root. split; [done|]. by rewrite Hk.
  - intros c n Hn.
    destruct (shape_lookup _ _ _ _ (eq_sym Hs) Hn) as (n' & Hn' & Hm & _).
    by exists n'.
Qed.

Lemma grows_lookup s s' c n :
  grows s s' → nodes s !! c = Some n →
  ∃ n', nodes s' !! c = Some n' ∧ m_move n' = m_move n ∧
        m_score n' = m_score n.
Proof.
  intros [[new Hl] _] Hc.
  assert (labels s' !! c = Some (m_move n, m_score n)) as Hl'.
  { rewrite Hl. unfold labels.
    rewrite lookup_app_l
      by (rewrite length_fmap; by eapply lookup_lt_Some).
    by rewrite list_lookup_fmap, Hc. }
  unfold labels in Hl'. rewrite list_lookup_fmap in Hl'.
  destruct (nodes s' !! c) as [n'|]; [|done].
  simpl in Hl'. injection Hl' as H1 H2. by exists n'.
Qed.

Lemma root_moves_legal_grows (p : Position) s s' :
  grows s s' → has_children m_root s = true →
  root_moves_legal p s → root_moves_legal p s'.
Proof.
  intros Hg Hc. apply root_moves_legal_transfer.
  - intros root' Hr'. unfold has_children in Hc.
    destruct (nodes s !! m_root) as [root|] eqn:Hr; [|done].
    exists root. split; [done|].
    apply negb_true_iff, bool_decide_eq_false in Hc.
    destruct Hg as [_ Hkids]. specialize (Hkids _ _ Hr Hc).
    rewrite Hr' in Hkids. injection Hkids as ->. done.
  - intros c n Hn.
    destruct (grows_lookup _ _ _ _ Hg Hn) as (n' & Hn' & Hm & _).
    by exists n'.
Qed.

(** The children that [create_children] gives the root carry the legal
    moves of the position. *)
Lemma create_children_root_legal (p : Position) s s1 o :
  create_children m_root p s = (s1, o) →
  has_children m_root s = false →
  root_moves_legal p s1.
Proof.
  intros Hcc Hc.
  apply create_children_spec in Hcc as (_ & _ & _ & _ & _ & Ho).
  destruct o as [e|].
  - destruct Ho as (policy & n0 & _ & Hn0 & _ & Hnodes & _).
    intros root c Hroot Hin. rewrite Hnodes in Hroot |- *.
    rewrite lookup_app_l in Hroot
      by (rewrite length_alter; by eapply lookup_lt_Some).
    rewrite list_lookup_alter_eq, Hn0 in Hroot.
    injection Hroot as <-. simpl in Hin.
    apply elem_of_seq in Hin as [Hlo Hhi].
    rewrite lookup_app_r by (rewrite length_alter; lia).
    rewrite length_alter.
    destruct (lookup_lt_is_Some_2 (legal_moves p) (c - length (nodes s)))
      as [mv Hmv]; [lia|].
    exists (new_node mv (policy mv)). split.
    + change (map ?f ?l) with (f <$> l).
      by rewrite list_lookup_fmap, Hmv.
    + simpl. by eapply list_elem_of_lookup_2.
  - destruct Ho as [Hnodes _].
    eapply root_moves_legal_nodes; [done|].
    by apply root_moves_legal_childless.
Qed.

Lemma descent_root_legal s (p : Position) s' pos' r :
  descent s p m_root s' pos' r →
  root_moves_legal p s → root_moves_legal p s'.
Proof.
  intros Hd Hs.
  destruct (has_children m_root s) eqn:Hc.
  { eapply root_moves_legal_grows; [|done|done]. by eapply descent_grows. }
  inversion Hd as [s0 pos node Hn Hc0 Ht
                  |s0 pos node s1 o Hn Hc0 Ht Hm Hcc r0
                  |s0 pos node Hn Hc0 Ht Hm
                  |s0 pos node next move s2 p2 r2 Hn Hc0 Hsel Hmv Hd'];
    subst.
  - apply root_moves_legal_childless.
    rewrite (shape_has_children _ _ s); [done|].
    by rewrite shape_on_exit, shape_on_entry.
  - eapply (root_moves_legal_shape _ s1); [by rewrite shape_on_exit|].
    by eapply create_children_root_legal.
  - apply root_moves_legal_childless.
    rewrite (shape_has_children _ _ s); [done|].
    by rewrite shape_on_exit, shape_call, shape_on_entry.
  - rewrite has_children_on_entry in Hc0. congruence.
Qed.

Lemma moves_dirichlet_noise eps s :
  m_move <$> nodes (dirichlet_noise eps s) = m_move <$> nodes s.
Proof.
  unfold dirichlet_noise.
  destruct (nodes s !! m_root) as [root|]; [|done]. simpl.
  induction (imap pair (m_children root)) as [|ic l IH]; [done|]. simpl.
  rewrite (list_fmap_alter _ _ id); [|apply Forall_forall; done].
  rewrite list_alter_id by done. apply IH.
Qed.

Lemma root_moves_legal_noise (p : Position) eps s :
  root_moves_legal p s → root_moves_legal p (dirichlet_noise eps s).
Proof.
  pose proof (moves_dirichlet_noise eps s) as Hm.
  pose proof (children_dirichlet_noise eps s) as Hk.
  assert (∀ i, m_move <$> nodes (dirichlet_noise eps s) !! i
               = m_move <$> nodes s !! i) as Hmi.
  { intros i. by rewrite <- !list_lookup_fmap, Hm. }
  assert (∀ i, m_children <$> nodes (dirichlet_noise eps s) !! i
               = m_children <$> nodes s !! i) as Hki.
  { intros i. by rewrite <- !list_lookup_fmap, Hk. }
  apply root_moves_legal_transfer.
  - intros root' Hr'. specialize (Hki m_root). rewrite Hr' in Hki.
    destruct (nodes s !! m_root) as [root|]; [|done].
    injection Hki as Hki. exists root. split; [done|]. by rewrite Hki.
  - intros c n Hn. specialize (Hmi c). rewrite Hn in Hmi.
    destruct (nodes (dirichlet_noise eps s) !! c) as [n'|]; [|done].
    injection Hmi as Hmi. by exists n'.
Qed.

Lemma root_moves_legal_reordered (p : Position) s s' :
  reordered s s' → root_moves_legal p s → root_moves_legal p s'.
Proof.
  intros Hre. apply root_moves_legal_transfer.
  - intros root' Hr'.
    destruct (reordered_lookup _ _ _ _ Hre Hr')
      as (root & Hr & _ & _ & _ & _ & Hperm & _).
    exists root. split; [done|]. intros c. by rewrite Hperm.
  - intros c n Hn.
    destruct (reordered_lookup_back _ _ _ _ Hre Hn) as (n' & Hn' & Hm & _).
    by exists n'.
Qed.

Lemma run_root_legal mode (rootstate : Position) sched w w' :
  run mode rootstate sched w = Some w' →
  root_moves_legal rootstate (search w) →
  root_moves_legal rootstate (search w').
Proof.
  intros Hrun Hw.
  eapply (run_invariant (λ _, true)
            (λ x, root_moves_legal rootstate (search x)));
    [|apply forallb_true|exact Hw|exact Hrun].
  intros a w1 w2 _ Hl Hs.
  apply step_descent in Hs as [[Hn _]|(s1 & p1 & r & Hd & Hn & _)].
  - by eapply root_moves_legal_nodes.
  - eapply root_moves_legal_nodes; [exact Hn|].
    by eapply descent_root_legal.
Qed.

Lemma has_children_reordered s s' :
  reordered s s' → has_children m_root s' = has_children m_root s.
Proof.
  intros (root & kids & Hroot & Hperm & ->). unfold has_children. simpl.
  rewrite list_lookup_alter_eq, Hroot. simpl. f_equal.
  apply bool_decide_ext. split.
  - intros ->. by apply Permutation_nil_l in Hperm.
  - intros Hk. rewrite Hk in Hperm. by apply Permutation_nil_r in Hperm.
Qed.

Lemma sort_root_children_total (p : Position) color s :
  is_Some (nodes s !! m_root) → root_moves_legal p s →
  is_Some (sort_root_children color s).
Proof.
  intros [root Hroot] Hl. unfold sort_root_children.
  destruct (children_of_total m_root s root Hroot) as [kids ->].
  { intros c Hc. destruct (Hl root c Hroot Hc) as (n & -> & _). by eexists. }
  by eexists.
Qed.

Lemma randomize_total (p : Position) s :
  is_Some (nodes s !! m_root) → root_moves_legal p s →
  is_Some (randomize_first_proportionally s).
Proof.
  intros [root Hroot] Hl. unfold randomize_first_proportionally.
  destruct (children_of_total m_root s root Hroot) as [kids ->].
  { intros c Hc. destruct (Hl root c Hroot Hc) as (n & -> & _). by eexists. }
  by eexists.
Qed.

Lemma has_children_root s :
  has_children m_root s = true →
  ∃ root, nodes s !! m_root = Some root ∧ m_children root ≠ [].
Proof.
  unfold has_children. destruct (nodes s !! m_root) as [root|]; [|done].
  intros Hc%negb_true_iff%bool_decide_eq_false. eauto.
Qed.

Lemma best_first_total (rootstate : Position) s :
  has_children m_root s = true → root_moves_legal rootstate s →
  is_Some (best_first rootstate s).
Proof.
  intros Hc Hl. unfold best_first.
  destruct (has_children_root _ Hc) as (root & Hroot & _).
  destruct (sort_root_children_total rootstate (side_to_move rootstate) s)
    as [s1 Hs1]; [by eexists|done|].
  rewrite Hs1. simpl.
  destruct (game_ply rootstate <? cfg_random_cnt)%Z; [|by eexists].
  apply sort_root_children_reordered in Hs1 as Hre.
  apply (randomize_total rootstate).
  - destruct (reordered_root _ _ _ Hre Hroot) as (root' & -> & _).
    by eexists.
  - by eapply root_moves_legal_reordered.
Qed.

(** [get_best_move] returns on a root with children whose children
    carry legal moves, and then the move is MOVE_NONE or legal. *)
Lemma get_best_move_legal (rootstate : Position) s :
  has_children m_root s = true → root_moves_legal rootstate s →
  ∃ s' m, get_best_move rootstate s = Some (s', m) ∧
          (m = MOVE_NONE ∨ m ∈ legal_moves rootstate).
Proof.
  intros Hc Hl.
  destruct (best_first_total rootstate s Hc Hl) as [s1 Hs1].
  apply best_first_reordered in Hs1 as Hre.
  pose proof (root_moves_legal_reordered _ _ _ Hre Hl) as Hl1.
  rewrite <- (has_children_reordered _ _ Hre) in Hc.
  destruct (has_children_root _ Hc) as (root1 & Hroot1 & Hkids).
  destruct (m_children root1) as [|first rest] eqn:Hk; [done|].
  destruct (Hl1 root1 first Hroot1) as (fn & Hfn & Hlegal);
    [rewrite Hk; by left|].
  unfold get_best_move. rewrite Hs1. simpl.
  unfold get_first_child. rewrite Hroot1. simpl. rewrite Hk. simpl.
  rewrite Hfn. simpl.
  destruct (first_visit fn); [eauto|].
  destruct (should_resign _ _ _); eauto.
Qed.

(** The state in which the loops of [think] start. *)
Lemma think_start_legal sched (rootstate : Position) s w :
  think_search sched rootstate s = Some w →
  has_children m_root s = false →
  root_moves_legal rootstate (search w).
Proof.
  intros (_ & _ & s1 & o & Hc & Hrun)%think_search_run Hroot.
  eapply run_root_legal; [exact Hrun|]. simpl.
  pose proof (create_children_root_legal _ _ _ _ Hc Hroot) as Hl.
  eapply (root_moves_legal_nodes _
            (if cfg_noise then dirichlet_noise (1 / 4) s1 else s1));
    [done|].
  destruct cfg_noise; [by apply root_moves_legal_noise|done].
Qed.

End LegalMoveFacts.

Section LegalMoveProperties.
Context {Position : Type} `{!RulesEngine Position} `{!Evaluator Position}
        `{!Parameters} `{!Randomness}.

(** X11.  [think] returns a legal move or MOVE_NONE.  Started on a root
    without children, under every schedule of its threads the search
    reaches a state; if all threads have left their loops there, [think]
    returns, and the move it returns is MOVE_NONE or one of the legal
    moves of the root position.  For a root position without legal moves
    it is MOVE_NONE. *)
Theorem think_returns_a_legal_move sched (rootstate : Position) s :
  well_formed (nodes s) = true → 0 < length (nodes s) →
  m_playouts s = 0%Z → m_nodes s = 0%Z →
  has_children m_root s = false →
  ∃ w, think_search sched rootstate s = Some w ∧
       (joined w = true →
        ∃ s' m, think sched rootstate s = Some (s', m) ∧
                (m = MOVE_NONE ∨ m ∈ legal_moves rootstate) ∧
                (legal_moves rootstate = [] → m = MOVE_NONE)).
Proof.
  intros Hwf Hroot Hp Hn Hc.
  destruct (think_search_total sched rootstate s Hwf Hroot Hp Hn) as [w Hw].
  exists w. split; [done|]. intros Hj.
  pose proof (think_start_legal _ _ _ _ Hw Hc) as Hl.
  assert (∃ s' m, think sched rootstate s = Some (s', m) ∧
                  (m = MOVE_NONE ∨ m ∈ legal_moves rootstate))
    as (s' & m & Ht & Hm).
  { unfold think. rewrite Hw. simpl. rewrite Hj.
    destruct (has_children m_root (search w)) eqn:Hcw; simpl; [|eauto].
    unfold dump_stats. rewrite Hcw. simpl.
    destruct cfg_quiet; simpl.
    - by apply get_best_move_legal.
    - destruct (has_children_root _ Hcw) as (root & Hr & _).
      destruct (sort_root_children_total rootstate (side_to_move rootstate)
                  (search w)) as [s1 Hs1]; [by eexists|done|].
      rewrite Hs1. simpl.
      apply sort_root_children_reordered in Hs1 as Hre.
      apply get_best_move_legal.
      + by rewrite (has_children_reordered _ _ Hre).
      + by eapply root_moves_legal_reordered. }
  exists s', m. split; [done|]. split; [done|].
  intros Hnone. destruct Hm as [?|Hin]; [done|].
  rewrite Hnone in Hin. by apply elem_of_nil in Hin.
Qed.

End LegalMoveProperties.

Section ReportingFacts.
Context {Position : Type} `{!RulesEngine Position} `{!Evaluator Position}
        `{!Parameters} `{!Randomness} `{!Protocol}.

Lemma get_best_root_child_spec color node s c :
  get_best_root_child color node s = Some c →
  ∃ n k, nodes s !! node = Some n ∧ c ∈ m_children n ∧
         nodes s !! c = Some k.
Proof.
  unfold get_best_root_child. intros Hb.
  destruct (children_of node s) as [kids|] eqn:Hk; [|done]. simpl in Hb.
  apply children_of_spec in Hk as (n & Hn & Hkids & Hlook).
  destruct (head (sort_nodes color kids)) as [[c' k]|] eqn:Hh; [|done].
  simpl in Hb. injection Hb as ->.
  apply sort_nodes_head in Hh as [Hin _].
  exists n, k. split; [done|]. split; [|by apply Hlook].
  rewrite <- Hkids. apply list_elem_of_fmap. by exists (c, k).
Qed.

Lemma get_best_root_child_total color node s :
  well_formed (nodes s) = true → has_children node s = true →
  ∃ c, get_best_root_child color node s = Some c ∧
       node < c < length (nodes s).
Proof.
  intros Hwf Hc. unfold has_children in Hc.
  destruct (nodes s !! node) as [n|] eqn:Hn; [|done].
  apply negb_true_iff, bool_decide_eq_false in Hc.
  pose proof (proj1 (well_formed_spec _) Hwf node n) as Hlinks.
  destruct (children_of_total node s n Hn) as [kids Hk].
  { intros c Hin. apply lookup_lt_is_Some. by apply (Hlinks c Hn). }
  unfold get_best_root_child. rewrite Hk. simpl.
  pose proof (sort_nodes_perm color kids) as Hperm.
  apply children_of_spec in Hk as (n' & Hn' & Hkids & _).
  rewrite Hn in Hn'. injection Hn' as <-.
  destruct (sort_nodes color kids) as [|[c k] rest] eqn:Hs.
  { apply Permutation_nil_l in Hperm. subst kids. by destruct Hc. }
  exists c. split; [done|]. apply (Hlinks c Hn).
  rewrite <- Hkids. apply list_elem_of_fmap. exists (c, k).
  split; [done|]. rewrite <- Hperm. by left.
Qed.

Lemma get_pv_unfold fuel s (state : Position) parent :
  get_pv (S fuel) s state parent =
  (_ ← nodes s !! parent;
   if negb (has_children parent s) then Some (state, "")
   else
     best_child ← get_best_root_child (side_to_move state) parent s;
     best_move ← get_move best_child s;
     '(state', next) ← get_pv fuel s (do_move best_move state) best_child;
     Some (undo_move best_move state',
           if negb (bool_decide (next = ""))
           then UCI_move best_move +:+ " " +:+ next
           else UCI_move best_move)).
Proof.
  simpl. destruct (nodes s !! parent); [|done]. simpl.
  destruct (negb (has_children parent s)); [done|].
  destruct (get_best_root_child _ _ _); [|done]. simpl.
  destruct (get_move _ _); [|done]. simpl.
  by destruct (get_pv _ _ _ _) as [[??]|].
Qed.

Lemma get_pv_total fuel s (state : Position) parent :
  well_formed (nodes s) = true →
  parent < length (nodes s) →
  length (nodes s) - parent ≤ fuel →
  is_Some (get_pv fuel s state parent).
Proof.
  intros Hwf. revert state parent.
  induction fuel as [|fuel IH]; intros state parent Hlt Hfuel; [lia|].
  rewrite get_pv_unfold.
  destruct (lookup_lt_is_Some_2 _ _ Hlt) as [n ->]. simpl.
  destruct (has_children parent s) eqn:Hc; simpl; [|by eexists].
  destruct (get_best_root_child_total (side_to_move state) parent s Hwf Hc)
    as (c & -> & Hpc & Hcl). simpl.
  unfold get_move.
  destruct (lookup_lt_is_Some_2 _ _ Hcl) as [k ->]. simpl.
  destruct (IH (do_move (m_move k) state) c) as [[state' next] ->];
    [done|lia|].
  simpl. by eexists.
Qed.

Lemma append_not_empty (a b : string) : a ≠ "" → a +:+ b ≠ "".
Proof. by destruct a. Qed.

Lemma concat_not_empty (l : list string) :
  l ≠ [] → Forall (λ x, x ≠ "") l → String.concat " " l ≠ "".
Proof.
  destruct l as [|x l]; [done|]. intros _ Hall.
  apply Forall_cons in Hall as [Hx _]. simpl.
  destruct l; [done|]. by apply append_not_empty.
Qed.

Lemma get_pv_line fuel s (state : Position) parent state' res :
  get_pv fuel s state parent = Some (state', res) →
  ∃ line,
    best_line s state parent line ∧
    ((∀ m, UCI_move m ≠ "") →
     res = String.concat " " (UCI_move <$> line)) ∧
    ((∀ m p, undo_move m (do_move m p) = p) → state' = state).
Proof.
  revert state parent state' res.
  induction fuel as [|fuel IH]; intros state parent state' res Hpv; [done|].
  rewrite get_pv_unfold in Hpv.
  destruct (nodes s !! parent) as [n|] eqn:Hn; [|done]. simpl in Hpv.
  destruct (has_children parent s) eqn:Hc; simpl in Hpv.
  2:{ injection Hpv as <- <-. exists []. split; [|done].
      constructor; [by eexists|done]. }
  destruct (get_best_root_child _ _ _) as [c|] eqn:Hb; [|done].
  simpl in Hpv.
  destruct (get_move c s) as [mv|] eqn:Hmv; [|done]. simpl in Hpv.
  destruct (get_pv fuel s (do_move mv state) c) as [[st1 next]|] eqn:Hrec;
    [|done].
  simpl in Hpv. injection Hpv as <- <-.
  destruct (IH _ _ _ _ Hrec) as (rest & Hline & Hres & Hpos).
  exists (mv :: rest). split; [by econstructor|]. split.
  - intros Htext. rewrite (Hres Htext). rewrite fmap_cons.
    destruct rest as [|m2 rest]; [done|].
    rewrite bool_decide_eq_false_2.
    2:{ apply concat_not_empty; [done|].
        apply Forall_fmap, Forall_forall. intros m _. apply Htext. }
    done.
  - intros Hundo. by rewrite (Hpos Hundo), Hundo.
Qed.


Lemma children_of_lookups node s kids :
  children_of node s = Some kids →
  ∃ n, nodes s !! node = Some n ∧ kids.*1 = m_children n ∧
       Forall2 (λ c k, nodes s !! c = Some k) kids.*1 kids.*2.
Proof.
  intros (n & Hn & Hkids & Hlook)%children_of_spec.
  exists n. split; [done|]. split; [done|]. clear Hkids.
  induction kids as [|[c k] kids IH]; [constructor|].
  rewrite !fmap_cons. constructor.
  - apply Hlook. by left.
  - apply IH. intros c' k' Hin. apply Hlook. by right.
Qed.

Lemma mapM_pairs {A B} (f : A → option (A * B)) (l : list (A * B)) :
  (∀ a b, (a, b) ∈ l → f a = Some (a, b)) → mapM f l.*1 = Some l.
Proof.
  intros Hall. apply mapM_Some.
  induction l as [|[a b] l IH]; [constructor|].
  rewrite fmap_cons. constructor.
  - apply Hall. by left.
  - apply IH. intros a' b' Hin. apply Hall. by right.
Qed.

(** In a well-formed tree the children of the root after
    [sort_root_children] are the children before, sorted. *)
Lemma children_of_sorted color s s' :
  well_formed (nodes s) = true →
  sort_root_children color s = Some s' →
  ∃ kids, children_of m_root s = Some kids ∧
          children_of m_root s' = Some (sort_nodes color kids).
Proof.
  intros Hwf Hsort. unfold sort_root_children in Hsort.
  destruct (children_of m_root s) as [kids|] eqn:Hk; [|done].
  simpl in Hsort. injection Hsort as <-.
  exists kids. split; [done|].
  apply children_of_spec in Hk as (root & Hroot & Hkids & Hlook).
  unfold children_of. simpl.
  rewrite list_lookup_alter_eq, Hroot. simpl.
  apply mapM_pairs. intros c k Hin.
  rewrite sort_nodes_perm in Hin.
  assert (c ≠ m_root) as Hne.
  { assert (c ∈ m_children root) as Hc.
    { rewrite <- Hkids. apply list_elem_of_fmap. by exists (c, k). }
    apply (proj1 (well_formed_spec _) Hwf m_root root c Hroot) in Hc.
    unfold m_root. lia. }
  rewrite list_lookup_alter_ne by done. by rewrite (Hlook _ _ Hin).
Qed.

Lemma strongly_sorted_lookup {A} (R : A → A → Prop) l i j a b :
  StronglySorted R l → l !! i = Some a → l !! j = Some b → i < j → R a b.
Proof.
  intros Hs. revert i j.
  induction Hs as [|x l Hl IH Hall]; intros i j Hi Hj Hlt; [done|].
  destruct j as [|j]; [lia|]. destruct i as [|i]; simpl in *.
  - injection Hi as ->.
    eapply (proj1 (Forall_forall _ _) Hall). by eapply list_elem_of_lookup_2.
  - eapply IH; [done|done|lia].
Qed.

(** After a node without visits, a list sorted by [sort_nodes] holds only
    nodes without more visits. *)
Lemma sorted_visits_after color (kids : list (nat * UCTNode)) i n :
  StronglySorted (λ a b, no_better color b.2 a.2) kids →
  kids.*2 !! i = Some n →
  ∀ n', n' ∈ drop i kids.*2 → (m_visits n' ≤ m_visits n)%Z.
Proof.
  intros Hs Hi n' Hin.
  apply list_elem_of_lookup_1 in Hin as [j Hj].
  rewrite lookup_drop in Hj.
  destruct j as [|j].
  { rewrite Nat.add_0_r in Hj. rewrite Hi in Hj. injection Hj as <-. lia. }
  rewrite list_lookup_fmap in Hi, Hj.
  destruct (kids !! i) as [a|] eqn:Ha; [|done].
  destruct (kids !! (i + S j)) as [b|] eqn:Hb; [|done].
  simpl in Hi, Hj. injection Hi as <-. injection Hj as <-.
  by apply (strongly_sorted_lookup _ _ _ _ _ _ Hs Ha Hb ltac:(lia)).
Qed.

Local Arguments get_pv : simpl never.

(** The loop of [dump_stats] over children [cs] that designate the nodes
    [ns]. *)
Lemma dump_stats_loop_spec color s movecount (state : Position) cs ns
      state' lines :
  Forall2 (λ c n, nodes s !! c = Some n) cs ns →
  dump_stats_loop color s movecount state cs = Some (state', lines) →
  length lines ≤ length ns ∧
  line_visits <$> lines = m_visits <$> take (length lines) ns ∧
  line_move <$> lines = (UCI_move ∘ m_move) <$> take (length lines) ns ∧
  (∀ n, ns !! length lines = Some n →
        m_visits n = 0%Z ∧ (2 ≤ movecount + Z.of_nat (length lines))%Z) ∧
  (∀ i l, lines !! i = Some l → (2 ≤ movecount + Z.of_nat i)%Z →
          line_visits l ≠ 0%Z) ∧
  Forall (λ l, ∃ pv, line_pv l = line_move l +:+ " " +:+ pv) lines ∧
  ((∀ m p, undo_move m (do_move m p) = p) → state' = state).
Proof.
  intros Hcs. revert movecount state state' lines.
  induction Hcs as [|c n cs ns Hc Hcs IH];
    intros movecount state state' lines Hloop; simpl in Hloop.
  { injection Hloop as <- <-. by repeat split. }
  rewrite Hc in Hloop. simpl in Hloop.
  destruct ((2 <? movecount + 1)%Z && (m_visits n =? 0)%Z) eqn:Hbreak.
  { injection Hloop as <- <-. apply andb_true_iff in Hbreak as [Htwo Hz].
    apply Z.ltb_lt in Htwo. apply Z.eqb_eq in Hz.
    split; [simpl; lia|]. split; [done|]. split; [done|]. split.
    { simpl. intros n' [= <-]. split; [done|lia]. }
    split; [by intros i l Hl|]. split; [constructor|]. done. }
  destruct (get_pv (depth_bound s) s (do_move (m_move n) state) c)
    as [[st1 pv]|] eqn:Hpv; simpl in Hloop; [|done].
  destruct (dump_stats_loop color s (movecount + 1)
              (undo_move (m_move n) st1) cs) as [[st2 lines2]|] eqn:Hrec;
    simpl in Hloop; [|done].
  injection Hloop as <- <-.
  destruct (IH _ _ _ _ Hrec)
    as (Hlen & Hvis & Hmov & Hnext & Hrows & Hpvs & Hpos).
  split; [simpl; lia|]. split; [csimpl; by rewrite Hvis|].
  split; [csimpl; by rewrite Hmov|]. split.
  { simpl. intros n' Hn'. destruct (Hnext n' Hn') as [Hz Htwo].
    split; [done|lia]. }
  split.
  { intros [|i] l Hl Hi; simpl in Hl.
    - injection Hl as <-. simpl.
      apply andb_false_iff in Hbreak as [Htwo|Hz].
      + apply Z.ltb_ge in Htwo. lia.
      + by apply Z.eqb_neq in Hz.
    - apply (Hrows i l Hl). lia. }
  split; [constructor; [by eexists|done]|].
  intros Hundo. rewrite (Hpos Hundo).
  apply get_pv_line in Hpv as (_ & _ & _ & Hst1).
  by rewrite (Hst1 Hundo), Hundo.
Qed.


Lemma children_of_well_formed node s :
  well_formed (nodes s) = true → node < length (nodes s) →
  ∃ kids, children_of node s = Some kids ∧
          Forall (λ c, node < c < length (nodes s)) kids.*1.
Proof.
  intros Hwf Hlt.
  destruct (lookup_lt_is_Some_2 _ _ Hlt) as [n Hn].
  pose proof (proj1 (well_formed_spec _) Hwf node n) as Hlinks.
  destruct (children_of_total node s n Hn) as [kids Hk].
  { intros c Hin. apply lookup_lt_is_Some. by apply (Hlinks c Hn). }
  exists kids. split; [done|].
  apply children_of_spec in Hk as (n' & Hn' & -> & _).
  rewrite Hn in Hn'. injection Hn' as <-.
  apply Forall_forall. intros c Hc. by apply Hlinks.
Qed.

Lemma dump_stats_loop_total color s movecount (state : Position) cs :
  well_formed (nodes s) = true →
  Forall (λ c, c < length (nodes s)) cs →
  is_Some (dump_stats_loop color s movecount state cs).
Proof.
  intros Hwf Hcs. revert movecount state.
  induction Hcs as [|c cs Hc Hcs IH]; intros movecount state; simpl;
    [by eexists|].
  destruct (lookup_lt_is_Some_2 _ _ Hc) as [n ->]. simpl.
  destruct ((2 <? movecount + 1)%Z && (m_visits n =? 0)%Z); [by eexists|].
  destruct (get_pv_total (depth_bound s) s (do_move (m_move n) state) c)
    as [[st1 pv] ->]; [done|done|unfold depth_bound; lia|].
  simpl.
  destruct (IH (movecount + 1)%Z (undo_move (m_move n) st1))
    as [[st2 lines] ->].
  simpl. by eexists.
Qed.

Lemma reordered_length s s' :
  reordered s s' → length (nodes s') = length (nodes s).
Proof. intros (root & kids & _ & _ & ->). simpl. apply length_alter. Qed.

Lemma reordered_well_formed s s' :
  reordered s s' → well_formed (nodes s) = true →
  well_formed (nodes s') = true.
Proof.
  intros Hre Hwf. apply well_formed_spec. intros i n' c Hi Hc.
  destruct (reordered_lookup _ _ _ _ Hre Hi)
    as (n & Hn & _ & _ & _ & _ & Hperm & _).
  rewrite (reordered_length _ _ Hre).
  apply (proj1 (well_formed_spec _) Hwf i n c Hn). by rewrite <- Hperm.
Qed.


(** A list that is sorted is left as it is by [sort_nodes]. *)
Lemma sort_nodes_sorted_id color l :
  StronglySorted (λ a b, no_better color b.2 a.2) l → sort_nodes color l = l.
Proof.
  unfold sort_nodes. induction 1 as [|x l Hl IH Hall]; [done|].
  simpl. rewrite IH. destruct l as [|y l]; [done|]. simpl.
  apply Forall_cons in Hall as [Hy _].
  apply before_false in Hy. by rewrite Hy.
Qed.

End ReportingFacts.

Section ReportingProperties.
Context {Position : Type} `{!RulesEngine Position} `{!Evaluator Position}
        `{!Parameters} `{!Randomness} `{!Protocol}.

Local Arguments get_pv : simpl never.
Local Arguments dump_stats_loop : simpl never.

(** X12.  [get_pv] follows the best children: in a well-formed tree it
    returns; what it returns is, for the moves met by stepping from the
    parent to the best child until a node without children, their texts
    separated by single spaces (no separator at either end, the empty
    string for a parent without children), provided no move has an empty
    text; and the position is given back as it was when the rules engine
    undoes what it does.  So [dump_analysis], which prints that line for
    the root unless quiet, leaves the root position as it found it. *)
Theorem get_pv_follows_the_best_children :
  (∀ s (state : Position) parent,
      well_formed (nodes s) = true → parent < length (nodes s) →
      is_Some (get_pv (depth_bound s) s state parent)) ∧
  (∀ fuel s (state : Position) parent state' res,
      get_pv fuel s state parent = Some (state', res) →
      ∃ line,
        best_line s state parent line ∧
        ((∀ m, UCI_move m ≠ "") →
         res = String.concat " " (UCI_move <$> line)) ∧
        ((∀ m p, undo_move m (do_move m p) = p) → state' = state)) ∧
  (∀ (rootstate : Position) playouts s state' out,
      dump_analysis rootstate playouts s = Some (state', out) →
      ((∀ m p, undo_move m (do_move m p) = p) → state' = rootstate) ∧
      (cfg_quiet = true → out = None) ∧
      (cfg_quiet = false →
       ∃ root line pv,
         nodes s !! m_root = Some root ∧
         best_line s rootstate m_root line ∧
         ((∀ m, UCI_move m ≠ "") →
          pv = String.concat " " (UCI_move <$> line)) ∧
         out = Some (playouts,
                     (100 * get_eval (side_to_move rootstate) root)%Q, pv))).
Proof.
  split; [|split].
  - intros s state parent Hwf Hlt.
    apply get_pv_total; [done|done|unfold depth_bound; lia].
  - apply get_pv_line.
  - intros rootstate playouts s state' out Hd. unfold dump_analysis in Hd.
    destruct cfg_quiet.
    { injection Hd as <- <-. by repeat split. }
    destruct (get_pv (depth_bound s) s rootstate m_root)
      as [[st pv]|] eqn:Hpv; [|done].
    simpl in Hd.
    destruct (nodes s !! m_root) as [root|] eqn:Hr; [|done].
    simpl in Hd. injection Hd as <- <-.
    apply get_pv_line in Hpv as (line & Hline & Hres & Hpos).
    split; [done|]. split; [done|]. intros _.
    exists root, line, pv. done.
Qed.



(** X14.  The principal variation starts with the move played: after
    [get_best_move] in a well-formed tree, without the randomization of
    the early game, the best child of the root as [get_pv] picks it is
    the first child, whose move [get_best_move] returns unless it
    resigns; so every line that [get_pv] follows from the root starts
    with that move. *)
Theorem principal_variation_starts_with_the_best_move
        (rootstate : Position) s s' m :
  well_formed (nodes s) = true →
  (cfg_random_cnt ≤ game_ply rootstate)%Z →
  get_best_move rootstate s = Some (s', m) →
  ∃ first fn,
    get_first_child m_root s' = Some first ∧
    nodes s' !! first = Some fn ∧
    (m = m_move fn ∨ m = MOVE_NONE) ∧
    get_best_root_child (side_to_move rootstate) m_root s' = Some first ∧
    ∀ line, best_line s' rootstate m_root line →
            ∃ rest, line = m_move fn :: rest.
Proof.
  intros Hwf Hply (Hbest & first & fn & Hfirst & Hfn & Hm)%get_best_move_spec.
  apply best_first_spec in Hbest as (s1 & Hsort & Hrand).
  destruct (Z.ltb_spec (game_ply rootstate) cfg_random_cnt); [lia|].
  subst s1.
  destruct (children_of_sorted _ _ _ Hwf Hsort) as (kids0 & Hk0 & Hk1).
  pose proof (sort_nodes_sorted (side_to_move rootstate) kids0) as Hsorted.
  assert (get_best_root_child (side_to_move rootstate) m_root s'
          = Some first) as Hb.
  { unfold get_best_root_child. rewrite Hk1. simpl.
    rewrite (sort_nodes_sorted_id _ _ Hsorted).
    apply children_of_spec in Hk1 as (root1 & Hr1 & Hkids & _).
    unfold get_first_child in Hfirst. rewrite Hr1 in Hfirst.
    simpl in Hfirst. rewrite <- Hkids in Hfirst.
    by destruct (sort_nodes (side_to_move rootstate) kids0) as [|[c k] rest]. }
  exists first, fn. repeat split; try done.
  intros line Hline.
  inversion Hline as [state parent Hn Hc|state parent child mv rest Hc Hb' Hmv
                                          Hrest]; subst.
  - apply get_first_child_elem in Hfirst as (root1 & Hr1 & Hin & _).
    unfold has_children in Hc. rewrite Hr1 in Hc.
    apply negb_false_iff, bool_decide_eq_true in Hc.
    rewrite Hc in Hin. by apply elem_of_nil in Hin.
  - rewrite Hb in Hb'. injection Hb' as <-.
    unfold get_move in Hmv. rewrite Hfn in Hmv. injection Hmv as <-.
    by eexists.
Qed.

End ReportingProperties.

Section ReturnFacts.
Context {Position : Type} `{!RulesEngine Position} `{!Evaluator Position}
        `{!Parameters} `{!Randomness}.

Lemma sort_root_children_returns color s :
  well_formed (nodes s) = true → 0 < length (nodes s) →
  ∃ s', sort_root_children color s = Some s' ∧ reordered s s'.
Proof.
  intros Hwf Hroot.
  destruct (children_of_well_formed m_root s Hwf Hroot) as (kids & Hk & _).
  assert (∃ s', sort_root_children color s = Some s') as [s' Hs].
  { unfold sort_root_children. rewrite Hk. by eexists. }
  exists s'. split; [done|]. by eapply sort_root_children_reordered.
Qed.

Lemma randomize_returns s :
  well_formed (nodes s) = true → 0 < length (nodes s) →
  ∃ s', randomize_first_proportionally s = Some s' ∧ reordered s s'.
Proof.
  intros Hwf Hroot.
  destruct (children_of_well_formed m_root s Hwf Hroot) as (kids & Hk & _).
  assert (∃ s', randomize_first_proportionally s = Some s') as [s' Hs].
  { unfold randomize_first_proportionally. rewrite Hk. by eexists. }
  exists s'. split; [done|]. by eapply randomize_reordered.
Qed.

Lemma get_best_move_returns (rootstate : Position) s :
  well_formed (nodes s) = true → has_children m_root s = true →
  ∃ s' m, get_best_move rootstate s = Some (s', m) ∧ reordered s s'.
Proof.
  intros Hwf Hc.
  destruct (has_children_root _ Hc) as (root & Hr & _).
  assert (0 < length (nodes s)) as Hroot by (by eapply lookup_lt_Some).
  assert (∃ s1, best_first rootstate s = Some s1) as [s1 Hs1].
  { unfold best_first.
    destruct (sort_root_children_returns (side_to_move rootstate) s Hwf Hroot)
      as (s0 & -> & Hre0).
    simpl. destruct (game_ply rootstate <? cfg_random_cnt)%Z; [|by eexists].
    destruct (randomize_returns s0) as (s1 & -> & _); [| |by eexists].
    - by eapply reordered_well_formed.
    - by rewrite (reordered_length _ _ Hre0). }
  apply best_first_reordered in Hs1 as Hre.
  pose proof (reordered_well_formed _ _ Hre Hwf) as Hwf1.
  rewrite <- (has_children_reordered _ _ Hre) in Hc.
  destruct (has_children_root _ Hc) as (root1 & Hr1 & Hne).
  destruct (m_children root1) as [|first rest] eqn:Hk; [done|].
  destruct (lookup_lt_is_Some_2 (nodes s1) first) as [fn Hfn].
  { apply (proj1 (well_formed_spec _) Hwf1 m_root root1 first Hr1).
    rewrite Hk. by left. }
  unfold get_best_move. rewrite Hs1. simpl.
  unfold get_first_child. rewrite Hr1. simpl. rewrite Hk. simpl.
  rewrite Hfn. simpl.
  destruct (first_visit fn); [eauto|].
  destruct (should_resign _ _ _); eauto.
Qed.

Lemma dump_stats_returns (rootstate : Position) s :
  well_formed (nodes s) = true → 0 < length (nodes s) →
  ∃ s', dump_stats rootstate s = Some s' ∧ (s' = s ∨ reordered s s').
Proof.
  intros Hwf Hroot. unfold dump_stats.
  destruct (cfg_quiet || negb (has_children m_root s)); [eauto|].
  destruct (sort_root_children_returns (side_to_move rootstate) s Hwf Hroot)
    as (s' & Hs & Hre).
  eauto.
Qed.

Lemma m_run_reordered s s' : reordered s s' → m_run s' = m_run s.
Proof. by intros (root & kids & _ & _ & ->). Qed.

End ReturnFacts.

Section ReturnProperties.
Context {Position : Type} `{!RulesEngine Position} `{!Evaluator Position}
        `{!Parameters} `{!Randomness}.

(** X15.  [think] and [ponder] return once their threads have joined,
    without dereferencing a child that is not there; they return with the
    run flag cleared, and the tree they leave is the tree of the search
    but for the order of the children of the root.  [think] on a root
    that still has no children returns MOVE_NONE. *)
Theorem searches_return_stopped sched (rootstate : Position) s :
  well_formed (nodes s) = true → 0 < length (nodes s) →
  m_playouts s = 0%Z → m_nodes s = 0%Z →
  (∃ w, think_search sched rootstate s = Some w ∧
        (joined w = true →
         ∃ s' m, think sched rootstate s = Some (s', m) ∧
                 m_run s' = false ∧
                 (s' = search w ∨ reordered (search w) s') ∧
                 (has_children m_root (search w) = false →
                  m = MOVE_NONE))) ∧
  (∃ w, ponder_search sched rootstate s = Some w ∧
        (joined w = true →
         ∃ s', ponder sched rootstate s = Some s' ∧
               m_run s' = false ∧
               (s' = search w ∨ reordered (search w) s'))).
Proof.
  intros Hwf Hroot Hp Hn. split.
  - destruct (think_search_total sched rootstate s Hwf Hroot Hp Hn)
      as [w Hw].
    exists w. split; [done|]. intros Hj.
    pose proof Hw as (_ & _ & s1 & o & Hc & Hrun)%think_search_run.
    apply joined_spec in Hj as Hleft. destruct Hleft as [Hmain _].
    pose proof (run_caller_left _ _ _ _ _ Hrun Hmain) as Hoff.
    assert (well_formed (nodes (search w)) = true ∧
            0 < length (nodes (search w))) as [Hwfw Hrootw].
    { apply run_facts in Hrun as (_ & _ & Hwf' & Hlen' & _).
      pose proof (create_children_well_formed _ _ _ _ _ Hc Hwf) as Hwf1.
      assert (0 < length (nodes s1)) as Hroot1.
      { apply losses_create_children in Hc as [k Hk]. unfold losses in Hk.
        rewrite <- (length_fmap m_virtual_loss (nodes s1)), Hk.
        rewrite length_app, length_fmap. lia. }
      simpl in Hwf', Hlen'. destruct cfg_noise.
      - rewrite (well_formed_children _ (nodes s1)) in Hwf'
          by apply children_dirichlet_noise.
        rewrite <- (length_fmap m_children), children_dirichlet_noise,
          length_fmap in Hlen'.
        split; [auto|lia].
      - split; [auto|lia]. }
    unfold think. rewrite Hw. simpl. rewrite Hj.
    destruct (has_children m_root (search w)) eqn:Hcw; simpl.
    2:{ eexists _, _. split; [done|]. split; [done|]. split; [by left|done]. }
    destruct (dump_stats_returns rootstate (search w) Hwfw Hrootw)
      as (s2 & -> & Hs2). simpl.
    assert (well_formed (nodes s2) = true ∧ has_children m_root s2 = true ∧
            m_run s2 = false) as (Hwf2 & Hc2 & Hoff2).
    { destruct Hs2 as [->|Hre]; [done|].
      split; [by eapply reordered_well_formed|].
      split; [by rewrite (has_children_reordered _ _ Hre)|].
      by rewrite (m_run_reordered _ _ Hre). }
    destruct (get_best_move_returns rootstate s2 Hwf2 Hc2)
      as (s' & m & -> & Hre).
    exists s', m. split; [done|].
    split; [by rewrite (m_run_reordered _ _ Hre)|].
    split; [|done]. right.
    destruct Hs2 as [->|Hre2]; [done|]. by eapply reordered_trans.
  - destruct (ponder_search_total sched rootstate s Hwf Hroot Hp Hn)
      as [w Hw].
    exists w. split; [done|]. intros Hj.
    pose proof Hw as [Hrun _]%ponder_search_start.
    apply joined_spec in Hj as Hleft. destruct Hleft as [Hmain _].
    pose proof (run_caller_left _ _ _ _ _ Hrun Hmain) as Hoff.
    apply run_facts in Hrun as (_ & _ & Hwf' & Hlen' & _).
    unfold ponder. rewrite Hw. simpl. rewrite Hj.
    destruct (dump_stats_returns rootstate (search w)) as (s' & -> & Hs');
      [by apply Hwf'|simpl in Hlen'; lia|].
    exists s'. split; [done|]. split; [|done].
    destruct Hs' as [->|Hre]; [done|]. by rewrite (m_run_reordered _ _ Hre).
Qed.

End ReturnProperties.

Section StatisticsFacts.
Context {Position : Type} `{!RulesEngine Position} `{!Evaluator Position}
        `{!Parameters} `{!Randomness}.

Local Arguments on_entry : simpl never.
Local Arguments on_exit : simpl never.
Local Arguments call : simpl never.
Local Arguments play_simulation : simpl never.

Lemma lookup_on_exit_invalid (pos : Position) node s :
  nodes (on_exit pos node Invalid s) !! node
  = node_virtual_loss_undo <$> nodes s !! node.
Proof.
  unfold on_exit, TT_update, virtual_loss_undo. simpl.
  by rewrite list_lookup_alter_eq.
Qed.

(** When the hash of the position is not registered to another node, the
    entry only adds the virtual loss. *)
Lemma lookup_on_entry_registered (pos : Position) node s :
  tt s !! key pos = None ∨ tt s !! key pos = Some node →
  nodes (on_entry pos node s) !! node
  = node_virtual_loss <$> nodes s !! node.
Proof.
  intros Htt. unfold on_entry, virtual_loss, TT_sync. simpl.
  rewrite list_lookup_alter_eq. f_equal.
  unfold merge_registered. destruct Htt as [->| ->]; [done|].
  by rewrite decide_True.
Qed.

(** The node of a descent ends with one more visit when the result is
    valid, and with the visits it had after the entry otherwise. *)
Lemma descent_counts_node s (pos : Position) node s' pos' r :
  descent s pos node s' pos' r →
  well_formed (nodes s) = true →
  ∃ n0 n1,
    nodes (on_entry pos node s) !! node = Some n0 ∧
    nodes s' !! node = Some n1 ∧
    m_visits n1 = (m_visits n0 + if valid r then 1 else 0)%Z.
Proof.
  intros Hd Hwf. destruct r as [|e].
  2:{ destruct (descent_updates_node _ _ _ _ _ _ Hd Hwf)
        as (n0 & n1 & Ha & Hb & Hv & _).
      by exists n0, n1. }
  assert (is_Some (nodes (on_entry pos node s) !! node)) as [n0 Hn0].
  { apply lookup_lt_is_Some. rewrite <- shape_length, shape_on_entry.
    rewrite shape_length. apply lookup_lt_is_Some.
    by destruct Hd. }
  exists n0.
  enough (∃ n1, nodes s' !! node = Some n1 ∧ m_visits n1 = m_visits n0)
    as (n1 & ? & ?) by (exists n1; simpl; split; [done|split; [done|lia]]).
  remember Invalid as r eqn:Hr.
  destruct Hd as [s pos node Hn Hc Ht|s pos node s1 o Hn Hc Ht Hm Hcc r
                 |s pos node Hn Hc Ht Hm
                 |s pos node next move s2 p2 r2 Hn Hc Hsel Hmv Hrec].
  - done.
  - destruct o as [e'|]; [done|].
    rewrite lookup_on_exit_invalid.
    apply create_children_spec in Hcc as (_ & _ & _ & _ & _ & [-> _]).
    rewrite Hn0. by eexists.
  - done.
  - subst r2. rewrite lookup_on_exit_invalid.
    change (nodes (call _ ?x)) with (nodes x).
    assert (well_formed (nodes (on_entry pos node s)) = true) as Hwf1.
    { by rewrite (well_formed_shape _ s) by apply shape_on_entry. }
    apply uct_select_child_spec in Hsel as (parent & Hp & Hin & _).
    pose proof Hwf1 as Hwf2. rewrite well_formed_spec in Hwf2.
    specialize (Hwf2 node parent next Hp Hin).
    rewrite (descent_below _ _ _ _ _ _ Hrec) by (done || lia).
    change (nodes (call _ ?x)) with (nodes x). rewrite Hn0.
    by eexists.
Qed.

(** What a step of a schedule does to the search: nothing but to the run
    flag, or the body of a loop and then nothing but to the run flag. *)
Lemma step_search mode (rootstate : Position) a w w' :
  step mode rootstate a w = Some w' →
  (∃ b, search w' = search w ∨ search w' = set_m_run b (search w)) ∨
  (∃ s' r b,
      descend_and_count rootstate (search w) = Some (s', r) ∧
      (search w' = s' ∨ search w' = set_m_run b s')).
Proof.
  intros Hs. destruct a as [[|i]| |]; simpl in Hs.
  - destruct (main_in_loop w); [|left; exists false; left; by simplify_eq].
    right.
    assert (∃ s' r again,
               descend_and_count rootstate (search w) = Some (s', r) ∧
               (match mode with
                | Think => think_iteration rootstate (search w)
                | Ponder => ponder_iteration rootstate (input_pending w)
                                             (search w)
                end) = Some (s', r, again)) as (s' & r & again & Hdc & Hit).
    { unfold think_iteration, ponder_iteration in *.
      destruct (descend_and_count rootstate (search w)) as [[s' r]|];
        [|by destruct mode].
      destruct mode; simpl; eauto 10. }
    rewrite Hit in Hs. simpl in Hs. injection Hs as <-. simpl.
    exists s', r, false. split; [done|]. destruct again; eauto.
  - destruct (workers_in_loop w !! i) as [[|]|];
      [|left; exists false; left; by simplify_eq..].
    right. unfold worker_iteration in Hs.
    destruct (descend_and_count rootstate (search w)) as [[s' r]|]; [|done].
    simpl in Hs. injection Hs as <-. simpl. exists s', r, false. eauto.
  - left. exists false. right. by simplify_eq.
  - left. exists false. left. by simplify_eq.
Qed.

Lemma visits_dirichlet_noise eps s :
  stats <$> nodes (dirichlet_noise eps s) = stats <$> nodes s.
Proof.
  unfold dirichlet_noise.
  destruct (nodes s !! m_root) as [root|]; [|done]. simpl.
  induction (imap pair (m_children root)) as [|ic l IH]; [done|]. simpl.
  rewrite (list_fmap_alter _ _ id); [|apply Forall_forall; done].
  rewrite list_alter_id by done. apply IH.
Qed.

(** One descent from the root, when the hash of the root position is
    registered to the root or to nothing: the root counts the descent if
    its result is valid, and the hash is registered to the root. *)
Lemma descent_root_visits s (pos : Position) s' pos' r root :
  descent s pos m_root s' pos' r →
  well_formed (nodes s) = true →
  tt s !! key pos = None ∨ tt s !! key pos = Some m_root →
  nodes s !! m_root = Some root →
  ∃ root', nodes s' !! m_root = Some root' ∧
           m_visits root'
           = (m_visits root + if valid r then 1 else 0)%Z ∧
           tt s' !! key pos = Some m_root.
Proof.
  intros Hd Hwf Htt Hroot.
  destruct (descent_counts_node _ _ _ _ _ _ Hd Hwf)
    as (n0 & n1 & Hn0 & Hn1 & Hv).
  rewrite (lookup_on_entry_registered _ _ _ Htt), Hroot in Hn0.
  injection Hn0 as <-.
  exists n1. split; [done|]. split; [done|]. by eapply descent_tt.
Qed.

Lemma stats_in_range_stats n n' :
  stats n' = stats n → stats_in_range n → stats_in_range n'.
Proof. unfold stats, stats_in_range. by intros [= -> ->]. Qed.

Lemma stats_in_range_update e n :
  (0 <= e)%Q ∧ (e <= 1)%Q → stats_in_range n →
  stats_in_range (node_update e n).
Proof.
  intros [He0 He1] (Hv & Hlo & Hhi). unfold stats_in_range. simpl.
  split; [lia|]. split.
  - rewrite <- (Qplus_0_r 0). by apply Qplus_le_compat.
  - rewrite inject_Z_plus. by apply Qplus_le_compat.
Qed.

Lemma in_range_alter (f : UCTNode → UCTNode) i (l : list UCTNode) :
  (∀ n, stats (f n) = stats n) →
  Forall stats_in_range l → Forall stats_in_range (alter f i l).
Proof.
  intros Hf Hl. apply Forall_alter; [done|].
  intros n _. by apply stats_in_range_stats.
Qed.

Lemma in_range_merge_registered h node s :
  Forall stats_in_range (nodes s) →
  Forall stats_in_range (merge_registered h node s).
Proof.
  intros Hs. unfold merge_registered.
  destruct (tt s !! h) as [other|]; [|done].
  destruct (decide (other = node)) as [|Hne]; [done|].
  destruct (nodes s !! other) as [o|] eqn:Ho; [|done].
  apply Forall_alter; [done|]. intros n _ _.
  apply (stats_in_range_stats o); [done|].
  eapply (proj1 (Forall_forall _ _) Hs). by eapply list_elem_of_lookup_2.
Qed.

Lemma in_range_on_entry (pos : Position) node s :
  Forall stats_in_range (nodes s) →
  Forall stats_in_range (nodes (on_entry pos node s)).
Proof.
  intros Hs. unfold on_entry, virtual_loss, TT_sync. simpl.
  apply in_range_alter; [done|]. by apply in_range_merge_registered.
Qed.

Lemma in_range_on_exit (pos : Position) node r s :
  result_in_range r →
  Forall stats_in_range (nodes s) →
  Forall stats_in_range (nodes (on_exit pos node r s)).
Proof.
  intros Hr Hs. unfold on_exit, TT_update, virtual_loss_undo, update.
  destruct r as [|e]; simpl.
  - by apply in_range_alter.
  - apply in_range_alter; [done|].
    apply Forall_alter; [done|]. intros n _. by apply stats_in_range_update.
Qed.

Lemma in_range_create_children node (pos : Position) s s1 o :
  create_children node pos s = (s1, o) →
  Forall stats_in_range (nodes s) → Forall stats_in_range (nodes s1).
Proof.
  intros Hcc Hs.
  apply create_children_spec in Hcc as (_ & _ & _ & _ & _ & Ho).
  destruct o as [e|].
  - destruct Ho as (policy & n & _ & _ & _ & -> & _).
    apply Forall_app. split; [by apply in_range_alter|].
    apply Forall_forall. intros k Hk.
    apply list_elem_of_In, in_map_iff in Hk as (m & <- & _).
    unfold stats_in_range. simpl. done.
  - by destruct Ho as [-> _].
Qed.

Lemma terminal_score_in_range (pos : Position) :
  result_in_range (from_score (terminal_score pos)).
Proof.
  unfold terminal_score, from_score, result_in_range.
  destruct (is_draw pos || (checkers pos =? 0)%Z); [done|].
  by destruct (side_to_move pos).
Qed.

(** A descent keeps the statistics consistent and returns a probability,
    when the evaluator returns probabilities. *)
Lemma descent_in_range s (pos : Position) node s' pos' r :
  (∀ (p : Position) e policy,
      nn_forward p = Some (e, policy) → (0 <= e)%Q ∧ (e <= 1)%Q) →
  (∀ p : Position, (0 <= nn_value p)%Q ∧ (nn_value p <= 1)%Q) →
  descent s pos node s' pos' r →
  Forall stats_in_range (nodes s) →
  Forall stats_in_range (nodes s') ∧ result_in_range r.
Proof.
  intros Hfw Hval.
  induction 1 as [s pos node Hn Hc Ht
                 |s pos node s1 o Hn Hc Ht Hm Hcc r
                 |s pos node Hn Hc Ht Hm
                 |s pos node next move s2 p2 r2 Hn Hc Hsel Hmv Hd IH];
    intros Hs.
  - pose proof (terminal_score_in_range pos) as Hr.
    split; [|done]. by apply in_range_on_exit, in_range_on_entry.
  - assert (result_in_range r) as Hr.
    { subst r. destruct o as [e|]; [|done].
      apply create_children_spec in Hcc as (_ & _ & _ & _ & _ & Ho).
      destruct Ho as (policy & n & Hf & _). by eapply Hfw. }
    split; [|done]. apply in_range_on_exit; [done|].
    eapply in_range_create_children; [done|]. by apply in_range_on_entry.
  - split; [|apply Hval].
    apply in_range_on_exit; [apply Hval|].
    rewrite nodes_call. by apply in_range_on_entry.
  - destruct IH as [Hs2 Hr2].
    { rewrite nodes_call. by apply in_range_on_entry. }
    split; [|done]. apply in_range_on_exit; [done|]. by rewrite nodes_call.
Qed.

Lemma run_in_range mode (rootstate : Position) sched w w' :
  (∀ (p : Position) e policy,
      nn_forward p = Some (e, policy) → (0 <= e)%Q ∧ (e <= 1)%Q) →
  (∀ p : Position, (0 <= nn_value p)%Q ∧ (nn_value p <= 1)%Q) →
  run mode rootstate sched w = Some w' →
  Forall stats_in_range (nodes (search w)) →
  Forall (λ d, result_in_range d.2) (descents w) →
  Forall stats_in_range (nodes (search w')) ∧
  Forall (λ d, result_in_range d.2) (descents w').
Proof.
  intros Hfw Hval Hrun Hs Hd.
  eapply (run_invariant (λ _, true)
            (λ x, Forall stats_in_range (nodes (search x)) ∧
                  Forall (λ d, result_in_range d.2) (descents x)));
    [|apply forallb_true| |exact Hrun]; [|done].
  intros a w1 w2 _ [Hs1 Hd1] Hstep.
  apply step_cases in Hstep
    as [(-> & _ & -> & _)
       |(t & s' & r & again & _ & _ & Hit & -> & -> & _)]; [done|].
  apply iteration_spec in Hit as (Hdc & _).
  apply descend_and_count_spec in Hdc as (s2 & p2 & Hps & ->).
  apply play_simulation_descent in Hps.
  destruct (descent_in_range _ _ _ _ _ _ Hfw Hval Hps Hs1) as [Hs2 Hr].
  split; [by destruct (valid r)|].
  apply Forall_app. split; [done|]. by constructor.
Qed.

End StatisticsFacts.

Section StatisticsProperties.
Context {Position : Type} `{!RulesEngine Position} `{!Evaluator Position}
        `{!Parameters} `{!Randomness}.


(** X17.  The statistics stay consistent: when the evaluator returns
    probabilities, every descent returns Invalid or an evaluation between
    0 and 1, and in every node the visit count is not negative and the
    sum of the evaluations backed up lies between 0 and the visit count,
    after a descent and under every schedule of the threads of [think]
    and of [ponder]; so the mean evaluation of a visited node is a
    probability. *)
Theorem statistics_stay_in_range :
  (∀ (p : Position) e policy,
      nn_forward p = Some (e, policy) → (0 <= e)%Q ∧ (e <= 1)%Q) →
  (∀ p : Position, (0 <= nn_value p)%Q ∧ (nn_value p <= 1)%Q) →
  (∀ fuel s (pos : Position) node s' pos' r,
      play_simulation fuel s pos node = Some (s', pos', r) →
      Forall stats_in_range (nodes s) →
      Forall stats_in_range (nodes s') ∧ result_in_range r) ∧
  (∀ sched (rootstate : Position) s,
      well_formed (nodes s) = true → 0 < length (nodes s) →
      m_playouts s = 0%Z → m_nodes s = 0%Z →
      Forall stats_in_range (nodes s) →
      (∃ w, think_search sched rootstate s = Some w ∧
            Forall stats_in_range (nodes (search w)) ∧
            Forall (λ d, result_in_range d.2) (descents w)) ∧
      (∃ w, ponder_search sched rootstate s = Some w ∧
            Forall stats_in_range (nodes (search w)) ∧
            Forall (λ d, result_in_range d.2) (descents w))).
Proof.
  intros Hfw Hval. split.
  - intros fuel s pos node s' pos' r Hps.
    apply play_simulation_descent in Hps. by eapply descent_in_range.
  - intros sched rootstate s Hwf Hroot Hp Hn Hs. split.
    + destruct (think_search_total sched rootstate s Hwf Hroot Hp Hn)
        as [w Hw].
      exists w. split; [done|].
      apply think_search_run in Hw as (_ & _ & s1 & o & Hc & Hrun).
      eapply run_in_range; [done|done|exact Hrun| |constructor].
      simpl. pose proof (in_range_create_children _ _ _ _ _ Hc Hs) as Hs1.
      destruct cfg_noise; [|done].
      pose proof (visits_dirichlet_noise (1 / 4) s1) as Hstats.
      apply Forall_lookup. intros i n Hi.
      assert (stats <$> nodes (dirichlet_noise (1 / 4) s1) !! i
              = stats <$> nodes s1 !! i) as Hlook
          by (by rewrite <- !list_lookup_fmap, Hstats).
      rewrite Hi in Hlook.
      destruct (nodes s1 !! i) as [n1|] eqn:Hn1; [|done].
      injection Hlook as Hv He.
      apply (stats_in_range_stats n1); [unfold stats; congruence|].
      by eapply (proj1 (Forall_lookup _ _) Hs1).
    + destruct (ponder_search_total sched rootstate s Hwf Hroot Hp Hn)
        as [w Hw].
      exists w. split; [done|].
      apply ponder_search_start in Hw as [Hrun _].
      eapply run_in_range; [done|done|exact Hrun|done|constructor].
Qed.

End StatisticsProperties.

Section LegalPlayFacts.
Context {Position : Type} `{!RulesEngine Position} `{!Evaluator Position}
        `{!Parameters} `{!Randomness}.

Local Arguments on_entry : simpl never.
Local Arguments on_exit : simpl never.
Local Arguments call : simpl never.
Local Arguments play_simulation : simpl never.

(** [positioned] looks at the moves and the children only. *)
Lemma positioned_ext (pl : nat → Position) s s' :
  m_move <$> nodes s' = m_move <$> nodes s →
  m_children <$> nodes s' = m_children <$> nodes s →
  positioned pl s → positioned pl s'.
Proof.
  intros Hm Hk Hs i n' c nc' Hi Hc Hnc.
  assert (∀ j x', nodes s' !! j = Some x' →
                  ∃ x, nodes s !! j = Some x ∧ m_move x = m_move x' ∧
                       m_children x = m_children x') as Hback.
  { intros j x' Hj.
    assert (m_move <$> nodes s' !! j = m_move <$> nodes s !! j) as H1
        by (by rewrite <- !list_lookup_fmap, Hm).
    assert (m_children <$> nodes s' !! j = m_children <$> nodes s !! j) as H2
        by (by rewrite <- !list_lookup_fmap, Hk).
    rewrite Hj in H1, H2. destruct (nodes s !! j) as [x|]; [|done].
    injection H1 as H1. injection H2 as H2. by exists x. }
  destruct (Hback i n' Hi) as (n & Hn & _ & Hkn).
  destruct (Hback c nc' Hnc) as (nc & Hncs & Hmc & _).
  rewrite <- Hmc. apply (Hs i n c nc Hn); [by rewrite Hkn|done].
Qed.

Lemma moves_shape s1 s2 :
  shape s1 = shape s2 → m_move <$> nodes s1 = m_move <$> nodes s2.
Proof.
  intros Hs.
  assert (∀ s, m_move <$> nodes s = (λ x, x.1.1.1) <$> shape s) as Hl.
  { intros s. unfold shape. rewrite <- list_fmap_compose. done. }
  by rewrite !Hl, Hs.
Qed.

Lemma positioned_shape (pl : nat → Position) s s' :
  shape s' = shape s → positioned pl s → positioned pl s'.
Proof.
  intros Hs. apply positioned_ext; [by apply moves_shape|].
  by apply children_shape.
Qed.

(** The children that an expansion appends get the positions their moves
    lead to; the nodes that were there keep theirs. *)
Lemma create_children_positioned (pl : nat → Position) node
      (pos : Position) s s1 o :
  create_children node pos s = (s1, o) →
  well_formed (nodes s) = true →
  positioned pl s → pl node = pos →
  ∃ pl', positioned pl' s1 ∧ ∀ i, i < length (nodes s) → pl' i = pl i.
Proof.
  intros Hcc Hwf Hs Hat.
  apply create_children_spec in Hcc as (_ & _ & _ & _ & _ & Ho).
  destruct o as [e|].
  2:{ destruct Ho as [Hn _]. exists pl. split; [|done].
      intros i n c nc. rewrite Hn. apply Hs. }
  destruct Ho as (policy & n0 & _ & Hn0 & _ & Hnodes & _).
  set (len := length (nodes s)) in *.
  exists (λ i, if decide (i < len) then pl i
               else match legal_moves pos !! (i - len) with
                    | Some m => do_move m pos
                    | None => pos
                    end).
  split; [|by intros i Hi; rewrite decide_True].
  assert (∀ j x, nodes s1 !! j = Some x → j < len →
                 ∃ x0, nodes s !! j = Some x0 ∧ m_move x = m_move x0 ∧
                       (j ≠ node → x = x0) ∧
                       (j = node →
                        m_children x = seq len (length (legal_moves pos))))
    as Hold.
  { intros j x Hj Hlt. rewrite Hnodes in Hj.
    rewrite lookup_app_l in Hj by (by rewrite length_alter).
    destruct (decide (j = node)) as [->|Hne].
    - rewrite list_lookup_alter_eq, Hn0 in Hj. injection Hj as <-.
      exists n0. by repeat split.
    - rewrite list_lookup_alter_ne in Hj by done. exists x.
      by repeat split. }
  assert (∀ j x, nodes s1 !! j = Some x → ¬ j < len →
                 ∃ m, legal_moves pos !! (j - len) = Some m ∧
                      x = new_node m (policy m)) as Hnew.
  { intros j x Hj Hge. rewrite Hnodes in Hj.
    rewrite lookup_app_r in Hj by (rewrite length_alter; unfold len; lia).
    rewrite length_alter in Hj.
    change (map ?f ?l) with (f <$> l) in Hj.
    rewrite list_lookup_fmap in Hj. fold len in Hj.
    destruct (legal_moves pos !! (j - len)) as [m|] eqn:Hm; [|done].
    injection Hj as <-. by exists m. }
  intros i n c nc Hi Hc Hnc.
  destruct (decide (i < len)) as [Hlt|Hge].
  - destruct (Hold i n Hi Hlt) as (n' & Hn' & _ & Hsame & Hnode).
    destruct (decide (i = node)) as [->|Hne].
    + rewrite (Hnode eq_refl) in Hc. apply elem_of_seq in Hc as [Hlo Hhi].
      rewrite decide_False by lia.
      destruct (Hnew c nc Hnc ltac:(lia)) as (m & Hm & ->).
      rewrite Hm. simpl. rewrite Hat. split; [|done].
      by eapply list_elem_of_lookup_2.
    + rewrite (Hsame Hne) in Hc.
      pose proof (proj1 (well_formed_spec _) Hwf i n' c Hn' Hc) as [_ Hcl].
      rewrite decide_True by done.
      destruct (Hold c nc Hnc Hcl) as (nc' & Hnc' & Hmove & _).
      rewrite Hmove. by apply (Hs i n' c nc').
  - destruct (Hnew i n Hi Hge) as (m & _ & ->). simpl in Hc.
    by apply elem_of_nil in Hc.
Qed.

Lemma moves_legal_entry (cur : Position) below h n rest :
  moves_legal cur below (entry_calls h n ++ rest)
  = moves_legal cur below rest.
Proof. done. Qed.

Lemma moves_legal_exit (cur : Position) below h n r rest :
  moves_legal cur below (exit_calls h n r ++ rest)
  = moves_legal cur below rest.
Proof. by destruct r. Qed.

(** A descent from a node in its position plays legal moves only, and
    leaves every node with a position. *)
Lemma descent_positioned s (pos : Position) node s' pos' r :
  descent s pos node s' pos' r →
  ∀ pl : nat → Position,
    well_formed (nodes s) = true → positioned pl s → pl node = pos →
    ∃ tr pl',
      calls s' = calls s ++ tr ∧
      (∀ below rest, moves_legal pos below (tr ++ rest)
                     = moves_legal pos below rest) ∧
      positioned pl' s' ∧
      ∀ i, i < length (nodes s) → pl' i = pl i.
Proof.
  induction 1 as [s pos node Hn Hc Ht
                 |s pos node s1 o Hn Hc Ht Hm Hcc r
                 |s pos node Hn Hc Ht Hm
                 |s pos node next move s2 p2 r2 Hn Hc Hsel Hmv Hd IH];
    intros pl Hwf Hs Hat.
  - eexists _, pl. split.
    { by rewrite calls_on_exit, calls_on_entry, <- app_assoc. }
    split.
    { intros below rest.
      by rewrite <- app_assoc, moves_legal_entry, moves_legal_exit. }
    split; [|done].
    apply (positioned_shape _ s); [|done].
    by rewrite shape_on_exit, shape_on_entry.
  - destruct (create_children_positioned pl _ _ _ _ _ Hcc)
      as (pl' & H2 & Ha).
    { by rewrite (well_formed_shape _ s) by apply shape_on_entry. }
    { apply (positioned_shape _ s); [apply shape_on_entry|done]. }
    { done. }
    rewrite length_on_entry in Ha.
    apply create_children_spec in Hcc as (_ & _ & _ & _ & Hcalls & _).
    eexists _, pl'. split.
    { rewrite calls_on_exit, Hcalls, calls_on_entry, <- !app_assoc. done. }
    split.
    { intros below rest.
      rewrite <- !app_assoc, moves_legal_entry. simpl.
      by rewrite ?moves_legal_exit. }
    split; [|done].
    apply (positioned_shape _ s1); [apply shape_on_exit|done].
  - eexists _, pl. split.
    { rewrite calls_on_exit, calls_call, calls_on_entry, <- !app_assoc.
      done. }
    split.
    { intros below rest.
      rewrite <- !app_assoc, moves_legal_entry. simpl.
      by rewrite ?moves_legal_exit. }
    split; [|done].
    apply (positioned_shape _ s); [|done].
    by rewrite shape_on_exit, shape_call, shape_on_entry.
  - assert (positioned pl (on_entry pos node s)) as Hs1.
    { apply (positioned_shape _ s); [apply shape_on_entry|done]. }
    assert (well_formed (nodes (on_entry pos node s)) = true) as Hwf1.
    { by rewrite (well_formed_shape _ s) by apply shape_on_entry. }
    apply uct_select_child_spec in Hsel as (parent & Hp & Hin & _).
    unfold get_move in Hmv.
    destruct (nodes (on_entry pos node s) !! next) as [nx|] eqn:Hnx;
      [|done].
    injection Hmv as <-.
    destruct (Hs1 node parent next nx Hp Hin Hnx) as [Hlegal Hnext].
    rewrite Hat in Hlegal, Hnext.
    destruct (IH pl) as (tr & pl' & Hcalls & Hinner & H2 & Ha).
    { by rewrite nodes_call. }
    { apply (positioned_shape _ (on_entry pos node s));
        [apply shape_call|done]. }
    { done. }
    rewrite nodes_call, length_on_entry in Ha.
    eexists _, pl'. split.
    { rewrite calls_on_exit, calls_call, Hcalls, calls_call, calls_on_entry.
      rewrite <- !app_assoc. done. }
    split.
    { intros below rest.
      rewrite <- !app_assoc, moves_legal_entry. simpl.
      rewrite bool_decide_eq_true_2 by done. simpl.
      rewrite Hinner. simpl. by rewrite ?moves_legal_exit. }
    split; [|done].
    apply (positioned_shape _ s2); [|done].
    by rewrite shape_on_exit, shape_call.
Qed.

Lemma descent_node s (pos : Position) node s' pos' r :
  descent s pos node s' pos' r → is_Some (nodes s !! node).
Proof. by destruct 1. Qed.

Lemma calls_dirichlet_noise eps s :
  calls (dirichlet_noise eps s) = calls s.
Proof. unfold dirichlet_noise. by destruct (nodes s !! m_root). Qed.

Lemma legal_play_flag (rootstate : Position) s0 x b :
  legal_play rootstate s0 x → legal_play rootstate s0 (set_m_run b x).
Proof. done. Qed.

Lemma run_legal_play mode (rootstate : Position) s0 sched w w' :
  run mode rootstate sched w = Some w' →
  legal_play rootstate s0 (search w) → legal_play rootstate s0 (search w').
Proof.
  intros Hrun Hw.
  eapply (run_invariant (λ _, true)
            (λ x, legal_play rootstate s0 (search x)));
    [|apply forallb_true|exact Hw|exact Hrun].
  intros a w1 w2 _ HP Hs.
  apply step_search in Hs
    as [[b [->| ->]]|(s' & r & b & Hdc & Hs')];
    [done|by apply legal_play_flag|].
  assert (legal_play rootstate s0 s') as HP'.
  { destruct HP as (Hwf1 & pl & tr & Hpl & Hroot & Hcalls & Htr).
    pose proof (descend_and_count_facts _ _ _ _ Hdc)
      as (_ & _ & _ & _ & Hwf').
    apply descend_and_count_spec in Hdc as (s2 & p2 & Hps & ->).
    apply play_simulation_descent in Hps.
    assert (0 < length (nodes (search w1))) as Hlen.
    { apply lookup_lt_is_Some. by eapply descent_node. }
    destruct (descent_positioned _ _ _ _ _ _ Hps pl Hwf1 Hpl Hroot)
      as (tr' & pl' & Hcalls' & Htr' & Hpl' & Hagree).
    split; [by apply Hwf'|].
    exists pl', (tr ++ tr').
    split; [by destruct (valid r)|].
    split; [by rewrite Hagree by exact Hlen|].
    split.
    { rewrite app_assoc, <- Hcalls, <- Hcalls'. by destruct (valid r). }
    intros rest. by rewrite <- app_assoc, Htr, Htr'. }
  destruct Hs' as [->| ->]; [done|by apply legal_play_flag].
Qed.

End LegalPlayFacts.

Section LegalPlayProperties.
Context {Position : Type} `{!RulesEngine Position} `{!Evaluator Position}
        `{!Parameters} `{!Randomness}.

(** X18.  A search gives [do_move] legal moves only: when every node has
    a position in which its children carry legal moves and which their
    moves lead to, each [do_move] of a descent from a node in its
    position is called with a move that is legal in the position it is
    applied to, and the children the descent appends are positioned the
    same way; so under every schedule of the threads of [think] and of
    [ponder] every [do_move] gets a legal move. *)
Theorem searches_play_legal_moves (pl : ptr → Position) :
  (∀ fuel s node s' pos' r,
      well_formed (nodes s) = true → positioned pl s →
      play_simulation fuel s (pl node) node = Some (s', pos', r) →
      ∃ tr pl',
        calls s' = calls s ++ tr ∧ moves_legal (pl node) [] tr = true ∧
        positioned pl' s' ∧ ∀ i, i < length (nodes s) → pl' i = pl i) ∧
  (∀ sched s,
      well_formed (nodes s) = true → 0 < length (nodes s) →
      m_playouts s = 0%Z → m_nodes s = 0%Z → positioned pl s →
      (∃ w tr pl',
          think_search sched (pl m_root) s = Some w ∧
          calls (search w) = calls s ++ tr ∧
          moves_legal (pl m_root) [] tr = true ∧
          positioned pl' (search w) ∧ pl' m_root = pl m_root) ∧
      (∃ w tr pl',
          ponder_search sched (pl m_root) s = Some w ∧
          calls (search w) = calls s ++ tr ∧
          moves_legal (pl m_root) [] tr = true ∧
          positioned pl' (search w) ∧ pl' m_root = pl m_root)).
Proof.
  split.
  - intros fuel s node s' pos' r Hwf Hpl Hps.
    apply play_simulation_descent in Hps.
    destruct (descent_positioned _ _ _ _ _ _ Hps pl Hwf Hpl eq_refl)
      as (tr & pl' & Hcalls & Htr & Hpl' & Hagree).
    exists tr, pl'. split; [done|]. split; [|done].
    by rewrite <- (app_nil_r tr), Htr.
  - intros sched s Hwf Hlen Hp Hn Hpl.
    assert (∀ w, legal_play (pl m_root) s (search w) →
                 ∃ tr pl',
                   calls (search w) = calls s ++ tr ∧
                   moves_legal (pl m_root) [] tr = true ∧
                   positioned pl' (search w) ∧ pl' m_root = pl m_root)
      as Hend.
    { intros w (_ & pl' & tr & Hpl' & Hroot & Hcalls & Htr).
      exists tr, pl'. split; [done|]. split; [|done].
      by rewrite <- (app_nil_r tr), Htr. }
    split.
    + destruct (think_search_total sched (pl m_root) s Hwf Hlen Hp Hn)
        as [w Hw].
      destruct (Hend w) as (tr & pl' & H1 & H2 & H3 & H4);
        [|by exists w, tr, pl'].
      apply think_search_run in Hw as (_ & _ & s1 & o & Hc & Hrun).
      eapply run_legal_play; [exact Hrun|]. simpl.
      apply legal_play_flag.
      pose proof (create_children_well_formed _ _ _ _ _ Hc Hwf) as Hwf1.
      destruct (create_children_positioned pl _ _ _ _ _ Hc Hwf Hpl eq_refl)
        as (pl1 & Hpl1 & Hagree).
      apply create_children_spec in Hc as (_ & _ & _ & _ & Hcalls & _).
      assert (legal_play (pl m_root) s s1) as Hs1.
      { split; [done|]. eexists pl1, _. split; [done|].
        split; [by apply Hagree|]. split; [exact Hcalls|]. done. }
      destruct cfg_noise; [|done].
      destruct Hs1 as (_ & pl2 & tr & Hpl2 & Hroot & Hcalls2 & Htr).
      split.
      { by rewrite (well_formed_children _ (nodes s1))
          by apply children_dirichlet_noise. }
      exists pl2, tr. split.
      { eapply positioned_ext; [apply moves_dirichlet_noise
                               |apply children_dirichlet_noise|done]. }
      split; [done|]. split; [by rewrite calls_dirichlet_noise|done].
    + destruct (ponder_search_total sched (pl m_root) s Hwf Hlen Hp Hn)
        as [w Hw].
      destruct (Hend w) as (tr & pl' & H1 & H2 & H3 & H4);
        [|by exists w, tr, pl'].
      apply ponder_search_start in Hw as [Hrun _].
      eapply run_legal_play; [exact Hrun|]. simpl.
      apply legal_play_flag. split; [done|].
      exists pl, []. split; [done|]. split; [done|].
      split; [by rewrite app_nil_r|done].
Qed.

End LegalPlayProperties.

(** ** The further properties on the small game *)

Section ToyProperties.
#[local] Existing Instance toy_rules.
#[local] Existing Instance toy_network.
#[local] Existing Instance toy_parameters.
#[local] Existing Instance toy_randomness.
#[local] Existing Instance toy_protocol.
#[local] Existing Instance toy_playout_type.

Lemma think_overshoots_by_at_most_the_workers_witness :
  well_formed (nodes toy_fresh) = true ∧ 0 < length (nodes toy_fresh) ∧
  m_playouts toy_fresh = 0%Z ∧ m_nodes toy_fresh = 0%Z ∧
  ∃ w, think_search toy_schedule [] toy_fresh = Some w ∧
       (m_playouts (search w)
        ≤ Z.max (m_maxplayouts toy_fresh) 1
          + Z.max (cfg_num_threads - 1) 0)%Z.
Proof.
  assert (0 < length (nodes toy_fresh)) as Hroot by (simpl; lia).
  split; [reflexivity|]. split; [exact Hroot|]. split; [reflexivity|].
  split; [reflexivity|].
  exact (think_overshoots_by_at_most_the_workers toy_schedule [] toy_fresh
           eq_refl Hroot eq_refl eq_refl).
Defined.


Lemma workers_leave_after_the_caller_witness :
  well_formed (nodes toy_expanded) = true ∧
  0 < length (nodes toy_expanded) ∧
  ∃ w, run Think [] [Turn MainThread; Turn MainThread]
           (start_search toy_expanded) = Some w ∧
       main_in_loop w = false ∧
       m_run (search w) = false ∧
       ∃ w', run Think []
                 (Turn ∘ WorkerThread <$> seq 0 (length (workers_in_loop w)))
                 w = Some w' ∧
             joined w' = true ∧
             length (descents w')
             ≤ length (descents w) + length (workers_in_loop w).
Proof.
  assert (0 < length (nodes toy_expanded)) as Hroot by (simpl; lia).
  split; [reflexivity|]. split; [exact Hroot|].
  eexists. split; [vm_compute; reflexivity|]. split; [reflexivity|].
  edestruct (workers_leave_after_the_caller Think
               [Turn MainThread; Turn MainThread] [] toy_expanded)
    as (Hoff & _ & Hw'); [reflexivity|exact Hroot|vm_compute; reflexivity
                         |reflexivity|].
  split; [exact Hoff|exact Hw'].
Defined.

Lemma ponder_ignores_the_budget_witness :
  (main_in_loop toy_stopped = true ∧
   ∃ w', step Ponder [] (Turn MainThread) toy_stopped = Some w' ∧
         main_in_loop w'
         = negb (input_pending toy_stopped) && m_run (search toy_stopped)) ∧
  (well_formed (nodes toy_fresh) = true ∧ 0 < length (nodes toy_fresh) ∧
   m_playouts toy_fresh = 0%Z ∧ m_nodes toy_fresh = 0%Z ∧
   forallb (λ a, negb (is_external_stop a) && negb (is_input a))
           toy_schedule = true ∧
   ∃ w, ponder_search toy_schedule [] toy_fresh = Some w ∧
        main_in_loop w = true ∧ m_run (search w) = true ∧
        (m_maxplayouts (search w) ≤ m_playouts (search w))%Z ∧
        ponder toy_schedule [] toy_fresh = None).
Proof.
  destruct (ponder_ignores_the_budget (Position := list Z))
    as [Hturn Hsched].
  split.
  - split; [reflexivity|].
    eexists. split; [vm_compute; reflexivity|].
    eapply (Hturn [] toy_stopped); [reflexivity|vm_compute; reflexivity].
  - assert (0 < length (nodes toy_fresh)) as Hroot by (simpl; lia).
    split; [reflexivity|]. split; [exact Hroot|]. split; [reflexivity|].
    split; [reflexivity|]. split; [reflexivity|].
    destruct (Hsched toy_schedule [] toy_fresh eq_refl Hroot eq_refl eq_refl
                eq_refl) as (w & Hw & Hmain & Hrun & Hnone).
    assert (from_option
              (λ w, bool_decide
                      (m_maxplayouts (search w) ≤ m_playouts (search w))%Z)
              false (ponder_search toy_schedule [] toy_fresh) = true)
      as Hover by (vm_compute; reflexivity).
    rewrite Hw in Hover. simpl in Hover. apply bool_decide_eq_true in Hover.
    exists w. split; [exact Hw|]. split; [exact Hmain|].
    split; [exact Hrun|]. split; [exact Hover|exact Hnone].
Defined.


Lemma toy_branching (p : list Z) : length (legal_moves p) ≤ 2.
Proof.
  simpl. unfold toy_legal_moves.
  destruct p as [|m p]; [simpl; lia|].
  destruct m as [|m|m]; try (simpl; lia).
  destruct m as [m|m|]; try (simpl; lia).
  destruct m as [m|m|]; try (simpl; lia).
  destruct p; simpl; lia.
Defined.


Lemma search_only_grows_the_tree_witness :
  (∃ s',
      play_simulation 3 toy_expanded [] 0
      = Some (s', [], Evaluation (1 # 4)) ∧
      grows toy_expanded s') ∧
  (∃ w',
      run Think [] toy_schedule (start_search toy_expanded) = Some w' ∧
      grows (search (start_search toy_expanded)) (search w')).
Proof.
  destruct (search_only_grows_the_tree (Position := list Z))
    as [Hdescent Hrun].
  split.
  - eexists. split; [vm_compute; reflexivity|].
    eapply (Hdescent 3 toy_expanded [] 0 _ [] (Evaluation (1 # 4))).
    vm_compute. reflexivity.
  - eexists. split; [vm_compute; reflexivity|].
    eapply (Hrun Think [] toy_schedule (start_search toy_expanded)).
    vm_compute. reflexivity.
Defined.

Lemma get_best_move_only_reorders_witness :
  get_best_move [3; 2]%Z toy_unvisited = Some (toy_unvisited, 7%Z) ∧
  reordered toy_unvisited toy_unvisited ∧
  (7%Z = MOVE_NONE ∨
   ∃ root c n, nodes toy_unvisited !! m_root = Some root ∧
               c ∈ m_children root ∧
               nodes toy_unvisited !! c = Some n ∧ 7%Z = m_move n).
Proof.
  assert (get_best_move [3; 2]%Z toy_unvisited = Some (toy_unvisited, 7%Z))
    as H1 by (vm_compute; reflexivity).
  split; [exact H1|].
  exact (get_best_move_only_reorders [3; 2]%Z toy_unvisited toy_unvisited
           7%Z H1).
Defined.

Lemma best_move_is_most_visited_witness :
  well_formed (nodes toy_deep) = true ∧
  (cfg_random_cnt ≤ game_ply ([] : list Z))%Z ∧
  ∃ s',
    get_best_move [] toy_deep = Some (s', 2%Z) ∧
    ∃ first fn,
      get_first_child m_root s' = Some first ∧
      nodes toy_deep !! first = Some fn ∧
      (2%Z = m_move fn ∨ 2%Z = MOVE_NONE) ∧
      ∀ root c n, nodes toy_deep !! m_root = Some root →
                  c ∈ m_children root →
                  nodes toy_deep !! c = Some n →
                  no_better (side_to_move ([] : list Z)) n fn.
Proof.
  assert (cfg_random_cnt ≤ game_ply ([] : list Z))%Z as Hply
      by (simpl; lia).
  split; [reflexivity|]. split; [exact Hply|].
  eexists. split; [vm_compute; reflexivity|].
  eapply (best_move_is_most_visited [] toy_deep _ 2%Z eq_refl Hply).
  vm_compute. reflexivity.
Defined.

Lemma think_returns_a_legal_move_witness :
  well_formed (nodes toy_fresh) = true ∧ 0 < length (nodes toy_fresh) ∧
  m_playouts toy_fresh = 0%Z ∧ m_nodes toy_fresh = 0%Z ∧
  has_children m_root toy_fresh = false ∧
  ∃ w, think_search toy_schedule [] toy_fresh = Some w ∧
       joined w = true ∧
       ∃ s' m, think toy_schedule [] toy_fresh = Some (s', m) ∧
               (m = MOVE_NONE ∨ m ∈ legal_moves ([] : list Z)).
Proof.
  assert (0 < length (nodes toy_fresh)) as Hroot by (simpl; lia).
  split; [reflexivity|]. split; [exact Hroot|]. split; [reflexivity|].
  split; [reflexivity|]. split; [reflexivity|].
  destruct (think_returns_a_legal_move toy_schedule [] toy_fresh
              eq_refl Hroot eq_refl eq_refl eq_refl) as (w & Hw & Hj).
  assert (from_option joined false (think_search toy_schedule [] toy_fresh)
          = true) as Hjoined by (vm_compute; reflexivity).
  rewrite Hw in Hjoined. simpl in Hjoined.
  exists w. split; [exact Hw|]. split; [exact Hjoined|].
  destruct (Hj Hjoined) as (s' & m & Ht & Hm & _).
  exists s', m. split; [exact Ht|exact Hm].
Defined.

Lemma principal_variation_starts_with_the_best_move_witness :
  well_formed (nodes toy_deep) = true ∧
  (cfg_random_cnt ≤ game_ply ([] : list Z))%Z ∧
  ∃ s',
    get_best_move [] toy_deep = Some (s', 2%Z) ∧
    ∃ first fn,
      get_first_child m_root s' = Some first ∧
      nodes s' !! first = Some fn ∧
      (2%Z = m_move fn ∨ 2%Z = MOVE_NONE) ∧
      get_best_root_child (side_to_move ([] : list Z)) m_root s'
      = Some first ∧
      ∀ line, best_line s' [] m_root line → ∃ rest, line = m_move fn :: rest.
Proof.
  assert (cfg_random_cnt ≤ game_ply ([] : list Z))%Z as Hply
      by (simpl; lia).
  split; [reflexivity|]. split; [exact Hply|].
  eexists. split; [vm_compute; reflexivity|].
  eapply (principal_variation_starts_with_the_best_move [] toy_deep _ 2%Z
            eq_refl Hply).
  vm_compute. reflexivity.
Defined.

Lemma searches_return_stopped_witness :
  well_formed (nodes toy_fresh) = true ∧ 0 < length (nodes toy_fresh) ∧
  m_playouts toy_fresh = 0%Z ∧ m_nodes toy_fresh = 0%Z ∧
  (∃ w, think_search toy_schedule [] toy_fresh = Some w ∧
        joined w = true ∧
        ∃ s' m, think toy_schedule [] toy_fresh = Some (s', m) ∧
                m_run s' = false ∧
                (s' = search w ∨ reordered (search w) s')) ∧
  (∃ w, ponder_search toy_ponder_schedule [] toy_fresh = Some w ∧
        joined w = true ∧
        ∃ s', ponder toy_ponder_schedule [] toy_fresh = Some s' ∧
              m_run s' = false ∧
              (s' = search w ∨ reordered (search w) s')).
Proof.
  assert (0 < length (nodes toy_fresh)) as Hroot by (simpl; lia).
  split; [reflexivity|]. split; [exact Hroot|]. split; [reflexivity|].
  split; [reflexivity|]. split.
  - destruct (searches_return_stopped toy_schedule [] toy_fresh
                eq_refl Hroot eq_refl eq_refl) as [(w & Hw & Hj) _].
    assert (from_option joined false
              (think_search toy_schedule [] toy_fresh) = true)
      as Hjoined by (vm_compute; reflexivity).
    rewrite Hw in Hjoined. simpl in Hjoined.
    exists w. split; [exact Hw|]. split; [exact Hjoined|].
    destruct (Hj Hjoined) as (s' & m & Ht & Hoff & Hs' & _).
    exists s', m. split; [exact Ht|]. split; [exact Hoff|exact Hs'].
  - destruct (searches_return_stopped toy_ponder_schedule [] toy_fresh
                eq_refl Hroot eq_refl eq_refl) as [_ (w & Hw & Hj)].
    assert (from_option joined false
              (ponder_search toy_ponder_schedule [] toy_fresh) = true)
      as Hjoined by (vm_compute; reflexivity).
    rewrite Hw in Hjoined. simpl in Hjoined.
    exists w. split; [exact Hw|]. split; [exact Hjoined|].
    exact (Hj Hjoined).
Defined.


Lemma toy_network_forward (p : list Z) e policy :
  nn_forward p = Some (e, policy) → (0 <= e)%Q ∧ (e <= 1)%Q.
Proof. simpl. intros [= <- _]. split; discriminate. Defined.

Lemma toy_network_value (p : list Z) :
  (0 <= nn_value p)%Q ∧ (nn_value p <= 1)%Q.
Proof. simpl. split; discriminate. Defined.

Lemma toy_expanded_in_range : Forall stats_in_range (nodes toy_expanded).
Proof.
  repeat constructor; simpl; try discriminate.
Defined.

Lemma toy_fresh_in_range : Forall stats_in_range (nodes toy_fresh).
Proof.
  repeat constructor; simpl; try discriminate.
Defined.

Lemma statistics_stay_in_range_witness :
  (∀ (p : list Z) e policy,
      nn_forward p = Some (e, policy) → (0 <= e)%Q ∧ (e <= 1)%Q) ∧
  (∀ p : list Z, (0 <= nn_value p)%Q ∧ (nn_value p <= 1)%Q) ∧
  (Forall stats_in_range (nodes toy_expanded) ∧
   ∃ s',
     play_simulation 3 toy_expanded [] 0
     = Some (s', [], Evaluation (1 # 4)) ∧
     Forall stats_in_range (nodes s') ∧
     result_in_range (Evaluation (1 # 4))) ∧
  (well_formed (nodes toy_fresh) = true ∧ 0 < length (nodes toy_fresh) ∧
   m_playouts toy_fresh = 0%Z ∧ m_nodes toy_fresh = 0%Z ∧
   Forall stats_in_range (nodes toy_fresh) ∧
   ∃ w, think_search toy_schedule [] toy_fresh = Some w ∧
        Forall stats_in_range (nodes (search w)) ∧
        Forall (λ d, result_in_range d.2) (descents w)).
Proof.
  destruct (statistics_stay_in_range (Position := list Z)
              toy_network_forward toy_network_value) as [Hdescent Hsearch].
  split; [exact toy_network_forward|]. split; [exact toy_network_value|].
  split.
  - split; [exact toy_expanded_in_range|].
    eexists. split; [vm_compute; reflexivity|].
    eapply (Hdescent 3 toy_expanded [] 0 _ [] (Evaluation (1 # 4)));
      [vm_compute; reflexivity|exact toy_expanded_in_range].
  - assert (0 < length (nodes toy_fresh)) as Hroot by (simpl; lia).
    split; [reflexivity|]. split; [exact Hroot|]. split; [reflexivity|].
    split; [reflexivity|]. split; [exact toy_fresh_in_range|].
    exact (proj1 (Hsearch toy_schedule [] toy_fresh eq_refl Hroot
                          eq_refl eq_refl toy_fresh_in_range)).
Defined.

Lemma toy_expanded_positioned : positioned toy_positions toy_expanded.
Proof.
  intros i n c nc Hi Hc Hnc.
  destruct i as [|[|[|i]]]; simpl in Hi;
    [|by (injection Hi as <-; apply elem_of_nil in Hc)..|done].
  injection Hi as <-. simpl in Hc.
  apply elem_of_cons in Hc as [-> |Hc];
    [|apply elem_of_cons in Hc as [-> |Hc]; [|by apply elem_of_nil in Hc]];
    simpl in Hnc; injection Hnc as <-; simpl; (split; [|done]).
  - by left.
  - right. by left.
Defined.

Lemma toy_fresh_positioned : positioned toy_positions toy_fresh.
Proof.
  intros i n c nc Hi Hc Hnc.
  destruct i as [|i]; simpl in Hi; [|done].
  injection Hi as <-. by apply elem_of_nil in Hc.
Defined.

Lemma searches_play_legal_moves_witness :
  (well_formed (nodes toy_expanded) = true ∧
   positioned toy_positions toy_expanded ∧
   ∃ s' tr pl',
     play_simulation 3 toy_expanded (toy_positions 0) 0
     = Some (s', [], Evaluation (1 # 4)) ∧
     calls s' = calls toy_expanded ++ tr ∧
     moves_legal (toy_positions 0) [] tr = true ∧
     positioned pl' s' ∧
     ∀ i, i < length (nodes toy_expanded) → pl' i = toy_positions i) ∧
  (well_formed (nodes toy_fresh) = true ∧ 0 < length (nodes toy_fresh) ∧
   m_playouts toy_fresh = 0%Z ∧ m_nodes toy_fresh = 0%Z ∧
   positioned toy_positions toy_fresh ∧
   ∃ w tr pl',
     think_search toy_schedule (toy_positions m_root) toy_fresh = Some w ∧
     calls (search w) = calls toy_fresh ++ tr ∧
     moves_legal (toy_positions m_root) [] tr = true ∧
     positioned pl' (search w) ∧ pl' m_root = toy_positions m_root).
Proof.
  destruct (searches_play_legal_moves (Position := list Z) toy_positions)
    as [Hdescent Hsearch].
  split.
  - split; [reflexivity|]. split; [exact toy_expanded_positioned|].
    assert (∃ s', play_simulation 3 toy_expanded (toy_positions 0) 0
                  = Some (s', [], Evaluation (1 # 4))) as [s' Hps]
        by (eexists; vm_compute; reflexivity).
    destruct (Hdescent 3 toy_expanded 0 s' [] _ eq_refl
                       toy_expanded_positioned Hps) as (tr & pl' & Hrest).
    by exists s', tr, pl'.
  - assert (0 < length (nodes toy_fresh)) as Hroot by (simpl; lia).
    split; [reflexivity|]. split; [exact Hroot|]. split; [reflexivity|].
    split; [reflexivity|]. split; [exact toy_fresh_positioned|].
    exact (proj1 (Hsearch toy_schedule toy_fresh eq_refl Hroot
                          eq_refl eq_refl toy_fresh_positioned)).
Defined.

End ToyProperties.

Section ToyPropertiesSingleThread.
#[local] Existing Instance toy_rules.
#[local] Existing Instance toy_network.
#[local] Existing Instance toy_single.
#[local] Existing Instance toy_randomness.
#[local] Existing Instance toy_playout_type.

Lemma playout_limit_zero_is_no_limit_witness :
  well_formed (nodes toy_fresh) = true ∧ 0 < length (nodes toy_fresh) ∧
  m_playouts toy_fresh = 0%Z ∧ m_nodes toy_fresh = 0%Z ∧
  forallb (λ a, negb (is_external_stop a)) toy_caller_schedule = true ∧
  ((Z.of_nat (length toy_caller_schedule) < maxplayouts_max)%Z ∧
   ∃ w, think_search toy_caller_schedule [] (UCTSearch 0 toy_fresh)
        = Some w ∧
        (∀ t, spawned t w = true → in_loop t w = true) ∧
        joined w = false) ∧
  ((1 ≤ 3)%Z ∧ maxplayouts_of_int 3 = 3%Z ∧ (cfg_num_threads ≤ 1)%Z ∧
   ∃ w, think_search toy_caller_schedule []
                     (set_playout_limit 3 toy_fresh) = Some w ∧
        joined w = true ∧ m_playouts (search w) = 3%Z).
Proof.
  assert (0 < length (nodes toy_fresh)) as Hroot by (simpl; lia).
  split; [reflexivity|]. split; [exact Hroot|]. split; [reflexivity|].
  split; [reflexivity|]. split; [reflexivity|].
  destruct (playout_limit_zero_is_no_limit toy_caller_schedule [] toy_fresh
              eq_refl Hroot eq_refl eq_refl eq_refl) as [Hzero Hlimit].
  split.
  - assert (Z.of_nat (length toy_caller_schedule) < maxplayouts_max)%Z
      as Hshort by reflexivity.
    split; [exact Hshort|]. exact (Hzero Hshort).
  - assert (1 ≤ 3)%Z as H1 by lia.
    assert (cfg_num_threads ≤ 1)%Z as H2 by (simpl; lia).
    split; [exact H1|]. split; [reflexivity|]. split; [exact H2|].
    destruct (Hlimit 3%Z H1 eq_refl H2) as (w & Hw & _ & Hj).
    assert (from_option joined false
              (think_search toy_caller_schedule []
                            (set_playout_limit 3 toy_fresh)) = true)
      as Hjoined by (vm_compute; reflexivity).
    rewrite Hw in Hjoined. simpl in Hjoined.
    exists w. split; [exact Hw|]. split; [exact Hjoined|exact (Hj Hjoined)].
Defined.

End ToyPropertiesSingleThread.

Section ToyPropertiesWithOutput.
#[local] Existing Instance toy_rules.
#[local] Existing Instance toy_network.
#[local] Existing Instance toy_verbose.
#[local] Existing Instance toy_randomness.
#[local] Existing Instance toy_protocol.

Lemma toy_texts (m : Z) : UCI_move m ≠ "".
Proof.
  simpl. destruct (m =? 1)%Z; [done|]. destruct (m =? 2)%Z; [done|].
  by destruct (m =? 3)%Z.
Defined.

Lemma toy_undo (m : Z) (p : list Z) : undo_move m (do_move m p) = p.
Proof. reflexivity. Defined.

Lemma get_pv_follows_the_best_children_witness :
  (well_formed (nodes toy_deep) = true ∧ 0 < length (nodes toy_deep) ∧
   is_Some (get_pv (depth_bound toy_deep) toy_deep [] 0)) ∧
  ((∀ m, UCI_move m ≠ "") ∧
   (∀ (m : Z) (p : list Z), undo_move m (do_move m p) = p) ∧
   get_pv 3 toy_deep [] 0 = Some ([], "d2d4 d7d5") ∧
   ∃ line,
     best_line toy_deep [] 0 line ∧
     "d2d4 d7d5" = String.concat " " (UCI_move <$> line)) ∧
  ((∀ (m : Z) (p : list Z), undo_move m (do_move m p) = p) ∧
   ∃ state' out,
     dump_analysis [] 3 toy_deep = Some (state', out) ∧
     state' = [] ∧
     ∃ root line pv,
       nodes toy_deep !! m_root = Some root ∧
       best_line toy_deep [] m_root line ∧
       out = Some (3%Z, (100 * get_eval (side_to_move ([] : list Z)) root)%Q,
                   pv)).
Proof.
  destruct (get_pv_follows_the_best_children (Position := list Z))
    as (Htotal & Hline & Hanalysis).
  split; [|split].
  - assert (0 < length (nodes toy_deep)) as Hroot by (simpl; lia).
    split; [reflexivity|]. split; [exact Hroot|].
    exact (Htotal toy_deep [] 0 eq_refl Hroot).
  - assert (get_pv 3 toy_deep [] 0 = Some ([], "d2d4 d7d5")) as Hpv
      by (vm_compute; reflexivity).
    split; [exact toy_texts|]. split; [exact toy_undo|].
    split; [exact Hpv|].
    destruct (Hline 3 toy_deep [] 0 [] "d2d4 d7d5" Hpv)
      as (line & Hbest & Hres & _).
    exists line. split; [exact Hbest|exact (Hres toy_texts)].
  - split; [exact toy_undo|].
    assert (is_Some (dump_analysis [] 3 toy_deep)) as [[state' out] Hd]
      by (vm_compute; by eexists).
    destruct (Hanalysis [] 3%Z toy_deep state' out Hd)
      as (Hpos & _ & Hout).
    exists state', out. split; [exact Hd|]. split; [exact (Hpos toy_undo)|].
    destruct (Hout eq_refl) as (root & line & pv & Hr & Hl & _ & Ho).
    exists root, line, pv. split; [exact Hr|]. split; [exact Hl|exact Ho].
Defined.


End ToyPropertiesWithOutput.
